(** * Cluster topology codec (cluster2/topo.go)

    A shallow embedding of [Topo], [Node] and [topoSlotSet] with their
    RESP marshalling and unmarshalling, and of the canonical sort.

    Conventions.
    - [uint16] values are integers of [Z]; the two places where the
      source does 16-bit arithmetic ([tss.slots[1]++] and
      [tss.slots[1] - 1]) have the wrap-around written out.
    - The package [resp] is not among the sources.  Its marshalers and
      unmarshalers are modelled from the description of the wire format,
      one level above the bytes: the stream is the sequence of RESP items
      that they write and read, array headers, integers and strings.  The
      writer is an in-memory buffer.
    - [sort.Slice] and [net.SplitHostPort] belong to the Go standard
      library; the first is modelled by its documented contract, the
      second is transcribed.
    - Go leaves two things open: the iteration order of [range] over a
      map, and the order that [sort.Slice] gives to elements that
      compare as equal.  Both are modelled as relations that hold for every
      outcome Go allows; an executable instance of each is given and
      shown to be one of these outcomes. *)

From Stdlib Require Import Ascii String.
From stdpp Require Import gmap strings list fin_maps sorting.

Local Open Scope Z_scope.

(** ** Data model *)

(** [[2]uint16]: start is inclusive, end is exclusive. *)
Abbreviation slot_range := (Z * Z)%type.

Definition uint16_max : Z := 65535.

(** Wrap-around of unsigned 16-bit arithmetic. *)
Definition wrap16 (z : Z) : Z := z `mod` 65536.

Definition is_uint16 (z : Z) : Prop := 0 ≤ z ≤ uint16_max.

Record Node : Type := mkNode {
  Addr : string;
  ID : string;
  Slots : list slot_range;
  SlaveOfAddr : string;
  SlaveOfID : string
}.

Global Instance Node_eq_dec : EqDecision Node.
Proof. solve_decision. Defined.

(** [type Topo []Node] *)
Abbreviation Topo := (list Node).

Record topoSlotSet : Type := mkTSS {
  slots : slot_range;
  nodes : list Node
}.

Global Instance topoSlotSet_eq_dec : EqDecision topoSlotSet.
Proof. solve_decision. Defined.

(** The zero values of the two structs. *)
Definition Node_zero : Node := mkNode "" "" [] "" "".
Definition topoSlotSet_zero : topoSlotSet := mkTSS (0, 0) [].

Definition with_Slots (n : Node) (s : list slot_range) : Node :=
  mkNode (Addr n) (ID n) s (SlaveOfAddr n) (SlaveOfID n).

Definition with_SlaveOf (n : Node) (addr id : string) : Node :=
  mkNode (Addr n) (ID n) (Slots n) addr id.

(** ** The RESP stream *)

(** Modelled from the spec: the package [resp] is missing.  The wire
    format is self-describing and made of arrays with a declared length,
    integers and strings; an array is its header followed by its
    elements. *)
Inductive item : Type :=
  | ArrayHeader (n : Z)
  | Int (i : Z)
  | BulkString (s : string).

Global Instance item_eq_dec : EqDecision item.
Proof. solve_decision. Defined.

Abbreviation Reader := (list item).
Abbreviation Writer := (list item).

Inductive error : Type :=
  | ErrEOF
  | ErrUnexpected (found : item)
  | ErrRange (i : Z)
  | ErrMalformedNode (nodeStrs : list string).

(** State and error monad: the receiver and the reader are threaded
    through, an error stops the computation and keeps the state reached. *)
Definition M (S A : Type) : Type := S → S * (error + A).

Definition ret {S A} (a : A) : M S A := λ s, (s, inr a).
Definition fail {S A} (e : error) : M S A := λ s, (s, inl e).
Definition bind {S A B} (m : M S A) (k : A → M S B) : M S B :=
  λ s, match m s with
       | (s', inl e) => (s', inl e)
       | (s', inr a) => k a s'
       end.
Definition get {S} : M S S := λ s, (s, inr s).
Definition modify {S} (f : S → S) : M S unit := λ s, (f s, inr tt).

Notation "x <~ c1 ;; c2" := (bind c1 (λ x, c2))
  (at level 100, c1 at next level, right associativity).
Notation "c1 ;;; c2" := (bind c1 (λ _, c2))
  (at level 100, right associativity).

(** Run a computation on the reader inside a state that pairs a receiver
    with the reader. *)
Definition on_reader {T A} (m : M Reader A) : M (T * Reader) A :=
  λ s, match m (snd s) with
       | (br, r) => ((fst s, br), r)
       end.

Definition on_receiver {T} (f : T → T) : M (T * Reader) unit :=
  modify (λ s, (f (fst s), snd s)).

Definition receiver {T} : M (T * Reader) T :=
  λ s, (s, inr (fst s)).

(** Modelled from the spec: [resp.ArrayHeader.UnmarshalRESP] is missing.
    It reads the declared length of an array; anything else is a parse
    error (wrong element type). *)
Definition ArrayHeader_UnmarshalRESP : M Reader Z :=
  λ br, match br with
        | [] => (br, inl ErrEOF)
        | ArrayHeader n :: br' => (br', inr n)
        | it :: br' => (br', inl (ErrUnexpected it))
        end.

(** Modelled from the spec: [resp.Any.UnmarshalRESP] is missing.  Into a
    [uint16] it reads one integer, which has to fit 16 bits. *)
Definition Any_UnmarshalRESP_uint16 : M Reader Z :=
  λ br, match br with
        | [] => (br, inl ErrEOF)
        | Int i :: br' =>
            if bool_decide (0 ≤ i ≤ uint16_max) then (br', inr i)
            else (br', inl (ErrRange i))
        | it :: br' => (br', inl (ErrUnexpected it))
        end.

(** Modelled from the spec: [resp.Any.UnmarshalRESP] is missing.  Into a
    [[]string] it reads an array of strings: the header, then as many
    strings as it declares. *)
Fixpoint read_strings (k : nat) : M Reader (list string) :=
  match k with
  | O => ret []
  | S k' =>
      λ br, match br with
            | [] => (br, inl ErrEOF)
            | BulkString s :: br' =>
                (ss <~ read_strings k' ;; ret (s :: ss)) br'
            | it :: br' => (br', inl (ErrUnexpected it))
            end
  end.

Definition Any_UnmarshalRESP_strings : M Reader (list string) :=
  n <~ ArrayHeader_UnmarshalRESP ;; read_strings (Z.to_nat n).

(** Modelled from the spec: the [MarshalRESP] methods of
    [resp.ArrayHeader] and [resp.Any] are missing.  They write an array
    header, an integer, and an array of strings.  The writes go to an
    in-memory buffer and return the [error] of the [io.Writer], which the
    buffer never raises. *)
Definition ArrayHeader_MarshalRESP (n : Z) (w : Writer) : Writer * option error :=
  (w ++ [ArrayHeader n], None).

Definition Any_MarshalRESP_uint16 (i : Z) (w : Writer) : Writer * option error :=
  (w ++ [Int i], None).

Definition Any_MarshalRESP_strings (ss : list string) (w : Writer)
  : Writer * option error :=
  (w ++ ArrayHeader (Z.of_nat (length ss)) :: (BulkString <$> ss), None).

(** ** [net.SplitHostPort]

    The standard library function used by the encoder, transcribed from
    the Go sources.  It returns empty host and port together with an
    error when the address is not of the form [host:port],
    [[host]:port]. *)

Fixpoint index_byte (c : ascii) (s : string) : option nat :=
  match s with
  | EmptyString => None
  | String a s' =>
      if decide (a = c) then Some O else S <$> index_byte c s'
  end.

Fixpoint last_index_byte (c : ascii) (s : string) : option nat :=
  match s with
  | EmptyString => None
  | String a s' =>
      match last_index_byte c s' with
      | Some i => Some (S i)
      | None => if decide (a = c) then Some O else None
      end
  end.

Definition has_byte (c : ascii) (s : string) : bool :=
  match index_byte c s with
  | Some _ => true
  | None => false
  end.

Definition str_take (n : nat) (s : string) : string := substring 0 n s.

Definition str_drop (n : nat) (s : string) : string :=
  substring n (String.length s - n) s.

Definition SplitHostPort (hostport : string)
  : string * string * option string :=
  let addrErr (why : string) := ("", "", Some why) in
  match last_index_byte ":" hostport with
  | None => addrErr "missing port in address"
  | Some i =>
      let after_brackets (host : string) (j k : nat) :=
        if has_byte "[" (str_drop j hostport) then
          addrErr "unexpected '[' in address"
        else if has_byte "]" (str_drop k hostport) then
          addrErr "unexpected ']' in address"
        else (host, str_drop (S i) hostport, None) in
      if decide (String.get 0 hostport = Some "["%char) then
        match index_byte "]" hostport with
        | None => addrErr "missing ']' in address"
        | Some end_ =>
            if decide (S end_ = String.length hostport) then
              addrErr "missing port in address"
            else if decide (S end_ = i) then
              after_brackets (substring 1 (end_ - 1) hostport) 1%nat (S end_)
            else if decide (String.get (S end_) hostport = Some ":"%char) then
              addrErr "too many colons in address"
            else addrErr "missing port in address"
        end
      else
        let host := str_take i hostport in
        if has_byte ":" host then addrErr "too many colons in address"
        else after_brackets host 0%nat 0%nat
  end.

(** ** [topoSlotSet] *)

(** The closure [marshal] of [topoSlotSet.MarshalRESP]: it writes only
    while no error has been recorded. *)
Definition marshal (m : Writer → Writer * option error)
    (st : Writer * option error) : Writer * option error :=
  match snd st with
  | None => m (fst st)
  | Some _ => st
  end.

(** The [[]string] written for one node: host and port, then the id
    when it is not empty. *)
Definition node_strings (n : Node) : list string :=
  let '(host, port, _) := SplitHostPort (Addr n) in
  let node := [host; port] in
  if decide (ID n ≠ "") then node ++ [ID n] else node.

Definition topoSlotSet_MarshalRESP (tss : topoSlotSet) (w : Writer)
  : Writer * option error :=
  let st := (w, None) in
  let st := marshal (ArrayHeader_MarshalRESP (2 + Z.of_nat (length (nodes tss)))) st in
  let st := marshal (Any_MarshalRESP_uint16 (fst (slots tss))) st in
  let st := marshal (Any_MarshalRESP_uint16 (wrap16 (snd (slots tss) - 1))) st in
  fold_left (λ st n, marshal (Any_MarshalRESP_strings (node_strings n)) st)
            (nodes tss) st.

(** Assignment to [tss.slots[i]]. *)
Definition set_slot (i : nat) (v : Z) (tss : topoSlotSet) : topoSlotSet :=
  match i with
  | O => mkTSS (v, snd (slots tss)) (nodes tss)
  | _ => mkTSS (fst (slots tss), v) (nodes tss)
  end.

(** [tss.slots[1]++] *)
Definition incr_end (tss : topoSlotSet) : topoSlotSet :=
  mkTSS (fst (slots tss), wrap16 (snd (slots tss) + 1)) (nodes tss).

Definition append_node (n : Node) (tss : topoSlotSet) : topoSlotSet :=
  mkTSS (slots tss) (nodes tss ++ [n]).

(** The node built from the strings of one node entry, before the
    slave-of fields are set. *)
Definition node_of_strings (nodeStrs : list string) (sl : slot_range) : Node :=
  let ip := nth 0 nodeStrs "" in
  let port := nth 1 nodeStrs "" in
  let id := if decide (2 < length nodeStrs)%nat then nth 2 nodeStrs "" else "" in
  mkNode (ip +:+ ":" +:+ port) id [sl] "" "".

(** The loop [for i := 0; i < arrHead.N; i++] with its local variable
    [masterNode]; [count] is the number of iterations left. *)
Fixpoint unmarshal_nodes (count : nat) (i : Z) (masterNode : Node)
  : M (topoSlotSet * Reader) unit :=
  match count with
  | O => ret tt
  | S count' =>
      nodeStrs <~ on_reader Any_UnmarshalRESP_strings ;;
      if decide (length nodeStrs < 2)%nat then fail (ErrMalformedNode nodeStrs)
      else
        tss <~ receiver ;;
        let node := node_of_strings nodeStrs (slots tss) in
        let masterNode' := if decide (i = 0) then node else masterNode in
        let node' := if decide (i = 0) then node
                     else with_SlaveOf node (Addr masterNode) (ID masterNode) in
        on_receiver (append_node node') ;;;
        unmarshal_nodes count' (i + 1) masterNode'
  end.

Definition topoSlotSet_UnmarshalRESP : M (topoSlotSet * Reader) unit :=
  n <~ on_reader ArrayHeader_UnmarshalRESP ;;
  s0 <~ on_reader Any_UnmarshalRESP_uint16 ;;
  on_receiver (set_slot 0 s0) ;;;
  s1 <~ on_reader Any_UnmarshalRESP_uint16 ;;
  on_receiver (set_slot 1 s1) ;;;
  on_receiver incr_end ;;;
  unmarshal_nodes (Z.to_nat (n - 2)) 0 Node_zero.

(** ** [sort.Slice]

    [sort.Slice] permutes the slice in place.  Its documentation asks the
    [less] function for a transitive ordering (a strict weak order),
    promises a sorted slice for such a function, and does not promise
    stability.  On a finite collection a strict weak order is exactly an
    order induced by a ranking of the elements, which is how the
    requirement is stated here; only elements at different positions are
    ever compared. *)

Inductive result (A : Type) : Type :=
  | Ok (a : A)
  | Panic.
Arguments Ok {A} a.
Arguments Panic {A}.

Section sort_Slice.
Context {A : Type} (less : A → A → bool).

Definition ranked_by (rank : A → Z) (x y : A) : Prop :=
  less x y = bool_decide (rank x < rank y) ∧
  less y x = bool_decide (rank y < rank x).

Definition transitive_ordering (l : list A) : Prop :=
  ∃ rank : A → Z, ForallOrdPairs (ranked_by rank) l.

(** No element is less than one that stands before it. *)
Definition sorted_by (l : list A) : Prop :=
  ForallOrdPairs (λ x y, less y x = false) l.

Definition sort_Slice (l l' : list A) : Prop :=
  l ≡ₚ l' ∧ (transitive_ordering l → sorted_by l').

(** The insertion sort that [sort.Slice] runs on short slices: each
    element moves left while it is less than its left neighbour.  The
    sorted prefix is kept reversed. *)
Fixpoint insert_back (x : A) (rprefix : list A) : list A :=
  match rprefix with
  | [] => [x]
  | y :: r => if less x y then y :: insert_back x r else x :: y :: r
  end.

Definition insertionSort (l : list A) : list A :=
  reverse (fold_left (λ acc x, insert_back x acc) l []).
End sort_Slice.

(** ** [Topo.sort] *)

(** [node.Slots[i][0] < node.Slots[j][0]] *)
Definition less_slot (a b : slot_range) : bool := bool_decide (a.1 < b.1).

(** The [less] function of the second [sort.Slice]; [None] stands for
    the index-out-of-range panic of [Slots[0]]. *)
Definition less_node (a b : Node) : option bool :=
  match Slots a, Slots b with
  | sa :: _, sb :: _ =>
      Some (if decide (sa ≠ sb) then bool_decide (sa.1 < sb.1)
            else bool_decide (SlaveOfAddr a = ""))
  | _, _ => None
  end.

Definition less_node_total (a b : Node) : bool := default false (less_node a b).

(** The first loop: the slots of one node after [sort.Slice]. *)
Definition sort_node_slots (n n' : Node) : Prop :=
  ∃ s', sort_Slice less_slot (Slots n) s' ∧ n' = with_Slots n s'.

(** A slice of fewer than two elements is never compared; in a longer
    one every element takes part in a comparison, so a node without
    slots makes [Slots[0]] panic. *)
Inductive Topo_sort (tt : Topo) : result Topo → Prop :=
  | Topo_sort_ok tt1 tt2 :
      Forall2 sort_node_slots tt tt1 →
      ((2 ≤ length tt)%nat → Forall (λ n, Slots n ≠ []) tt) →
      sort_Slice less_node_total tt1 tt2 →
      Topo_sort tt (Ok tt2)
  | Topo_sort_panic :
      (2 ≤ length tt)%nat →
      Exists (λ n, Slots n = []) tt →
      Topo_sort tt Panic.

Definition sort_node_slots_run (n : Node) : Node :=
  with_Slots n (insertionSort less_slot (Slots n)).

Definition Topo_sort_run (tt : Topo) : result Topo :=
  if decide ((2 ≤ length tt)%nat ∧ Exists (λ n, Slots n = []) tt) then Panic
  else Ok (insertionSort less_node_total (sort_node_slots_run <$> tt)).

(** ** [range] over a map *)

Definition map_range `{Countable K} {V} (m : gmap K V) (l : list V) : Prop :=
  l ≡ₚ (map_to_list m).*2.

(** ** [Topo.MarshalRESP] *)

(** The body of the inner loop: [tss := m[slots]; tss.slots = slots;
    tss.nodes = append(tss.nodes, t); m[slots] = tss]. *)
Definition add_slot (t : Node) (m : gmap slot_range topoSlotSet)
    (sl : slot_range) : gmap slot_range topoSlotSet :=
  let tss := default topoSlotSet_zero (m !! sl) in
  <[sl := mkTSS sl (nodes tss ++ [t])]> m.

Definition slot_buckets (tt : Topo) : gmap slot_range topoSlotSet :=
  fold_left (λ m t, fold_left (add_slot t) (Slots t) m) tt ∅.

Definition less_tss (a b : topoSlotSet) : bool :=
  bool_decide ((slots a).1 < (slots b).1).

Fixpoint marshal_slotSets (allTSS : list topoSlotSet) (w : Writer)
  : Writer * option error :=
  match allTSS with
  | [] => (w, None)
  | tss :: rest =>
      match topoSlotSet_MarshalRESP tss w with
      | (w', Some e) => (w', Some e)
      | (w', None) => marshal_slotSets rest w'
      end
  end.

Definition marshal_sorted (allTSS : list topoSlotSet) (w : Writer)
  : Writer * option error :=
  match ArrayHeader_MarshalRESP (Z.of_nat (length allTSS)) w with
  | (w', Some e) => (w', Some e)
  | (w', None) => marshal_slotSets allTSS w'
  end.

Definition Topo_MarshalRESP (tt : Topo) (w : Writer)
    (out : Writer * option error) : Prop :=
  ∃ l allTSS,
    map_range (slot_buckets tt) l ∧
    sort_Slice less_tss l allTSS ∧
    out = marshal_sorted allTSS w.

Definition Topo_MarshalRESP_run (tt : Topo) (w : Writer) : Writer * option error :=
  marshal_sorted (insertionSort less_tss (map_to_list (slot_buckets tt)).*2) w.

(** ** [Topo.UnmarshalRESP] *)

(** The loop over [slotSets]: every element starts as the zero value. *)
Fixpoint unmarshal_slotSets (count : nat) : M Reader (list topoSlotSet) :=
  match count with
  | O => ret []
  | S count' =>
      λ br, match topoSlotSet_UnmarshalRESP (topoSlotSet_zero, br) with
            | ((_, br'), inl e) => (br', inl e)
            | ((tss, br'), inr _) =>
                (rest <~ unmarshal_slotSets count' ;; ret (tss :: rest)) br'
            end
  end.

(** The body of the merge loop. *)
Definition merge_node (nodeAddrM : gmap string Node) (n : Node)
  : gmap string Node :=
  match nodeAddrM !! Addr n with
  | Some existingN =>
      <[Addr n := with_Slots existingN (Slots existingN ++ Slots n)]> nodeAddrM
  | None => <[Addr n := n]> nodeAddrM
  end.

Definition merge_slotSets (slotSets : list topoSlotSet) : gmap string Node :=
  fold_left (λ m tss, fold_left merge_node (nodes tss) m) slotSets ∅.

(** What the caller observes: the value returned, or a panic. *)
Inductive outcome : Type :=
  | Returned (err : option error)
  | Panicked.

(** [Topo_UnmarshalRESP tt br tt' br' o]: called on the receiver [tt]
    and the reader [br], the method leaves the receiver as [tt'] and the
    reader as [br'], with outcome [o].  A negative array length makes
    [make] panic. *)
Inductive Topo_UnmarshalRESP (tt : Topo) (br : Reader)
  : Topo → Reader → outcome → Prop :=
  | Unmarshal_header_error br' e :
      ArrayHeader_UnmarshalRESP br = (br', inl e) →
      Topo_UnmarshalRESP tt br tt br' (Returned (Some e))
  | Unmarshal_make_panic br' n :
      ArrayHeader_UnmarshalRESP br = (br', inr n) →
      n < 0 →
      Topo_UnmarshalRESP tt br tt br' Panicked
  | Unmarshal_slotSet_error br1 n br' e :
      ArrayHeader_UnmarshalRESP br = (br1, inr n) →
      0 ≤ n →
      unmarshal_slotSets (Z.to_nat n) br1 = (br', inl e) →
      Topo_UnmarshalRESP tt br tt br' (Returned (Some e))
  | Unmarshal_ok br1 n br' slotSets ns tt' :
      ArrayHeader_UnmarshalRESP br = (br1, inr n) →
      0 ≤ n →
      unmarshal_slotSets (Z.to_nat n) br1 = (br', inr slotSets) →
      map_range (merge_slotSets slotSets) ns →
      Topo_sort (tt ++ ns) (Ok tt') →
      Topo_UnmarshalRESP tt br tt' br' (Returned None)
  | Unmarshal_sort_panic br1 n br' slotSets ns :
      ArrayHeader_UnmarshalRESP br = (br1, inr n) →
      0 ≤ n →
      unmarshal_slotSets (Z.to_nat n) br1 = (br', inr slotSets) →
      map_range (merge_slotSets slotSets) ns →
      Topo_sort (tt ++ ns) Panic →
      Topo_UnmarshalRESP tt br (tt ++ ns) br' Panicked.

Definition Topo_UnmarshalRESP_run (tt : Topo) (br : Reader)
  : Topo * Reader * outcome :=
  match ArrayHeader_UnmarshalRESP br with
  | (br', inl e) => (tt, br', Returned (Some e))
  | (br1, inr n) =>
      if decide (n < 0) then (tt, br1, Panicked)
      else
        match unmarshal_slotSets (Z.to_nat n) br1 with
        | (br', inl e) => (tt, br', Returned (Some e))
        | (br', inr slotSets) =>
            let ns := (map_to_list (merge_slotSets slotSets)).*2 in
            match Topo_sort_run (tt ++ ns) with
            | Ok tt' => (tt', br', Returned None)
            | Panic => (tt ++ ns, br', Panicked)
            end
        end
  end.

(** [Topo.Map] *)
Definition Topo_Map (tt : Topo) : gmap string Node :=
  fold_left (λ m t, <[Addr t := t]> m) tt ∅.

(** * Notions used in the statements *)

(** ** Items on the wire *)

(** The nodes that the loop of [topoSlotSet.UnmarshalRESP] appends for
    the node entries [entries], from iteration [i] on. *)
Fixpoint nodes_from (i : Z) (masterNode : Node) (sl : slot_range)
    (entries : list (list string)) : list Node :=
  match entries with
  | [] => []
  | e :: rest =>
      let node := node_of_strings e sl in
      if decide (i = 0) then node :: nodes_from (i + 1) node sl rest
      else with_SlaveOf node (Addr masterNode) (ID masterNode)
             :: nodes_from (i + 1) masterNode sl rest
  end.

(** The items of one [[]string], and of the node entries of a slot set. *)
Definition strings_items (ss : list string) : list item :=
  ArrayHeader (Z.of_nat (length ss)) :: (BulkString <$> ss).

Definition entries_items (entries : list (list string)) : list item :=
  concat (strings_items <$> entries).

Definition node_items (n : Node) : list item := strings_items (node_strings n).

Definition tss_items (tss : topoSlotSet) : list item :=
  ArrayHeader (2 + Z.of_nat (length (nodes tss)))
    :: Int (slots tss).1
    :: Int (wrap16 ((slots tss).2 - 1))
    :: concat (node_items <$> nodes tss).

(** One slot-set entry of the wire: the inclusive bounds and the strings
    of its node entries. *)
Abbreviation wire_slot_set := (Z * Z * list (list string))%type.

Definition slot_set_items (s : wire_slot_set) : list item :=
  ArrayHeader (2 + Z.of_nat (length s.2)) :: Int s.1.1 :: Int s.1.2
    :: entries_items s.2.

Definition wf_wire_slot_set (s : wire_slot_set) : Prop :=
  0 ≤ s.1.1 ≤ uint16_max ∧ 0 ≤ s.1.2 ≤ uint16_max ∧
  Forall (λ e, (2 ≤ length e)%nat) s.2.

Definition decoded_slot_set (s : wire_slot_set) : topoSlotSet :=
  let sl := (s.1.1, wrap16 (s.1.2 + 1)) in
  mkTSS sl (nodes_from 0 Node_zero sl s.2).

Definition slot_sets_items (sets : list wire_slot_set) : list item :=
  concat (slot_set_items <$> sets).

(** The address that the decoder builds from a node entry. *)
Definition entry_addr (e : list string) : string :=
  nth 0 e "" +:+ ":" +:+ nth 1 e "".

(** The id of a node entry: its third string, when it has one. *)
Definition entry_id (e : list string) : string :=
  if decide (2 < length e)%nat then nth 2 e "" else "".

(** The nodes [ns] are those of the node entries [entries] of a slot-set
    entry with the range [sl]: one node for each entry, in the order of
    the entries, with the address and the id of its entry and the range
    as its only range; the first is a master, and every other one has the
    address and the id of the first entry in its slave-of fields. *)
Definition entry_nodes (sl : slot_range) (entries : list (list string))
    (ns : list Node) : Prop :=
  length ns = length entries ∧
  ∀ k e, entries !! k = Some e →
    ∃ nd, ns !! k = Some nd ∧
      Addr nd = entry_addr e ∧ ID nd = entry_id e ∧ Slots nd = [sl] ∧
      match k with
      | O => SlaveOfAddr nd = "" ∧ SlaveOfID nd = ""
      | S _ => ∃ e0, entries !! 0%nat = Some e0 ∧
                     SlaveOfAddr nd = entry_addr e0 ∧
                     SlaveOfID nd = entry_id e0
      end.

(** The slot-set entry of the wire that the encoder writes for a
    bucket. *)
Definition wire_of_tss (tss : topoSlotSet) : wire_slot_set :=
  ((slots tss).1, wrap16 ((slots tss).2 - 1), node_strings <$> nodes tss).

(** ** The merge pass *)

(** All provisional nodes, in the order in which the merge loop visits
    them. *)
Definition all_nodes (slotSets : list topoSlotSet) : list Node :=
  concat (nodes <$> slotSets).

Definition with_addr (a : string) (ns : list Node) : list Node :=
  filter (λ n, Addr n = a) ns.

(** The node that the merge pass builds for an address: the first
    provisional node of that address, with the slots of all of them. *)
Definition merged (a : string) (ns : list Node) : option Node :=
  (λ n, with_Slots n (concat (Slots <$> with_addr a ns))) <$> head (with_addr a ns).

(** ** Topologies up to order *)

(** Two nodes that differ in the order of their slots only. *)
Definition node_equiv (n n' : Node) : Prop :=
  Addr n = Addr n' ∧ ID n = ID n' ∧
  SlaveOfAddr n = SlaveOfAddr n' ∧ SlaveOfID n = SlaveOfID n' ∧
  Slots n ≡ₚ Slots n'.

(** The topology modulo the order of the nodes and of their slots. *)
Definition topo_equiv (l l' : Topo) : Prop :=
  ∃ l1, Forall2 node_equiv l l1 ∧ l1 ≡ₚ l'.

(** ** The buckets of the encoder *)

(** The pairs of a node and one of its ranges, in the order of the two
    nested loops of [Topo.MarshalRESP]. *)
Definition slot_pairs (tt : Topo) : list (Node * slot_range) :=
  t ← tt; (λ sl, (t, sl)) <$> Slots t.

(** The nodes that own the range [r], one occurrence for each time the
    range is listed, in the order of the topology. *)
Definition owners (r : slot_range) (tt : Topo) : list Node :=
  (filter (λ p, p.2 = r) (slot_pairs tt)).*1.

Definition bucket_after (cur : option topoSlotSet) (r : slot_range)
    (o : list Node) : option topoSlotSet :=
  match o with
  | [] => cur
  | _ => Some (mkTSS r (nodes (default topoSlotSet_zero cur) ++ o))
  end.

(** The provisional nodes that the decoder makes of the bucket of [r]. *)
Definition provisional (tt : Topo) (r : slot_range) : list Node :=
  (λ t, with_Slots t [r]) <$> owners r tt.

(** ** When the comparison of nodes is a transitive ordering *)

(** The condition under which the comparison of [Topo.sort] is a
    transitive ordering: first ranges that start at the same slot are the
    same range, and no two nodes with the same first range are both
    masters. *)
Definition one_master_per_start (tt : Topo) : Prop :=
  ForallOrdPairs
    (λ a b, ∀ sa sb,
       head (Slots a) = Some sa → head (Slots b) = Some sb →
       (sa.1 = sb.1 → sa = sb) ∧
       (sa = sb → ¬ (SlaveOfAddr a = "" ∧ SlaveOfAddr b = "")))
    tt.

Definition node_rank (n : Node) : Z :=
  match head (Slots n) with
  | Some s => 2 * s.1 + (if decide (SlaveOfAddr n = "") then 0 else 1)
  | None => 0
  end.

(** ** Conditions for the round trip *)

(** The address is of a form that [net.SplitHostPort] splits into the
    host and the port it is joined from. *)
Definition addr_splits (a : string) : Prop :=
  (SplitHostPort a).1.1 +:+ ":" +:+ (SplitHostPort a).1.2 = a.

(** In every bucket the first node is a master and the others are its
    replicas. *)
Definition master_first (tt : Topo) : Prop :=
  Forall (λ r, match owners r tt with
               | [] => True
               | m :: reps =>
                   SlaveOfAddr m = "" ∧ SlaveOfID m = "" ∧
                   Forall (λ x, SlaveOfAddr x = Addr m ∧ SlaveOfID x = ID m) reps
               end)
         (tt ≫= Slots).

Definition well_formed_node (t : Node) : Prop :=
  Slots t ≠ [] ∧ NoDup (Slots t) ∧
  Forall (λ r, is_uint16 r.1 ∧ is_uint16 r.2) (Slots t) ∧
  addr_splits (Addr t).

(** Half-open ranges that do not overlap each other. *)
Definition ranges_disjoint (sl : list slot_range) : Prop :=
  ForallOrdPairs (λ r1 r2, r1.2 ≤ r2.1 ∨ r2.2 ≤ r1.1) sl.

(** A topology with unique addresses and non-overlapping ranges in every
    node that a round trip does not give back. *)
Definition round_trip_broken (tt : Topo) : Prop :=
  NoDup (Addr <$> tt) ∧
  Forall (λ t, ranges_disjoint (Slots t)) tt ∧
  ∃ out tt',
    Topo_MarshalRESP tt [] out ∧
    Topo_UnmarshalRESP [] out.1 tt' [] (Returned None) ∧
    ¬ Topo_sort tt (Ok tt').

(** * Example inputs *)

Definition three_node_entry : Reader :=
  [ArrayHeader 5; Int 0; Int 5460;
   ArrayHeader 3; BulkString "127.0.0.1"; BulkString "7000"; BulkString "id-a";
   ArrayHeader 3; BulkString "127.0.0.1"; BulkString "7001"; BulkString "id-b";
   ArrayHeader 2; BulkString "127.0.0.1"; BulkString "7002"].

Definition two_slot_sets_wire : Reader :=
  [ArrayHeader 2;
   ArrayHeader 4; Int 0; Int 5460;
     ArrayHeader 3; BulkString "127.0.0.1"; BulkString "7000"; BulkString "id-a";
     ArrayHeader 3; BulkString "127.0.0.1"; BulkString "7001"; BulkString "id-b";
   ArrayHeader 3; Int 5461; Int 10922;
     ArrayHeader 3; BulkString "127.0.0.1"; BulkString "7002"; BulkString "id-c"].

Definition two_slot_sets_topo : Topo :=
  [mkNode "127.0.0.1:7000" "id-a" [(0, 5461)] "" "";
   mkNode "127.0.0.1:7001" "id-b" [(0, 5461)] "127.0.0.1:7000" "id-a";
   mkNode "127.0.0.1:7002" "id-c" [(5461, 10923)] "" ""].


Definition prior_topo : Topo :=
  [mkNode "10.0.0.9:7000" "id-z" [(300, 400)] "" ""].

Definition prior_and_two_slot_sets : Topo :=
  [mkNode "127.0.0.1:7000" "id-a" [(0, 5461)] "" "";
   mkNode "127.0.0.1:7001" "id-b" [(0, 5461)] "127.0.0.1:7000" "id-a";
   mkNode "10.0.0.9:7000" "id-z" [(300, 400)] "" "";
   mkNode "127.0.0.1:7002" "id-c" [(5461, 10923)] "" ""].

Definition merge_wire_sets : list wire_slot_set :=
  [(0, 99, [["10.0.0.1"; "7000"; "id-a"]; ["10.0.0.2"; "7000"; "id-b"]]);
   (200, 299, [["10.0.0.1"; "7000"; "id-a"]])].

Definition merge_topo : Topo :=
  [mkNode "10.0.0.1:7000" "id-a" [(0, 100); (200, 300)] "" "";
   mkNode "10.0.0.2:7000" "id-b" [(0, 100)] "10.0.0.1:7000" "id-a"].

Definition three_range_topo : Topo :=
  [mkNode "127.0.0.1:7002" "id-c" [(5461, 10923)] "" "";
   mkNode "127.0.0.1:7000" "id-a" [(0, 5461); (10923, 16384)] "" "";
   mkNode "127.0.0.1:7001" "" [(0, 5461)] "127.0.0.1:7000" "id-a"].


(** Two slot-set entries that start at the same slot: the first lists a
    master alone, the second the same master and a replica. *)
Definition same_start_wire : Reader :=
  [ArrayHeader 2;
   ArrayHeader 3; Int 0; Int 4;
     ArrayHeader 2; BulkString "10.0.0.1"; BulkString "7000";
   ArrayHeader 4; Int 0; Int 9;
     ArrayHeader 2; BulkString "10.0.0.1"; BulkString "7000";
     ArrayHeader 2; BulkString "10.0.0.2"; BulkString "7000"].

Definition same_start_master : Node :=
  mkNode "10.0.0.1:7000" "" [(0, 5); (0, 10)] "" "".
Definition same_start_replica : Node :=
  mkNode "10.0.0.2:7000" "" [(0, 10)] "10.0.0.1:7000" "".

(** A replica listed before its master. *)
Definition replica_first_topo : Topo :=
  [mkNode "10.0.0.2:7000" "id-r" [(0, 100)] "10.0.0.1:7000" "id-m";
   mkNode "10.0.0.1:7000" "id-m" [(0, 100)] "" ""].

(** A node without slots. *)
Definition no_slots_topo : Topo := [mkNode "10.0.0.1:7000" "id-m" [] "" ""].

(** An IPv6 address in brackets. *)
Definition bracket_addr_topo : Topo := [mkNode "[::1]:7000" "" [(0, 100)] "" ""].

(** * Notions used in the further properties *)

(** The pairs of an address and a range that a topology holds: who owns
    what. *)
Definition addr_ranges (l : list Node) : list (string * slot_range) :=
  t ← l; (λ sl, (Addr t, sl)) <$> Slots t.

(** The same pairs as the wire lists them: one for every node entry of
    every slot-set entry, with the range in its half-open form. *)
Definition wire_addr_ranges (sets : list wire_slot_set)
  : list (string * slot_range) :=
  s ← sets; (λ e, (entry_addr e, (s.1.1, wrap16 (s.1.2 + 1)))) <$> s.2.

(** Strings without colon and brackets, as the host and the port of a
    node entry usually are. *)
Definition plain (s : string) : Prop :=
  index_byte ":" s = None ∧ index_byte "[" s = None ∧ index_byte "]" s = None.

(** A node entry that the encoder can write again: host and port, and
    possibly a non-empty id. *)
Definition canonical_entry (e : list string) : Prop :=
  plain (nth 0 e "") ∧ plain (nth 1 e "") ∧
  (length e = 2%nat ∨ (length e = 3%nat ∧ nth 2 e "" ≠ "")).

(** The nodes that come back from the slot-set entry written for a
    bucket: the first as a master, the others as its replicas. *)
Definition rederived (tss : topoSlotSet) : list Node :=
  match nodes tss with
  | [] => []
  | m :: reps =>
      mkNode (Addr m) (ID m) [slots tss] "" ""
        :: ((λ t, mkNode (Addr t) (ID t) [slots tss] (Addr m) (ID m)) <$> reps)
  end.

(** The address joined from what [net.SplitHostPort] returns. *)
Definition rejoined (a : string) : string :=
  (SplitHostPort a).1.1 +:+ ":" +:+ (SplitHostPort a).1.2.

(** * Properties *)

Ltac run_monad :=
  unfold bind, ret, fail, get, modify, on_reader, on_receiver, receiver in *;
  simpl in *.

(** ** Ordered pairs of a list *)

Section ordered_pairs.
Context {A : Type} (R : A → A → Prop).

Lemma FOP_cons_inv x l :
  ForallOrdPairs R (x :: l) → Forall (R x) l ∧ ForallOrdPairs R l.
Proof. inversion 1; auto. Qed.

Lemma FOP_app l1 l2 :
  ForallOrdPairs R (l1 ++ l2) ↔
  ForallOrdPairs R l1 ∧ ForallOrdPairs R l2 ∧
  Forall (λ x, Forall (R x) l2) l1.
Proof.
  induction l1 as [|a l1 IH]; simpl.
  - split; [intros H; repeat split; auto; constructor | tauto].
  - split.
    + intros [Ha Hl]%FOP_cons_inv. apply IH in Hl as (H1 & H2 & H3).
      apply Forall_app in Ha as [Ha1 Ha2].
      repeat split; auto; constructor; auto.
    + intros (H1 & H2 & H3). apply FOP_cons_inv in H1 as [Ha H1].
      apply Forall_cons in H3 as [Ha2 H3].
      constructor; [apply Forall_app; auto | apply IH; auto].
Qed.

Lemma FOP_perm l l' :
  (∀ x y, R x y → R y x) →
  l ≡ₚ l' → ForallOrdPairs R l → ForallOrdPairs R l'.
Proof.
  intros Hsym Hp. induction Hp as [|x l l' Hp IH|x y l|l l' l'' _ IH1 _ IH2];
    intros H; auto.
  - apply FOP_cons_inv in H as [Hx H].
    constructor; [by rewrite <- Hp | auto].
  - apply FOP_cons_inv in H as [Hy H].
    apply FOP_cons_inv in H as [Hx H].
    apply Forall_cons in Hy as [Hyx Hy].
    repeat constructor; auto.
Qed.

Lemma FOP_reverse l :
  ForallOrdPairs R (reverse l) ↔ ForallOrdPairs (flip R) l.
Proof.
  induction l as [|a l IH].
  - split; constructor.
  - rewrite reverse_cons, FOP_app, IH. split.
    + intros (H1 & _ & H3). constructor; [|done].
      rewrite Forall_forall in H3 |- *. intros x Hx.
      assert (Hx' : x ∈ reverse l) by (by apply elem_of_reverse).
      specialize (H3 x Hx'). by apply Forall_inv in H3.
    + intros H. inversion H as [|? ? Ha H']; subst.
      repeat split; [done | repeat constructor |].
      rewrite Forall_forall in Ha |- *. intros x Hx.
      rewrite elem_of_reverse in Hx.
      constructor; [exact (Ha x Hx) | constructor].
Qed.

Lemma FOP_lookup l i j x y :
  ForallOrdPairs R l → (i < j)%nat →
  l !! i = Some x → l !! j = Some y → R x y.
Proof.
  intros H. revert i j. induction H as [|a l Ha H IH]; intros i j Hij Hi Hj.
  - by rewrite lookup_nil in Hi.
  - destruct j as [|j]; [lia|]. destruct i as [|i]; simpl in *.
    + injection Hi as ->. rewrite Forall_forall in Ha. apply Ha.
      by eapply list_elem_of_lookup_2.
    + apply (IH i j); auto; lia.
Qed.
End ordered_pairs.

(** ** The contract of [sort.Slice] and its instance *)

Section sort_Slice_facts.
Context {A : Type} (less : A → A → bool).

Lemma ranked_by_sym rank x y :
  ranked_by less rank x y → ranked_by less rank y x.
Proof. intros [? ?]; split; auto. Qed.

Lemma transitive_ordering_perm l l' :
  l ≡ₚ l' → transitive_ordering less l → transitive_ordering less l'.
Proof.
  intros Hp [rank H]. exists rank.
  eapply FOP_perm; eauto using ranked_by_sym.
Qed.

(** The outcome depends on the elements of the slice only. *)
Lemma sort_Slice_perm l1 l2 l' :
  l1 ≡ₚ l2 → sort_Slice less l1 l' → sort_Slice less l2 l'.
Proof.
  intros Hp [H1 H2]. split.
  - by rewrite <- Hp.
  - intros Ht. apply H2.
    apply (transitive_ordering_perm l2 l1); [by symmetry | done].
Qed.

Lemma sort_Slice_length l l' : sort_Slice less l l' → length l' = length l.
Proof. intros [Hp _]. by rewrite Hp. Qed.


(** A slice that is already sorted may be returned as it is. *)
Lemma sort_Slice_sorted l : sorted_by less l → sort_Slice less l l.
Proof. intros H. split; auto. Qed.

Lemma insert_back_perm x acc : insert_back less x acc ≡ₚ x :: acc.
Proof.
  induction acc as [|y r IH]; simpl; [done|].
  destruct (less x y); [|done].
  rewrite IH. apply perm_swap.
Qed.

Lemma fold_insert_back_perm l acc :
  fold_left (λ acc x, insert_back less x acc) l acc ≡ₚ acc ++ l.
Proof.
  revert acc. induction l as [|x l IH]; intros acc; simpl.
  - by rewrite app_nil_r.
  - rewrite IH, insert_back_perm. by rewrite <- Permutation_middle.
Qed.

Lemma insertionSort_perm l : l ≡ₚ insertionSort less l.
Proof.
  unfold insertionSort. rewrite reverse_Permutation.
  by rewrite fold_insert_back_perm.
Qed.

Lemma insert_back_sorted rank x acc :
  ForallOrdPairs (ranked_by less rank) (x :: acc) →
  ForallOrdPairs (flip (λ a b, less b a = false)) acc →
  ForallOrdPairs (flip (λ a b, less b a = false)) (insert_back less x acc).
Proof.
  induction acc as [|y r IH]; simpl; intros Hr Hs.
  - repeat constructor.
  - apply FOP_cons_inv in Hr as [Hx Hr].
    apply FOP_cons_inv in Hs as [Hy Hs].
    apply Forall_cons in Hx as [[Hxy Hyx] Hx].
    pose proof Hr as [Hyr Hrr]%FOP_cons_inv.
    destruct (less x y) eqn:E.
    + constructor.
      * rewrite insert_back_perm. constructor; [|done].
        unfold flip. rewrite Hyx. symmetry in Hxy.
        apply bool_decide_eq_true in Hxy.
        apply bool_decide_eq_false. lia.
      * apply IH; [by constructor | done].
    + constructor; [|by constructor].
      constructor; [done|].
      rewrite Forall_forall in Hx, Hy, Hyr |- *. intros a Ha.
      destruct (Hx a Ha) as [Hxa _]. destruct (Hyr a Ha) as [Hya _].
      specialize (Hy a Ha). unfold flip in *.
      rewrite Hya in Hy. apply bool_decide_eq_false in Hy.
      symmetry in Hxy. apply bool_decide_eq_false in Hxy.
      rewrite Hxa. apply bool_decide_eq_false. lia.
Qed.

Lemma fold_insert_back_sorted rank l acc :
  ForallOrdPairs (ranked_by less rank) (acc ++ l) →
  ForallOrdPairs (flip (λ a b, less b a = false)) acc →
  ForallOrdPairs (flip (λ a b, less b a = false))
    (fold_left (λ acc x, insert_back less x acc) l acc).
Proof.
  revert acc. induction l as [|x l IH]; intros acc Hr Hs; simpl; [done|].
  apply IH.
  - eapply FOP_perm; [apply ranked_by_sym| |exact Hr].
    rewrite insert_back_perm. by rewrite <- Permutation_middle.
  - eapply insert_back_sorted; [|done].
    assert (Hr' : ForallOrdPairs (ranked_by less rank) ((x :: acc) ++ l)).
    { eapply FOP_perm; [apply ranked_by_sym| |exact Hr].
      simpl. by rewrite <- Permutation_middle. }
    by apply FOP_app in Hr' as [? _].
Qed.

Lemma insertionSort_sorted l :
  transitive_ordering less l → sorted_by less (insertionSort less l).
Proof.
  intros [rank Hr]. unfold sorted_by, insertionSort. apply FOP_reverse.
  apply (fold_insert_back_sorted rank); [done | constructor].
Qed.

(** The insertion sort is one of the outcomes that the contract allows:
    [sort.Slice] always has a result. *)
Lemma insertionSort_admissible l : sort_Slice less l (insertionSort less l).
Proof. split; [apply insertionSort_perm | apply insertionSort_sorted]. Qed.
End sort_Slice_facts.

(** ** The executable instances are admissible *)

Lemma sort_node_slots_run_admissible n :
  sort_node_slots n (sort_node_slots_run n).
Proof. eexists; split; [apply insertionSort_admissible | done]. Qed.

Lemma Topo_sort_run_admissible tt : Topo_sort tt (Topo_sort_run tt).
Proof.
  unfold Topo_sort_run. case_decide as Hd.
  - destruct Hd. by constructor.
  - eapply Topo_sort_ok with (tt1 := sort_node_slots_run <$> tt).
    + induction tt; constructor; auto using sort_node_slots_run_admissible.
      apply IHtt. intros [Hl He]. apply Hd. split; [simpl; lia | by right].
    + intros Hlen. apply Forall_Exists_neg. intros He. apply Hd. auto.
    + apply insertionSort_admissible.
Qed.

Lemma Topo_MarshalRESP_run_admissible tt w :
  Topo_MarshalRESP tt w (Topo_MarshalRESP_run tt w).
Proof.
  eexists _, _. split; [unfold map_range; reflexivity|].
  split; [apply insertionSort_admissible | done].
Qed.

Lemma Topo_UnmarshalRESP_run_admissible tt br tt' br' o :
  Topo_UnmarshalRESP_run tt br = (tt', br', o) →
  Topo_UnmarshalRESP tt br tt' br' o.
Proof.
  unfold Topo_UnmarshalRESP_run.
  destruct (ArrayHeader_UnmarshalRESP br) as [br1 [e|n]] eqn:Eh.
  - intros [= <- <- <-]. by econstructor.
  - case_decide as Hn.
    + intros [= <- <- <-]. by eapply Unmarshal_make_panic.
    + destruct (unmarshal_slotSets (Z.to_nat n) br1) as [br2 [e|slotSets]] eqn:Es.
      * intros [= <- <- <-]. eapply Unmarshal_slotSet_error; eauto; lia.
      * pose proof (Topo_sort_run_admissible
                      (tt ++ (map_to_list (merge_slotSets slotSets)).*2)) as Hs.
        destruct (Topo_sort_run _) as [tt2|]; intros [= <- <- <-].
        -- eapply Unmarshal_ok; eauto; [lia | unfold map_range; reflexivity].
        -- eapply Unmarshal_sort_panic; eauto; [lia | unfold map_range; reflexivity].
Qed.

(** [Topo.UnmarshalRESP] always has an outcome. *)
Lemma Topo_UnmarshalRESP_total tt br :
  ∃ tt' br' o, Topo_UnmarshalRESP tt br tt' br' o.
Proof.
  destruct (Topo_UnmarshalRESP_run tt br) as [[tt' br'] o] eqn:E.
  eauto using Topo_UnmarshalRESP_run_admissible.
Qed.

(** ** Decoding one slot-set entry *)

Lemma nodes_from_replicas i masterNode sl entries :
  0 < i →
  nodes_from i masterNode sl entries =
  (λ e, with_SlaveOf (node_of_strings e sl) (Addr masterNode) (ID masterNode))
    <$> entries.
Proof.
  revert i. induction entries as [|e rest IH]; intros i Hi; simpl; [done|].
  case_decide; [lia|]. f_equal. apply IH. lia.
Qed.

Lemma nodes_from_master masterNode sl e rest :
  nodes_from 0 masterNode sl (e :: rest) =
  node_of_strings e sl
    :: ((λ e', with_SlaveOf (node_of_strings e' sl)
                  (Addr (node_of_strings e sl)) (ID (node_of_strings e sl)))
          <$> rest).
Proof. simpl. f_equal. by apply nodes_from_replicas. Qed.

Lemma nodes_from_length i masterNode sl entries :
  length (nodes_from i masterNode sl entries) = length entries.
Proof.
  revert i masterNode. induction entries; intros; simpl; [done|].
  case_decide; simpl; by rewrite IHentries.
Qed.

Lemma nodes_from_Slots i masterNode sl entries :
  Forall (λ n, Slots n = [sl]) (nodes_from i masterNode sl entries).
Proof.
  revert i masterNode. induction entries; intros; simpl; [constructor|].
  case_decide; constructor; auto.
Qed.

Lemma unmarshal_nodes_inv count :
  ∀ i masterNode tss br tss' br',
    unmarshal_nodes count i masterNode (tss, br) = ((tss', br'), inr ()) →
    ∃ entries,
      length entries = count ∧
      Forall (λ e, (2 ≤ length e)%nat) entries ∧
      tss' = mkTSS (slots tss)
                   (nodes tss ++ nodes_from i masterNode (slots tss) entries).
Proof.
  induction count as [|count IH]; intros i masterNode tss br tss' br' H.
  - run_monad. injection H as <- <-. exists []. destruct tss; simpl.
    by rewrite app_nil_r.
  - simpl in H. unfold bind at 1 in H.
    destruct (on_reader Any_UnmarshalRESP_strings (tss, br))
      as [[tss1 br1] [e|nodeStrs]] eqn:E; [done|].
    assert (tss1 = tss) as ->.
    { unfold on_reader in E. simpl in E.
      destruct (Any_UnmarshalRESP_strings br). by injection E. }
    case_decide as Hlen; [done|].
    unfold bind at 1 in H. unfold receiver in H. simpl in H.
    unfold bind at 1 in H. unfold on_receiver, modify in H. simpl in H.
    apply IH in H as (entries & Hl & Hf & ->).
    exists (nodeStrs :: entries). simpl. split; [lia|].
    split; [constructor; [lia | done]|].
    f_equal. rewrite <- app_assoc. simpl. do 2 f_equal.
    case_decide; done.
Qed.

(** A successful [topoSlotSet.UnmarshalRESP] on the zero value: the
    ranges read, and the nodes made from the node entries. *)
Lemma topoSlotSet_UnmarshalRESP_inv br tss br' :
  topoSlotSet_UnmarshalRESP (topoSlotSet_zero, br) = ((tss, br'), inr ()) →
  ∃ n s0 s1 entries,
    0 ≤ s0 ≤ uint16_max ∧ 0 ≤ s1 ≤ uint16_max ∧
    length entries = Z.to_nat (n - 2) ∧
    Forall (λ e, (2 ≤ length e)%nat) entries ∧
    tss = mkTSS (s0, wrap16 (s1 + 1))
                (nodes_from 0 Node_zero (s0, wrap16 (s1 + 1)) entries).
Proof.
  unfold topoSlotSet_UnmarshalRESP. intros H.
  unfold bind at 1 in H.
  destruct (on_reader ArrayHeader_UnmarshalRESP (topoSlotSet_zero, br))
    as [[t1 br1] [e|n]] eqn:E1; [done|].
  assert (t1 = topoSlotSet_zero) as ->.
  { unfold on_reader in E1. simpl in E1.
    destruct (ArrayHeader_UnmarshalRESP br). by injection E1. }
  unfold bind at 1 in H.
  destruct (on_reader Any_UnmarshalRESP_uint16 (topoSlotSet_zero, br1))
    as [[t2 br2] [e|s0]] eqn:E2; [done|].
  assert (t2 = topoSlotSet_zero ∧ 0 ≤ s0 ≤ uint16_max) as [-> Hs0].
  { unfold on_reader, Any_UnmarshalRESP_uint16 in E2. simpl in E2.
    destruct br1 as [|[]]; try done. case_bool_decide; [|done].
    by injection E2 as <- <- <-. }
  unfold bind at 1 in H. unfold on_receiver at 1, modify in H. simpl in H.
  unfold bind at 1 in H.
  match type of H with context [on_reader Any_UnmarshalRESP_uint16 ?s] =>
    destruct (on_reader Any_UnmarshalRESP_uint16 s)
      as [[t3 br3] [e|s1]] eqn:E3; [done|] end.
  assert (t3 = mkTSS (s0, 0) [] ∧ 0 ≤ s1 ≤ uint16_max) as [-> Hs1].
  { unfold on_reader, Any_UnmarshalRESP_uint16 in E3. simpl in E3.
    destruct br2 as [|[]]; try done. case_bool_decide; [|done].
    by injection E3 as <- <- <-. }
  unfold bind at 1 in H. unfold on_receiver at 1, modify in H. simpl in H.
  unfold bind at 1 in H. unfold on_receiver at 1, modify in H. simpl in H.
  apply unmarshal_nodes_inv in H as (entries & Hl & Hf & ->).
  exists n, s0, s1, entries. simpl. done.
Qed.

(** ** Decoding the items of given node entries *)

Lemma read_strings_items ss br :
  read_strings (length ss) ((BulkString <$> ss) ++ br) = (br, inr ss).
Proof.
  induction ss as [|s ss IH]; csimpl; [done|].
  unfold bind. by rewrite IH.
Qed.

Lemma Any_UnmarshalRESP_strings_items ss br :
  Any_UnmarshalRESP_strings (strings_items ss ++ br) = (br, inr ss).
Proof.
  unfold Any_UnmarshalRESP_strings, strings_items, bind. simpl.
  rewrite Nat2Z.id. apply read_strings_items.
Qed.

Lemma unmarshal_nodes_items entries :
  ∀ i masterNode tss br,
    Forall (λ e, (2 ≤ length e)%nat) entries →
    unmarshal_nodes (length entries) i masterNode
      (tss, entries_items entries ++ br)
    = ((mkTSS (slots tss)
              (nodes tss ++ nodes_from i masterNode (slots tss) entries), br),
       inr ()).
Proof.
  induction entries as [|e rest IH]; intros i masterNode tss br Hf.
  - simpl. unfold ret. destruct tss; simpl. by rewrite app_nil_r.
  - apply Forall_cons in Hf as [He Hf].
    unfold entries_items. simpl. rewrite <- app_assoc.
    unfold bind at 1. unfold on_reader at 1. simpl snd.
    rewrite app_comm_cons.
    change (ArrayHeader (Z.of_nat (length e)) :: (BulkString <$> e))
      with (strings_items e).
    rewrite Any_UnmarshalRESP_strings_items. simpl fst.
    case_decide; [lia|].
    unfold bind at 1. unfold receiver. simpl.
    unfold bind at 1. unfold on_receiver, modify. simpl.
    fold (entries_items rest). rewrite IH by done. simpl.
    rewrite <- app_assoc. simpl. do 3 f_equal.
    case_decide; done.
Qed.


Lemma unmarshal_nodes_slots count :
  ∀ i masterNode tss br,
    slots (unmarshal_nodes count i masterNode (tss, br)).1.1 = slots tss.
Proof.
  induction count as [|count IH]; intros i masterNode tss br; [done|].
  simpl. unfold bind at 1. unfold on_reader at 1. simpl snd.
  destruct (Any_UnmarshalRESP_strings br) as [br1 [e|nodeStrs]]; [done|].
  simpl fst. case_decide; [done|].
  unfold bind at 1. unfold receiver. simpl.
  unfold bind at 1. unfold on_receiver, modify. simpl.
  by rewrite IH.
Qed.

(** What [topoSlotSet.UnmarshalRESP] does once the header and the two
    bounds have been read. *)
Lemma topoSlotSet_UnmarshalRESP_bounds tss n s0 s1 br :
  0 ≤ s0 ≤ uint16_max → 0 ≤ s1 ≤ uint16_max →
  topoSlotSet_UnmarshalRESP (tss, ArrayHeader n :: Int s0 :: Int s1 :: br)
  = unmarshal_nodes (Z.to_nat (n - 2)) 0 Node_zero
      (mkTSS (s0, wrap16 (s1 + 1)) (nodes tss), br).
Proof.
  intros H0 H1. unfold topoSlotSet_UnmarshalRESP.
  unfold bind at 1. unfold on_reader at 1. simpl.
  unfold bind at 1. unfold on_reader at 1. simpl.
  rewrite bool_decide_eq_true_2 by done.
  unfold bind at 1. unfold on_receiver at 1, modify. simpl.
  unfold bind at 1. unfold on_reader at 1. simpl.
  rewrite bool_decide_eq_true_2 by done.
  unfold bind at 1. unfold on_receiver at 1, modify. simpl.
  unfold bind at 1. unfold on_receiver at 1, modify. simpl.
  done.
Qed.

(** ** Encoding one slot-set entry *)

Lemma marshal_nodes_items ns w :
  fold_left (λ st n, marshal (Any_MarshalRESP_strings (node_strings n)) st)
            ns (w, None)
  = (w ++ concat (node_items <$> ns), None).
Proof.
  revert w. induction ns as [|n ns IH]; intros w; simpl.
  - by rewrite app_nil_r.
  - unfold marshal at 2. simpl. unfold Any_MarshalRESP_strings.
    rewrite IH. by rewrite <- app_assoc.
Qed.

Lemma topoSlotSet_MarshalRESP_items tss w :
  topoSlotSet_MarshalRESP tss w = (w ++ tss_items tss, None).
Proof.
  unfold topoSlotSet_MarshalRESP. cbv zeta.
  match goal with |- fold_left _ _ ?st = _ =>
    replace st with
      (w ++ [ArrayHeader (2 + Z.of_nat (length (nodes tss)));
             Int (slots tss).1; Int (wrap16 ((slots tss).2 - 1))],
       @None error)
      by (unfold marshal, ArrayHeader_MarshalRESP, Any_MarshalRESP_uint16;
          simpl; by rewrite <- !app_assoc)
  end.
  rewrite marshal_nodes_items. unfold tss_items.
  by rewrite <- !app_assoc.
Qed.

Lemma marshal_slotSets_items allTSS w :
  marshal_slotSets allTSS w = (w ++ concat (tss_items <$> allTSS), None).
Proof.
  revert w. induction allTSS as [|tss rest IH]; intros w; simpl.
  - by rewrite app_nil_r.
  - rewrite topoSlotSet_MarshalRESP_items, IH. by rewrite <- app_assoc.
Qed.

Lemma marshal_sorted_items allTSS w :
  marshal_sorted allTSS w
  = (w ++ ArrayHeader (Z.of_nat (length allTSS)) :: concat (tss_items <$> allTSS),
     None).
Proof.
  unfold marshal_sorted, ArrayHeader_MarshalRESP.
  rewrite marshal_slotSets_items. by rewrite <- app_assoc.
Qed.

(** ** Master and replicas of a slot-set entry *)

(** The reader of a successful decode holds what was read. *)

Lemma read_strings_inv k :
  ∀ br br' ss,
    read_strings k br = (br', inr ss) →
    br = (BulkString <$> ss) ++ br' ∧ length ss = k.
Proof.
  induction k as [|k IH]; intros br br' ss H.
  - injection H as <- <-. done.
  - simpl in H. destruct br as [|[] br0]; try done.
    unfold bind in H.
    destruct (read_strings k br0) as [br1 [e|ss']] eqn:E; [done|].
    injection H as <- <-. apply IH in E as [-> <-]. done.
Qed.

Lemma Any_UnmarshalRESP_strings_inv br br' ss :
  Any_UnmarshalRESP_strings br = (br', inr ss) →
  (2 ≤ length ss)%nat →
  br = strings_items ss ++ br'.
Proof.
  unfold Any_UnmarshalRESP_strings, bind, ArrayHeader_UnmarshalRESP.
  destruct br as [|[n| |] br0]; try done.
  intros [-> Hl]%read_strings_inv Hlen.
  unfold strings_items. simpl. do 2 f_equal. lia.
Qed.

Lemma unmarshal_nodes_reader count :
  ∀ i masterNode tss br tss' br',
    unmarshal_nodes count i masterNode (tss, br) = ((tss', br'), inr ()) →
    ∃ entries,
      length entries = count ∧
      Forall (λ e, (2 ≤ length e)%nat) entries ∧
      br = entries_items entries ++ br'.
Proof.
  induction count as [|count IH]; intros i masterNode tss br tss' br' H.
  - injection H as <- <-. by exists [].
  - simpl in H. unfold bind at 1 in H.
    destruct (on_reader Any_UnmarshalRESP_strings (tss, br))
      as [[tss1 br1] [e|nodeStrs]] eqn:E; [done|].
    case_decide as Hlen; [done|].
    assert (Hbr : br = strings_items nodeStrs ++ br1).
    { unfold on_reader in E. simpl in E.
      destruct (Any_UnmarshalRESP_strings br) as [br2 r] eqn:E'.
      injection E as <- <- ->.
      apply Any_UnmarshalRESP_strings_inv in E'; [done | lia]. }
    unfold bind at 1 in H. unfold receiver in H. simpl in H.
    unfold bind at 1 in H. unfold on_receiver, modify in H. simpl in H.
    apply IH in H as (entries & Hl & Hf & ->).
    exists (nodeStrs :: entries). simpl. split; [lia|].
    split; [constructor; [lia | done]|].
    rewrite Hbr. unfold entries_items. simpl. by rewrite <- app_assoc.
Qed.

Lemma topoSlotSet_UnmarshalRESP_reader tss0 br tss br' :
  topoSlotSet_UnmarshalRESP (tss0, br) = ((tss, br'), inr ()) →
  ∃ n a b rest,
    br = ArrayHeader n :: Int a :: Int b :: rest ∧
    0 ≤ a ≤ uint16_max ∧ 0 ≤ b ≤ uint16_max.
Proof.
  intros H. destruct br as [|[n| |] [|[|a|] [|[|b|] rest]]];
    try (unfold topoSlotSet_UnmarshalRESP in H; run_monad;
         repeat case_bool_decide; done).
  unfold topoSlotSet_UnmarshalRESP in H.
  unfold bind at 1 in H. unfold on_reader at 1 in H. simpl in H.
  unfold bind at 1 in H. unfold on_reader at 1 in H. simpl in H.
  case_bool_decide as Ha; [|done].
  unfold bind at 1 in H. unfold on_receiver at 1, modify in H. simpl in H.
  unfold bind at 1 in H. unfold on_reader at 1 in H. simpl in H.
  case_bool_decide as Hb; [|done].
  by exists n, a, b, rest.
Qed.

Lemma nodes_from_entries sl entries :
  entry_nodes sl entries (nodes_from 0 Node_zero sl entries).
Proof.
  split; [apply nodes_from_length|].
  intros k e Hk. destruct entries as [|e0 rest]; [done|].
  rewrite nodes_from_master. destruct k as [|k]; simpl in *.
  - injection Hk as ->. eexists. split; [done|]. done.
  - eexists. rewrite list_lookup_fmap, Hk. split; [done|].
    repeat split; try done. by exists e0.
Qed.

Lemma entry_nodes_unique sl entries ns ns' :
  entry_nodes sl entries ns → entry_nodes sl entries ns' → ns = ns'.
Proof.
  intros [Hl H] [Hl' H']. apply list_eq. intros k.
  destruct (entries !! k) as [e|] eqn:E.
  - destruct (H k e E) as (nd & -> & Ha & Hi & Hs & Hm).
    destruct (H' k e E) as (nd' & -> & Ha' & Hi' & Hs' & Hm').
    f_equal. destruct nd, nd'. simpl in *. subst.
    destruct k.
    + destruct Hm as [-> ->], Hm' as [-> ->]. done.
    + destruct Hm as (e0 & E0 & -> & ->), Hm' as (e0' & E0' & -> & ->).
      rewrite E0 in E0'. by injection E0' as ->.
  - apply lookup_ge_None in E.
    rewrite !(proj2 (lookup_ge_None _ _)); [done|lia..].
Qed.

(** C3. Decoding a slot-set entry succeeds exactly on a header, two
    bounds that fit 16 bits and as many node entries of two strings or
    more as the header declares beyond the bounds, and it turns the node
    entries into nodes one for one and in their order: each node has the
    address [host:port] and the id of its entry.  The node of the first
    entry has empty [SlaveOfAddr] and [SlaveOfID]; the node of every
    later entry has the address and the id of the first entry in its
    [SlaveOfAddr] and [SlaveOfID], not those of another replica. *)
Theorem slot_set_master_and_replicas br tss br' :
  topoSlotSet_UnmarshalRESP (topoSlotSet_zero, br) = ((tss, br'), inr ()) ↔
  ∃ n a b entries,
    br = ArrayHeader n :: Int a :: Int b :: entries_items entries ++ br' ∧
    0 ≤ a ≤ uint16_max ∧ 0 ≤ b ≤ uint16_max ∧
    length entries = Z.to_nat (n - 2) ∧
    Forall (λ e, (2 ≤ length e)%nat) entries ∧
    slots tss = (a, wrap16 (b + 1)) ∧
    entry_nodes (a, wrap16 (b + 1)) entries (nodes tss).
Proof.
  split.
  - intros H.
    destruct (topoSlotSet_UnmarshalRESP_reader _ _ _ _ H)
      as (n & a & b & rest & -> & Ha & Hb).
    rewrite topoSlotSet_UnmarshalRESP_bounds in H by done.
    pose proof (unmarshal_nodes_reader _ _ _ _ _ _ _ H)
      as (entries & Hl & Hf & ->).
    rewrite <- Hl, unmarshal_nodes_items in H by done.
    injection H as <-. exists n, a, b, entries.
    repeat split; try done; try lia; apply nodes_from_entries.
  - intros (n & a & b & entries & -> & Ha & Hb & Hl & Hf & Hs & Hn).
    rewrite topoSlotSet_UnmarshalRESP_bounds by done.
    rewrite <- Hl, unmarshal_nodes_items by done. simpl.
    do 2 f_equal. destruct tss as [sl ns]. simpl in *. subst sl. f_equal.
    eapply entry_nodes_unique; [apply nodes_from_entries | done].
Qed.

Lemma slot_set_master_and_replicas_witness :
  topoSlotSet_UnmarshalRESP (topoSlotSet_zero, three_node_entry)
  = ((mkTSS (0, 5461)
        [mkNode "127.0.0.1:7000" "id-a" [(0, 5461)] "" "";
         mkNode "127.0.0.1:7001" "id-b" [(0, 5461)] "127.0.0.1:7000" "id-a";
         mkNode "127.0.0.1:7002" "" [(0, 5461)] "127.0.0.1:7000" "id-a"],
      []), inr ()) ∧
  ∃ n a b entries,
    three_node_entry
    = ArrayHeader n :: Int a :: Int b :: entries_items entries ++ [] ∧
    0 ≤ a ≤ uint16_max ∧ 0 ≤ b ≤ uint16_max ∧
    length entries = Z.to_nat (n - 2) ∧
    Forall (λ e, (2 ≤ length e)%nat) entries ∧
    (0, 5461) = (a, wrap16 (b + 1)) ∧
    entry_nodes (a, wrap16 (b + 1)) entries
      [mkNode "127.0.0.1:7000" "id-a" [(0, 5461)] "" "";
       mkNode "127.0.0.1:7001" "id-b" [(0, 5461)] "127.0.0.1:7000" "id-a";
       mkNode "127.0.0.1:7002" "" [(0, 5461)] "127.0.0.1:7000" "id-a"].
Proof.
  assert (H : topoSlotSet_UnmarshalRESP (topoSlotSet_zero, three_node_entry)
    = ((mkTSS (0, 5461)
          [mkNode "127.0.0.1:7000" "id-a" [(0, 5461)] "" "";
           mkNode "127.0.0.1:7001" "id-b" [(0, 5461)] "127.0.0.1:7000" "id-a";
           mkNode "127.0.0.1:7002" "" [(0, 5461)] "127.0.0.1:7000" "id-a"],
        []), inr ())) by (vm_compute; reflexivity).
  split; [exact H|].
  exact (proj1 (slot_set_master_and_replicas three_node_entry _ []) H).
Defined.

(** ** Range conversion *)

(** C5. Inclusive wire bounds [a], [b] with [a ≤ b] below the largest
    16-bit value decode to the half-open range from [a] to [b + 1], and
    the encoder writes the bounds [a] and [b] for that range. *)
Theorem range_conversion tss0 n a b br :
  0 ≤ a → a ≤ b → b < uint16_max →
  let tss :=
    (topoSlotSet_UnmarshalRESP (tss0, ArrayHeader n :: Int a :: Int b :: br)).1.1 in
  slots tss = (a, b + 1) ∧
  ∀ w, ∃ rest,
    topoSlotSet_MarshalRESP tss w
    = (w ++ ArrayHeader (2 + Z.of_nat (length (nodes tss)))
            :: Int a :: Int b :: rest, None).
Proof.
  intros Ha Hab Hb. unfold uint16_max in Hb. cbv zeta.
  rewrite topoSlotSet_UnmarshalRESP_bounds by (unfold uint16_max; lia).
  match goal with |- slots ?t = _ ∧ _ =>
    assert (Hs : slots t = (a, b + 1)) end.
  { rewrite unmarshal_nodes_slots. simpl. unfold wrap16.
    by rewrite Z.mod_small by lia. }
  split; [done|]. intros w.
  rewrite topoSlotSet_MarshalRESP_items. unfold tss_items.
  rewrite Hs. simpl fst. simpl snd.
  assert (wrap16 (b + 1 - 1) = b) as ->.
  { unfold wrap16. replace (b + 1 - 1) with b by lia.
    by rewrite Z.mod_small by lia. }
  eexists. reflexivity.
Qed.

Lemma range_conversion_witness :
  0 ≤ 0 ∧ 0 ≤ 5460 ∧ 5460 < uint16_max ∧
  let tss :=
    (topoSlotSet_UnmarshalRESP
       (topoSlotSet_zero, ArrayHeader 5 :: Int 0 :: Int 5460
                            :: skipn 3 three_node_entry)).1.1 in
  slots tss = (0, 5461) ∧
  ∀ w, ∃ rest,
    topoSlotSet_MarshalRESP tss w
    = (w ++ ArrayHeader (2 + Z.of_nat (length (nodes tss)))
            :: Int 0 :: Int 5460 :: rest, None).
Proof.
  split; [lia|]. split; [lia|]. split; [unfold uint16_max; lia|].
  apply (range_conversion topoSlotSet_zero 5 0 5460 (skipn 3 three_node_entry));
    unfold uint16_max; lia.
Defined.

(** ** Well-formed wire input *)

Lemma topoSlotSet_UnmarshalRESP_items s br :
  wf_wire_slot_set s →
  topoSlotSet_UnmarshalRESP (topoSlotSet_zero, slot_set_items s ++ br)
  = ((decoded_slot_set s, br), inr ()).
Proof.
  destruct s as [[a b] entries]. intros (Ha & Hb & Hf). simpl in *.
  unfold slot_set_items. simpl.
  rewrite topoSlotSet_UnmarshalRESP_bounds by done.
  replace (Z.to_nat (2 + Z.of_nat (length entries) - 2)) with (length entries)
    by lia.
  by rewrite unmarshal_nodes_items.
Qed.

Lemma unmarshal_slotSets_items sets br :
  Forall wf_wire_slot_set sets →
  unmarshal_slotSets (length sets) (slot_sets_items sets ++ br)
  = (br, inr (decoded_slot_set <$> sets)).
Proof.
  induction sets as [|s sets IH]; intros Hf; [done|].
  apply Forall_cons in Hf as [Hs Hf].
  change (slot_sets_items (s :: sets))
    with (slot_set_items s ++ slot_sets_items sets).
  rewrite <- app_assoc. cbn [length unmarshal_slotSets].
  rewrite topoSlotSet_UnmarshalRESP_items by done.
  unfold bind. by rewrite IH.
Qed.


(** ** Errors of the decoder *)





(** ** The merge pass *)

Lemma with_Slots_with_Slots n s1 s2 :
  with_Slots (with_Slots n s1) s2 = with_Slots n s2.
Proof. done. Qed.

Lemma with_Slots_id n : with_Slots n (Slots n) = n.
Proof. by destruct n. Qed.

Lemma merge_slotSets_flat slotSets m :
  fold_left (λ m tss, fold_left merge_node (nodes tss) m) slotSets m
  = fold_left merge_node (all_nodes slotSets) m.
Proof.
  revert m. induction slotSets as [|tss rest IH]; intros m; [done|].
  unfold all_nodes. simpl. rewrite fold_left_app. apply IH.
Qed.

Lemma merge_node_lookup ns :
  ∀ (m : gmap string Node) a,
    fold_left merge_node ns m !! a =
    match m !! a with
    | Some e => Some (with_Slots e (Slots e ++ concat (Slots <$> with_addr a ns)))
    | None => merged a ns
    end.
Proof.
  induction ns as [|n ns IH]; intros m a.
  - simpl. destruct (m !! a) as [e|] eqn:E; [|done].
    by rewrite app_nil_r, with_Slots_id.
  - simpl. rewrite IH. unfold merge_node, merged, with_addr.
    destruct (decide (Addr n = a)) as [<-|Hne].
    + rewrite filter_cons_True by done. simpl.
      destruct (m !! Addr n) as [e|] eqn:E.
      * rewrite lookup_insert_eq. simpl. by rewrite <- app_assoc.
      * by rewrite lookup_insert_eq.
    + rewrite filter_cons_False by done.
      destruct (m !! Addr n) as [e|] eqn:E; by rewrite lookup_insert_ne.
Qed.

Lemma merge_slotSets_lookup slotSets a :
  merge_slotSets slotSets !! a = merged a (all_nodes slotSets).
Proof.
  unfold merge_slotSets. rewrite merge_slotSets_flat, merge_node_lookup.
  by rewrite lookup_empty.
Qed.

Lemma head_with_addr a ns n :
  head (with_addr a ns) = Some n → Addr n = a ∧ n ∈ ns.
Proof.
  intros H. assert (Hin : n ∈ with_addr a ns).
  { destruct (with_addr a ns); simplify_eq/=. by left. }
  unfold with_addr in Hin. by apply list_elem_of_filter in Hin.
Qed.

Lemma merged_Some a ns n' :
  merged a ns = Some n' →
  ∃ n, head (with_addr a ns) = Some n ∧
       n' = with_Slots n (concat (Slots <$> with_addr a ns)).
Proof.
  unfold merged. intros H. apply fmap_Some in H as (n & ? & ?). eauto.
Qed.

Lemma merged_Addr a ns n' : merged a ns = Some n' → Addr n' = a.
Proof.
  intros (n & Hh & ->)%merged_Some. simpl.
  by apply head_with_addr in Hh as [? ?].
Qed.

Lemma merged_is_Some a ns n : n ∈ ns → Addr n = a → is_Some (merged a ns).
Proof.
  intros Hin Ha. unfold merged.
  assert (n ∈ with_addr a ns) as Hf by (by apply list_elem_of_filter).
  destruct (with_addr a ns); [by apply elem_of_nil in Hf | by eexists].
Qed.

(** The values of the map of merged nodes, in any iteration order: one
    node per address. *)
Lemma merged_range_NoDup slotSets ns :
  map_range (merge_slotSets slotSets) ns → NoDup (Addr <$> ns).
Proof.
  unfold map_range. intros ->.
  pose proof (NoDup_fst_map_to_list (merge_slotSets slotSets)) as Hnd.
  replace (Addr <$> (map_to_list (merge_slotSets slotSets)).*2)
    with ((map_to_list (merge_slotSets slotSets)).*1); [done|].
  rewrite <- list_fmap_compose. apply Forall_fmap_ext_1, Forall_forall.
  intros [a n] Hin%elem_of_map_to_list. simpl.
  rewrite merge_slotSets_lookup in Hin. symmetry. by eapply merged_Addr.
Qed.

Lemma merged_range_elem slotSets ns n' :
  map_range (merge_slotSets slotSets) ns →
  n' ∈ ns ↔ merged (Addr n') (all_nodes slotSets) = Some n'.
Proof.
  unfold map_range. intros ->. rewrite list_elem_of_fmap. split.
  - intros ([a n] & -> & Hin%elem_of_map_to_list). simpl.
    rewrite merge_slotSets_lookup in Hin.
    by rewrite (merged_Addr _ _ _ Hin).
  - intros H. exists (Addr n', n'). split; [done|].
    apply elem_of_map_to_list. by rewrite merge_slotSets_lookup.
Qed.

Lemma unmarshal_slotSets_inv count :
  ∀ br br' slotSets,
    unmarshal_slotSets count br = (br', inr slotSets) →
    ∃ sets, length sets = count ∧ Forall wf_wire_slot_set sets ∧
            slotSets = decoded_slot_set <$> sets.
Proof.
  induction count as [|count IH]; intros br br' slotSets H.
  - injection H as <- <-. by exists [].
  - simpl in H.
    destruct (topoSlotSet_UnmarshalRESP (topoSlotSet_zero, br))
      as [[tss br1] [e|[]]] eqn:E; [done|].
    unfold bind in H.
    destruct (unmarshal_slotSets count br1) as [br2 [e|rest]] eqn:E2; [done|].
    injection H as <- <-.
    apply IH in E2 as (sets & Hl & Hwf & ->).
    apply topoSlotSet_UnmarshalRESP_inv in E
      as (n & s0 & s1 & entries & H0 & H1 & _ & Hf & ->).
    exists ((s0, s1, entries) :: sets). simpl. split; [lia|].
    split; [|done]. constructor; [|done].
    unfold wf_wire_slot_set. simpl. done.
Qed.

(** Every provisional node carries the one range of its slot set. *)
Lemma decoded_slot_set_Slots s :
  Forall (λ n, Slots n = [slots (decoded_slot_set s)])
         (nodes (decoded_slot_set s)).
Proof. apply nodes_from_Slots. Qed.

Lemma all_nodes_decoded_Slots sets :
  Forall (λ n, Slots n ≠ []) (all_nodes (decoded_slot_set <$> sets)).
Proof.
  unfold all_nodes. induction sets as [|s sets IH]; [constructor|].
  simpl. apply Forall_app. split; [|done].
  eapply Forall_impl; [apply decoded_slot_set_Slots|].
  simpl. by intros n ->.
Qed.

Lemma merged_Slots_nonempty a ns n' :
  Forall (λ n, Slots n ≠ []) ns →
  merged a ns = Some n' → Slots n' ≠ [].
Proof.
  intros Hf (n & Hh & ->)%merged_Some. simpl.
  destruct (with_addr a ns) as [|n0 l] eqn:E; [done|]. simpl in *.
  injection Hh as ->.
  assert (n ∈ ns) as Hin.
  { assert (n ∈ with_addr a ns) as H by (rewrite E; by left).
    unfold with_addr in H. by apply list_elem_of_filter in H as [_ ?]. }
  rewrite Forall_forall in Hf. specialize (Hf n Hin).
  destruct (Slots n); done.
Qed.

(** ** Topologies up to order, and [Topo.sort] *)

Global Instance node_equiv_equivalence : Equivalence node_equiv.
Proof.
  split.
  - by intros n.
  - intros n n' (?&?&?&?&?). by repeat split.
  - intros n1 n2 n3 (?&?&?&?&?) (?&?&?&?&?). repeat split; try congruence.
    by etrans.
Qed.

Lemma sort_node_slots_equiv n n' : sort_node_slots n n' → node_equiv n n'.
Proof. intros (s' & [Hp _] & ->). by repeat split. Qed.

Lemma sort_node_slots_proper n1 n2 n' :
  node_equiv n1 n2 → sort_node_slots n1 n' → sort_node_slots n2 n'.
Proof.
  intros (Ha & Hi & Hsa & Hsi & Hp) (s' & Hs & ->).
  exists s'. split; [by eapply sort_Slice_perm|].
  unfold with_Slots. by rewrite Ha, Hi, Hsa, Hsi.
Qed.

Lemma node_equiv_nonempty n n' :
  node_equiv n n' → Slots n ≠ [] → Slots n' ≠ [].
Proof.
  intros (_&_&_&_&Hp) Hne He. rewrite He in Hp.
  by apply Permutation_nil_r in Hp.
Qed.

Lemma topo_equiv_length l l' : topo_equiv l l' → length l' = length l.
Proof. intros (l1 & Hf & Hp). rewrite <- Hp. symmetry. by eapply Forall2_length. Qed.

Lemma topo_equiv_nonempty l l' :
  topo_equiv l l' →
  Forall (λ n, Slots n ≠ []) l → Forall (λ n, Slots n ≠ []) l'.
Proof.
  intros (l1 & Hf & Hp) H. rewrite <- Hp. clear Hp.
  induction Hf as [|n n' l l1 Hn Hf IH]; [constructor|].
  apply Forall_cons in H as [? ?]. constructor; eauto using node_equiv_nonempty.
Qed.

Lemma topo_equiv_sym l l' : topo_equiv l l' → topo_equiv l' l.
Proof.
  intros (l1 & Hf & Hp).
  assert (Hf' : Forall2 node_equiv l1 l).
  { apply Forall2_flip. eapply Forall2_impl; [exact Hf|].
    intros x y Hxy. change (node_equiv y x). by symmetry. }
  destruct (Permutation_Forall2 Hp Hf') as (l2 & Hp2 & Hf2).
  exists l2. split; [done | by symmetry].
Qed.

Lemma Topo_sort_inv l l' :
  Topo_sort l (Ok l') →
  ∃ l1, Forall2 sort_node_slots l l1 ∧
        ((2 ≤ length l)%nat → Forall (λ n, Slots n ≠ []) l) ∧
        sort_Slice less_node_total l1 l'.
Proof. inversion 1; eauto. Qed.

Lemma Topo_sort_topo_equiv l l' : Topo_sort l (Ok l') → topo_equiv l l'.
Proof.
  intros (l1 & Hf & _ & [Hp _])%Topo_sort_inv. exists l1. split; [|done].
  eapply Forall2_impl; [exact Hf|]. apply sort_node_slots_equiv.
Qed.

(** The outcome of [Topo.sort] depends neither on the order of the
    nodes nor on the order of the slots of a node. *)
Lemma Topo_sort_proper l1 l2 r :
  topo_equiv l1 l2 → Topo_sort l1 (Ok r) → Topo_sort l2 (Ok r).
Proof.
  intros (l & Hf & Hp) (t1 & Hs & Hg & Hsort)%Topo_sort_inv.
  assert (Hs' : Forall2 sort_node_slots l t1).
  { clear -Hf Hs. revert t1 Hs.
    induction Hf as [|n n' l1 l Hn Hf IH]; intros t1 Hs.
    - by inversion Hs.
    - inversion Hs as [|? m ? t Hm Ht]; subst.
      constructor; eauto using sort_node_slots_proper. }
  destruct (Permutation_Forall2 Hp Hs') as (t2 & Hpt & Hf2).
  eapply Topo_sort_ok with (tt1 := t2).
  - done.
  - intros Hlen. eapply (topo_equiv_nonempty l1 l2); [by exists l|].
    apply Hg. rewrite <- Hp in Hlen.
    by rewrite (Forall2_length _ _ _ Hf).
  - by eapply sort_Slice_perm.
Qed.

Lemma topo_equiv_refl l : topo_equiv l l.
Proof. exists l. split; [|done]. by apply Forall_Forall2_diag, Forall_true. Qed.

Lemma topo_equiv_app l k k' :
  topo_equiv k k' → topo_equiv (l ++ k) (l ++ k').
Proof.
  intros (k1 & Hf & Hp). exists (l ++ k1). split; [|by rewrite Hp].
  apply Forall2_app; [|done]. by apply Forall_Forall2_diag, Forall_true.
Qed.

(** ** Every decoded node owns a range *)

Lemma Topo_sort_run_Ok l :
  Forall (λ n, Slots n ≠ []) l → ∃ l', Topo_sort_run l = Ok l'.
Proof.
  intros Hf. unfold Topo_sort_run. case_decide as Hd; [|by eexists].
  destruct Hd as [_ He]. by apply Forall_Exists_neg in Hf.
Qed.

Lemma Topo_sort_no_panic l :
  Forall (λ n, Slots n ≠ []) l → ¬ Topo_sort l Panic.
Proof.
  intros Hf H. inversion H as [|_ He]. by apply Forall_Exists_neg in Hf.
Qed.

(** The nodes handed to [Topo.sort] by the decoder own a slot range
    each. *)
Lemma merged_range_nonempty sets ns :
  map_range (merge_slotSets (decoded_slot_set <$> sets)) ns →
  Forall (λ n, Slots n ≠ []) ns.
Proof.
  intros Hr. apply Forall_forall. intros n Hn.
  apply (merged_range_elem _ _ _ Hr) in Hn.
  eapply merged_Slots_nonempty; [|exact Hn]. apply all_nodes_decoded_Slots.
Qed.

Lemma less_node_is_Some a b :
  Slots a ≠ [] → Slots b ≠ [] → is_Some (less_node a b).
Proof.
  unfold less_node. destruct (Slots a), (Slots b); done.
Qed.

(** C9. Every provisional node carries the one range of its slot-set
    entry, every node of a decoded topology owns at least one range, and
    the access to [Slots[0]] in [Topo.sort] is in bounds: the sort of the
    decoder does not panic, the comparison is defined on all nodes of the
    result, and sorting the result again does not panic either.  The only
    panic of the decoder is that of [make] on a negative length. *)
Theorem decoded_nodes_own_a_range tt br tt' br' o :
  Forall (λ n, Slots n ≠ []) tt →
  Topo_UnmarshalRESP tt br tt' br' o →
  (∀ n br1 slotSets,
     ArrayHeader_UnmarshalRESP br = (br1, inr n) →
     unmarshal_slotSets (Z.to_nat n) br1 = (br', inr slotSets) →
     Forall (λ tss, Forall (λ nd, Slots nd = [slots tss]) (nodes tss)) slotSets) ∧
  (o = Panicked → ∃ n, (ArrayHeader_UnmarshalRESP br).2 = inr n ∧ n < 0) ∧
  (o = Returned None →
     Forall (λ n, Slots n ≠ []) tt' ∧
     (∀ a b, a ∈ tt' → b ∈ tt' → is_Some (less_node a b)) ∧
     ¬ Topo_sort tt' Panic).
Proof.
  intros Htt H. split; [|split].
  - intros n br1 slotSets _ (sets & _ & _ & ->)%unmarshal_slotSets_inv.
    apply Forall_fmap, Forall_forall. intros s _. apply decoded_slot_set_Slots.
  - intros ->. inversion H as [| ? n Hh Hn | | |? n ? slotSets ns Hh Hn Hs Hr Hp];
      subst.
    + exists n. by rewrite Hh.
    + apply unmarshal_slotSets_inv in Hs as (sets & _ & _ & ->).
      exfalso. eapply Topo_sort_no_panic; [|exact Hp].
      apply Forall_app. eauto using merged_range_nonempty.
  - intros ->. inversion H as [| | |? n ? slotSets ns ? Hh Hn Hs Hr Hsort|]; subst.
    apply unmarshal_slotSets_inv in Hs as (sets & _ & _ & ->).
    assert (Hne : Forall (λ n, Slots n ≠ []) tt').
    { eapply topo_equiv_nonempty; [by apply Topo_sort_topo_equiv|].
      apply Forall_app. eauto using merged_range_nonempty. }
    split; [done|]. split; [|by apply Topo_sort_no_panic].
    rewrite Forall_forall in Hne. intros a b Ha Hb.
    apply less_node_is_Some; auto.
Qed.

Lemma decoded_nodes_own_a_range_witness :
  Forall (λ n, Slots n ≠ []) ([] : Topo) ∧
  Topo_UnmarshalRESP [] two_slot_sets_wire two_slot_sets_topo []
    (Returned None) ∧
  Forall (λ n, Slots n ≠ []) two_slot_sets_topo ∧
  ¬ Topo_sort two_slot_sets_topo Panic.
Proof.
  assert (H : Topo_UnmarshalRESP [] two_slot_sets_wire two_slot_sets_topo []
                (Returned None)).
  { apply Topo_UnmarshalRESP_run_admissible. vm_compute. reflexivity. }
  split; [constructor|]. split; [exact H|].
  destruct (decoded_nodes_own_a_range [] _ _ _ _ (Forall_nil_2 _) H)
    as (_ & _ & Hok).
  destruct (Hok eq_refl) as (Hne & _ & Hnp). by split.
Defined.

(** ** The decoder appends to the receiver *)

Lemma Topo_sort_length l l' : Topo_sort l (Ok l') → length l' = length l.
Proof. intros H%Topo_sort_topo_equiv. by apply topo_equiv_length. Qed.

Lemma topo_equiv_trans l1 l2 l3 :
  topo_equiv l1 l2 → topo_equiv l2 l3 → topo_equiv l1 l3.
Proof.
  intros (a & Hf1 & Hp1) (b & Hf2 & Hp2).
  destruct (Permutation_Forall2 (symmetry Hp1) Hf2) as (b' & Hpb & Hfb).
  exists b'. split.
  - clear -Hf1 Hfb. revert b' Hfb.
    induction Hf1 as [|x y l k Hxy _ IH]; intros b' Hfb.
    + by inversion Hfb.
    + inversion Hfb as [|? z ? k' Hyz Hk]; subst. constructor; [|by apply IH].
      by etrans.
  - by rewrite <- Hpb.
Qed.

Lemma topo_equiv_perm l k : l ≡ₚ k → topo_equiv l k.
Proof.
  intros Hp. exists l. split; [|done]. by apply Forall_Forall2_diag, Forall_true.
Qed.

(** C10. A successful decode into the receiver [tt] leaves in it the
    prior nodes together with the newly decoded nodes, sorted as one
    collection: the same input decodes into an empty receiver, and for
    every [snapshot] that it gives to an empty receiver the result is a
    canonical sort of the prior nodes followed by [snapshot]; with a
    receiver that is not empty the result is longer than the snapshot. *)
Theorem decode_appends_to_receiver tt br tt' br' :
  Topo_UnmarshalRESP tt br tt' br' (Returned None) →
  (∃ snapshot, Topo_UnmarshalRESP [] br snapshot br' (Returned None)) ∧
  ∀ snapshot br'',
    Topo_UnmarshalRESP [] br snapshot br'' (Returned None) →
    Topo_sort (tt ++ snapshot) (Ok tt') ∧
    length tt' = (length tt + length snapshot)%nat ∧
    (tt ≠ [] → tt' ≠ snapshot).
Proof.
  intros H.
  inversion H as [| | |? n ? slotSets ns ? Hh Hn Hs Hr Hsort|]; subst.
  pose proof Hs as (sets & _ & _ & ->)%unmarshal_slotSets_inv.
  pose proof (merged_range_nonempty _ _ Hr) as Hne.
  split.
  - destruct (Topo_sort_run_Ok ns Hne) as [snapshot Hrun].
    pose proof (Topo_sort_run_admissible ns) as Hsnap. rewrite Hrun in Hsnap.
    exists snapshot. by eapply Unmarshal_ok.
  - intros snapshot br'' H0.
    inversion H0 as [| | |? n0 ? slotSets0 ns0 ? Hh0 Hn0 Hs0 Hr0 Hsort0|]; subst.
    rewrite Hh in Hh0. injection Hh0 as <- <-.
    rewrite Hs in Hs0. injection Hs0 as <- <-.
    simpl in Hsort0.
    assert (Heq : topo_equiv ns snapshot).
    { eapply topo_equiv_trans; [|by apply Topo_sort_topo_equiv].
      apply topo_equiv_perm. unfold map_range in *. by rewrite Hr, Hr0. }
    assert (Hlen : length tt' = (length tt + length snapshot)%nat).
    { rewrite (Topo_sort_length _ _ Hsort), length_app.
      by rewrite (topo_equiv_length _ _ Heq). }
    split; [|split; [done|]].
    + eapply Topo_sort_proper; [|exact Hsort]. by apply topo_equiv_app.
    + intros Hne' ->. destruct tt; [done|]. simpl in Hlen. lia.
Qed.

Lemma decode_appends_to_receiver_witness :
  Topo_UnmarshalRESP prior_topo two_slot_sets_wire prior_and_two_slot_sets []
    (Returned None) ∧
  Topo_UnmarshalRESP [] two_slot_sets_wire two_slot_sets_topo []
    (Returned None) ∧
  Topo_sort (prior_topo ++ two_slot_sets_topo) (Ok prior_and_two_slot_sets) ∧
  length prior_and_two_slot_sets
    = (length prior_topo + length two_slot_sets_topo)%nat ∧
  (prior_topo ≠ [] → prior_and_two_slot_sets ≠ two_slot_sets_topo).
Proof.
  assert (H : Topo_UnmarshalRESP prior_topo two_slot_sets_wire
                prior_and_two_slot_sets [] (Returned None)).
  { apply Topo_UnmarshalRESP_run_admissible. vm_compute. reflexivity. }
  assert (H0 : Topo_UnmarshalRESP [] two_slot_sets_wire two_slot_sets_topo []
                 (Returned None)).
  { apply Topo_UnmarshalRESP_run_admissible. vm_compute. reflexivity. }
  split; [exact H|]. split; [exact H0|].
  exact (proj2 (decode_appends_to_receiver _ _ _ _ H) _ _ H0).
Defined.

(** ** Decoding well-formed input *)

Lemma node_of_strings_Addr e sl : Addr (node_of_strings e sl) = entry_addr e.
Proof. done. Qed.

Lemma nodes_from_elem i masterNode sl entries e :
  e ∈ entries →
  ∃ nd, nd ∈ nodes_from i masterNode sl entries ∧
        Addr nd = entry_addr e ∧ Slots nd = [sl].
Proof.
  revert i masterNode. induction entries as [|e' rest IH]; intros i masterNode Hin.
  - by apply elem_of_nil in Hin.
  - apply elem_of_cons in Hin as [->|Hin]; simpl.
    + case_decide; eexists; (split; [by left|done]).
    + case_decide.
      * destruct (IH (i + 1) (node_of_strings e' sl) Hin) as (nd & ? & ?).
        exists nd. split; [by right|done].
      * destruct (IH (i + 1) masterNode Hin) as (nd & ? & ?).
        exists nd. split; [by right|done].
Qed.

Lemma elem_of_all_nodes slotSets tss nd :
  tss ∈ slotSets → nd ∈ nodes tss → nd ∈ all_nodes slotSets.
Proof.
  intros Ht Hn. unfold all_nodes. apply list_elem_of_In, in_concat.
  exists (nodes tss). split; apply list_elem_of_In; [|done].
  apply list_elem_of_fmap. eauto.
Qed.

(** On a well-formed input the decoder returns without error, having
    read the whole array. *)
Lemma Topo_UnmarshalRESP_wf_inv tt sets rest tt' br' o :
  Forall wf_wire_slot_set sets →
  Forall (λ n, Slots n ≠ []) tt →
  Topo_UnmarshalRESP tt
    (ArrayHeader (Z.of_nat (length sets)) :: slot_sets_items sets ++ rest)
    tt' br' o →
  o = Returned None ∧ br' = rest ∧
  ∃ ns, map_range (merge_slotSets (decoded_slot_set <$> sets)) ns ∧
        Topo_sort (tt ++ ns) (Ok tt').
Proof.
  intros Hwf Htt H.
  pose proof (unmarshal_slotSets_items sets rest Hwf) as Hitems.
  inversion H as [? ? Hh|? n Hh Hn|? n ? ? Hh Hn Hs
                  |? n ? slotSets ns ? Hh Hn Hs Hr Hsort
                  |? n ? slotSets ns Hh Hn Hs Hr Hp]; subst;
    simpl in Hh; try done; injection Hh as <- <-; try lia;
    rewrite Nat2Z.id in Hs; rewrite Hitems in Hs; try done;
    injection Hs as <- <-.
  - eauto.
  - exfalso. eapply Topo_sort_no_panic; [|exact Hp].
    apply Forall_app. eauto using merged_range_nonempty.
Qed.

Lemma filter_none {A} (P : A → Prop) `{∀ x, Decision (P x)} (l : list A) :
  Forall (λ y, ¬ P y) l → filter P l = [].
Proof.
  induction 1 as [|y l Hy _ IH]; [done|]. by rewrite filter_cons_False.
Qed.

Lemma filter_NoDup_fmap {A B} (f : A → B) `{EqDecision B} (l : list A) x :
  NoDup (f <$> l) → x ∈ l → filter (λ y, f y = f x) l = [x].
Proof.
  induction l as [|y l IH]; intros Hnd Hin; [by apply elem_of_nil in Hin|].
  rewrite fmap_cons in Hnd. apply NoDup_cons in Hnd as [Hy Hnd].
  apply elem_of_cons in Hin as [->|Hin].
  - rewrite filter_cons_True by done. f_equal.
    apply filter_none, Forall_forall. intros z Hz Hfz. apply Hy.
    rewrite <- Hfz. apply list_elem_of_fmap. eauto.
  - rewrite filter_cons_False; [by apply IH|].
    intros Hfy. apply Hy. rewrite Hfy. apply list_elem_of_fmap. eauto.
Qed.

(** ** Merge of the slot sets of one address *)

Lemma slots_in_merged a ns nd sl :
  nd ∈ ns → Addr nd = a → sl ∈ Slots nd →
  sl ∈ concat (Slots <$> with_addr a ns).
Proof.
  intros Hin Ha Hsl. apply list_elem_of_In, in_concat.
  exists (Slots nd). split; apply list_elem_of_In; [|done].
  apply list_elem_of_fmap. exists nd. split; [done|].
  unfold with_addr. by apply list_elem_of_filter.
Qed.

(** What a decode into an empty receiver holds for an address that
    occurs in the input. *)
Lemma decoded_node_of_address sets ns tt' a nd :
  map_range (merge_slotSets (decoded_slot_set <$> sets)) ns →
  Topo_sort ns (Ok tt') →
  nd ∈ all_nodes (decoded_slot_set <$> sets) → Addr nd = a →
  ∃ n first,
    with_addr a tt' = [n] ∧
    head (with_addr a (all_nodes (decoded_slot_set <$> sets))) = Some first ∧
    node_equiv (with_Slots first
                  (concat (Slots <$> with_addr a (all_nodes (decoded_slot_set <$> sets)))))
               n.
Proof.
  intros Hr Hsort Hnd Ha.
  set (all := all_nodes (decoded_slot_set <$> sets)) in *.
  destruct (merged_is_Some a all nd Hnd Ha) as [n0 Hn0].
  pose proof (merged_Addr _ _ _ Hn0) as Ha0.
  assert (Hin0 : n0 ∈ ns).
  { apply (merged_range_elem _ _ _ Hr). by rewrite Ha0. }
  destruct (Topo_sort_topo_equiv _ _ Hsort) as (l1 & Hf & Hp).
  apply list_elem_of_lookup in Hin0 as [k Hk].
  destruct (Forall2_lookup_l _ _ _ _ _ Hf Hk) as (n & Hk1 & Heq).
  assert (Hn : n ∈ tt').
  { rewrite <- Hp. by eapply list_elem_of_lookup_2. }
  assert (Hnd' : NoDup (Addr <$> tt')).
  { rewrite <- Hp.
    replace (Addr <$> l1) with (Addr <$> ns); [by eapply merged_range_NoDup|].
    clear -Hf. induction Hf as [|x y ? ? [Hxy _]]; [done|].
    rewrite !fmap_cons. by f_equal. }
  apply merged_Some in Hn0 as (first & Hfirst & ->).
  exists n, first. split; [|done].
  destruct Heq as [Han _]. simpl in Han.
  unfold with_addr. rewrite <- Ha0. simpl. rewrite Han.
  by apply filter_NoDup_fmap.
Qed.

(** C4. When two slot-set entries of the input list a node of the same
    address, the decoder returns one node for that address; its slots
    hold the ranges of both entries, and its id and slave-of fields are
    those of the first provisional node of that address. *)
Theorem merge_same_address sets rest i j s1 s2 e1 e2 tt' br' o :
  Forall wf_wire_slot_set sets →
  (i < j)%nat → sets !! i = Some s1 → sets !! j = Some s2 →
  e1 ∈ s1.2 → e2 ∈ s2.2 → entry_addr e1 = entry_addr e2 →
  Topo_UnmarshalRESP []
    (ArrayHeader (Z.of_nat (length sets)) :: slot_sets_items sets ++ rest)
    tt' br' o →
  o = Returned None ∧
  ∃ n first,
    with_addr (entry_addr e1) tt' = [n] ∧
    (s1.1.1, wrap16 (s1.1.2 + 1)) ∈ Slots n ∧
    (s2.1.1, wrap16 (s2.1.2 + 1)) ∈ Slots n ∧
    head (with_addr (entry_addr e1) (all_nodes (decoded_slot_set <$> sets)))
      = Some first ∧
    ID n = ID first ∧
    SlaveOfAddr n = SlaveOfAddr first ∧ SlaveOfID n = SlaveOfID first.
Proof.
  intros Hwf Hij Hi Hj He1 He2 Hsame H.
  apply Topo_UnmarshalRESP_wf_inv in H as (-> & _ & ns & Hr & Hsort);
    [|done|constructor].
  split; [done|]. simpl in Hsort.
  assert (Hprov : ∀ k s e, sets !! k = Some s → e ∈ s.2 →
            ∃ nd, nd ∈ all_nodes (decoded_slot_set <$> sets) ∧
                  Addr nd = entry_addr e ∧
                  Slots nd = [(s.1.1, wrap16 (s.1.2 + 1))]).
  { intros k s e Hk He.
    destruct (nodes_from_elem 0 Node_zero (s.1.1, wrap16 (s.1.2 + 1)) s.2 e He)
      as (nd & Hnd & Hnda & Hnds).
    exists nd. split; [|done].
    apply (elem_of_all_nodes _ (decoded_slot_set s)); [|done].
    apply list_elem_of_fmap. exists s. split; [done|].
    by eapply list_elem_of_lookup_2. }
  destruct (Hprov i s1 e1 Hi He1) as (nd1 & Hnd1 & Ha1 & Hs1).
  destruct (Hprov j s2 e2 Hj He2) as (nd2 & Hnd2 & Ha2 & Hs2).
  destruct (decoded_node_of_address sets ns tt' (entry_addr e1) nd1 Hr Hsort Hnd1 Ha1)
    as (n & first & Hone & Hfirst & (_ & Hid & Hsa & Hsi & Hp)).
  exists n, first. simpl in *. repeat split; try done.
  - rewrite <- Hp. eapply slots_in_merged; [exact Hnd1|done|].
    rewrite Hs1. by left.
  - rewrite <- Hp. eapply slots_in_merged; [exact Hnd2|congruence|].
    rewrite Hs2. by left.
Qed.

Lemma merge_same_address_witness :
  Topo_UnmarshalRESP []
    (ArrayHeader (Z.of_nat (length merge_wire_sets))
       :: slot_sets_items merge_wire_sets ++ [])
    merge_topo [] (Returned None) ∧
  ∃ n first,
    with_addr "10.0.0.1:7000" merge_topo = [n] ∧
    (0, 100) ∈ Slots n ∧ (200, 300) ∈ Slots n ∧
    head (with_addr "10.0.0.1:7000"
            (all_nodes (decoded_slot_set <$> merge_wire_sets))) = Some first ∧
    ID n = ID first ∧
    SlaveOfAddr n = SlaveOfAddr first ∧ SlaveOfID n = SlaveOfID first.
Proof.
  assert (H : Topo_UnmarshalRESP []
                (ArrayHeader (Z.of_nat (length merge_wire_sets))
                   :: slot_sets_items merge_wire_sets ++ [])
                merge_topo [] (Returned None)).
  { apply Topo_UnmarshalRESP_run_admissible. vm_compute. reflexivity. }
  split; [exact H|].
  refine (proj2 (merge_same_address merge_wire_sets [] 0 1
                   (0, 99, [["10.0.0.1"; "7000"; "id-a"]; ["10.0.0.2"; "7000"; "id-b"]])
                   (200, 299, [["10.0.0.1"; "7000"; "id-a"]])
                   ["10.0.0.1"; "7000"; "id-a"] ["10.0.0.1"; "7000"; "id-a"]
                   merge_topo [] (Returned None) _ _ _ _ _ _ _ H)).
  - repeat constructor; simpl; unfold uint16_max; lia.
  - lia.
  - reflexivity.
  - reflexivity.
  - simpl. by left.
  - simpl. by left.
  - reflexivity.
Defined.

(** ** The buckets of the encoder *)

Lemma slot_buckets_pairs tt m :
  fold_left (λ m t, fold_left (add_slot t) (Slots t) m) tt m
  = fold_left (λ m p, add_slot p.1 m p.2) (slot_pairs tt) m.
Proof.
  revert m. induction tt as [|t tt IH]; intros m; [done|].
  unfold slot_pairs. rewrite bind_cons, fold_left_app. simpl.
  rewrite IH. f_equal.
  generalize (Slots t). intros l. revert m.
  induction l as [|sl l IHl]; intros m; [done|]. simpl. by rewrite IHl.
Qed.

Lemma add_slots_lookup pairs :
  ∀ (m : gmap slot_range topoSlotSet) r,
    fold_left (λ m p, add_slot p.1 m p.2) pairs m !! r
    = bucket_after (m !! r) r (filter (λ p, p.2 = r) pairs).*1.
Proof.
  induction pairs as [|[t sl] pairs IH]; intros m r; [done|].
  simpl. rewrite IH. unfold add_slot.
  destruct (decide (sl = r)) as [->|Hne].
  - rewrite filter_cons_True by done. rewrite fmap_cons, lookup_insert_eq.
    cbn [fst snd].
    destruct ((filter (λ p, p.2 = r) pairs).*1) as [|o os]; [done|].
    simpl. by rewrite <- app_assoc.
  - rewrite filter_cons_False by done. by rewrite lookup_insert_ne.
Qed.

Lemma slot_buckets_lookup tt r :
  slot_buckets tt !! r = bucket_after None r (owners r tt).
Proof.
  unfold slot_buckets. rewrite slot_buckets_pairs, add_slots_lookup.
  by rewrite lookup_empty.
Qed.

Lemma slot_buckets_Some tt r tss :
  slot_buckets tt !! r = Some tss ↔
  owners r tt ≠ [] ∧ tss = mkTSS r (owners r tt).
Proof.
  rewrite slot_buckets_lookup. unfold bucket_after.
  destruct (owners r tt) as [|o os]; simpl.
  - split; [done | by intros [? _]].
  - split; [by intros [= <-] | by intros [_ ->]].
Qed.

Lemma owners_nonempty r tt :
  owners r tt ≠ [] ↔ ∃ t, t ∈ tt ∧ r ∈ Slots t.
Proof.
  unfold owners, slot_pairs. split.
  - intros H.
    destruct (filter (λ p, p.2 = r) (t ← tt; (λ sl, (t, sl)) <$> Slots t))
      as [|[t sl] l] eqn:E; [done|].
    assert (Hin : (t, sl) ∈ filter (λ p, p.2 = r)
                               (t ← tt; (λ sl, (t, sl)) <$> Slots t)).
    { rewrite E. by left. }
    apply list_elem_of_filter in Hin as [Hr Hin]. simpl in Hr. subst sl.
    apply list_elem_of_bind in Hin as (t' & Hin & Ht').
    apply list_elem_of_fmap in Hin as (sl & [= -> ->] & Hsl). eauto.
  - intros (t & Ht & Hr) He.
    assert (Hin : (t, r) ∈ filter (λ p, p.2 = r)
                              (t ← tt; (λ sl, (t, sl)) <$> Slots t)).
    { apply list_elem_of_filter. split; [done|].
      apply list_elem_of_bind. exists t. split; [|done].
      apply list_elem_of_fmap. eauto. }
    apply fmap_nil_inv in He. rewrite He in Hin. by apply elem_of_nil in Hin.
Qed.

(** The buckets in any iteration order: one for each range that occurs
    in the topology. *)
Lemma slot_buckets_range tt l :
  map_range (slot_buckets tt) l →
  slots <$> l ≡ₚ remove_dups (tt ≫= Slots) ∧
  Forall (λ tss, nodes tss = owners (slots tss) tt) l.
Proof.
  unfold map_range. intros Hl. split.
  - rewrite Hl.
    replace (slots <$> (map_to_list (slot_buckets tt)).*2)
      with ((map_to_list (slot_buckets tt)).*1).
    + apply NoDup_Permutation;
        [apply NoDup_fst_map_to_list | apply NoDup_remove_dups |].
      intros r. rewrite elem_of_remove_dups, list_elem_of_bind.
      rewrite list_elem_of_fmap. split.
      * intros ([r' tss] & -> & Hin%elem_of_map_to_list). simpl.
        apply slot_buckets_Some in Hin as [Hne _].
        apply owners_nonempty in Hne as (t & ? & ?). eauto.
      * intros (t & Hr & Ht).
        exists (r, mkTSS r (owners r tt)). split; [done|].
        apply elem_of_map_to_list, slot_buckets_Some. split; [|done].
        apply owners_nonempty. eauto.
    + rewrite <- list_fmap_compose. apply Forall_fmap_ext_1, Forall_forall.
      intros [r tss] Hin%elem_of_map_to_list.
      by apply slot_buckets_Some in Hin as [_ ->].
  - rewrite Hl. apply Forall_fmap, Forall_forall.
    intros [r tss] Hin%elem_of_map_to_list.
    by apply slot_buckets_Some in Hin as [_ ->].
Qed.

Lemma less_tss_transitive_ordering l : transitive_ordering less_tss l.
Proof.
  exists (λ tss, (slots tss).1).
  induction l as [|a l IH]; constructor; [|done].
  apply Forall_forall. intros b _. by split.
Qed.

Lemma FOP_impl {A} (R R' : A → A → Prop) l :
  (∀ x y, R x y → R' x y) → ForallOrdPairs R l → ForallOrdPairs R' l.
Proof.
  intros HR. induction 1 as [|a l Ha _ IH]; constructor; [|done].
  eapply Forall_impl; [exact Ha | auto].
Qed.

(** The items written for one node: host and port as split from the
    address, then the id when it is not empty. *)
Lemma node_items_spec n :
  node_items n =
  if decide (ID n = "") then
    [ArrayHeader 2; BulkString (SplitHostPort (Addr n)).1.1;
     BulkString (SplitHostPort (Addr n)).1.2]
  else
    [ArrayHeader 3; BulkString (SplitHostPort (Addr n)).1.1;
     BulkString (SplitHostPort (Addr n)).1.2; BulkString (ID n)].
Proof.
  unfold node_items, node_strings.
  destruct (SplitHostPort (Addr n)) as [[host port] err]. simpl.
  destruct (decide (ID n = "")) as [->|Hne].
  - done.
  - rewrite decide_True by done. done.
Qed.

(** C8. The encoder writes the array header with the number of distinct
    ranges of the topology, then one slot-set entry for each distinct
    range, in ascending order of the range start.  The entry of a range
    lists the nodes that own it, a node with several ranges being listed
    under each; it holds the inclusive bounds and, for each node, host
    and port as split from the address, followed by the id when the id
    is not empty. *)
Theorem encode_one_entry_per_range tt w out :
  Topo_MarshalRESP tt w out →
  ∃ allTSS,
    out = (w ++ ArrayHeader (Z.of_nat (length allTSS))
             :: concat (tss_items <$> allTSS), None) ∧
    slots <$> allTSS ≡ₚ remove_dups (tt ≫= Slots) ∧
    length allTSS = length (remove_dups (tt ≫= Slots)) ∧
    ForallOrdPairs (λ a b, (slots a).1 ≤ (slots b).1) allTSS ∧
    Forall (λ tss,
              nodes tss = owners (slots tss) tt ∧
              tss_items tss =
                ArrayHeader (2 + Z.of_nat (length (owners (slots tss) tt)))
                  :: Int (slots tss).1 :: Int (wrap16 ((slots tss).2 - 1))
                  :: concat (node_items <$> owners (slots tss) tt))
           allTSS ∧
    ∀ n, node_items n =
         if decide (ID n = "") then
           [ArrayHeader 2; BulkString (SplitHostPort (Addr n)).1.1;
            BulkString (SplitHostPort (Addr n)).1.2]
         else
           [ArrayHeader 3; BulkString (SplitHostPort (Addr n)).1.1;
            BulkString (SplitHostPort (Addr n)).1.2; BulkString (ID n)].
Proof.
  intros (l & allTSS & Hr & [Hp Hs] & ->).
  apply slot_buckets_range in Hr as [Hslots Hnodes].
  exists allTSS.
  assert (Hslots' : slots <$> allTSS ≡ₚ remove_dups (tt ≫= Slots)).
  { by rewrite <- Hp. }
  split; [apply marshal_sorted_items|].
  split; [done|].
  split; [by rewrite <- Hslots', length_fmap|].
  split; [|split; [|apply node_items_spec]].
  - eapply FOP_impl; [|apply Hs, less_tss_transitive_ordering].
    intros a b Hab. simpl in Hab. unfold less_tss in Hab.
    apply bool_decide_eq_false in Hab. lia.
  - rewrite <- Hp. eapply Forall_impl; [exact Hnodes|].
    intros tss Hn. split; [done|]. unfold tss_items. by rewrite Hn.
Qed.

Lemma encode_one_entry_per_range_witness :
  ∃ out allTSS,
    Topo_MarshalRESP three_range_topo [] out ∧
    out = (ArrayHeader (Z.of_nat (length allTSS))
             :: concat (tss_items <$> allTSS), None) ∧
    length allTSS = length (remove_dups (three_range_topo ≫= Slots)) ∧
    ForallOrdPairs (λ a b, (slots a).1 ≤ (slots b).1) allTSS.
Proof.
  exists (Topo_MarshalRESP_run three_range_topo []).
  destruct (encode_one_entry_per_range three_range_topo [] _
              (Topo_MarshalRESP_run_admissible three_range_topo []))
    as (allTSS & Hout & _ & Hlen & Hsorted & _).
  exists allTSS.
  exact (conj (Topo_MarshalRESP_run_admissible three_range_topo [])
              (conj Hout (conj Hlen Hsorted))).
Defined.

(** ** The canonical sort *)

Lemma less_slot_transitive_ordering l : transitive_ordering less_slot l.
Proof.
  exists (λ sl, sl.1).
  induction l as [|a l IH]; constructor; [|done].
  apply Forall_forall. intros b _. by split.
Qed.

Lemma sort_node_slots_sorted n n' :
  sort_node_slots n n' → sorted_by less_slot (Slots n').
Proof.
  intros (s' & [_ Hs] & ->). simpl. apply Hs, less_slot_transitive_ordering.
Qed.

Lemma sort_node_slots_fixed n :
  sorted_by less_slot (Slots n) → sort_node_slots n n.
Proof.
  intros Hs. exists (Slots n). split; [by apply sort_Slice_sorted|].
  by rewrite with_Slots_id.
Qed.

(** The nodes of a sorted topology have their slots sorted. *)
Lemma Topo_sort_slots_sorted l l' :
  Topo_sort l (Ok l') → Forall (λ n, sorted_by less_slot (Slots n)) l'.
Proof.
  intros (l1 & Hf & _ & [Hp _])%Topo_sort_inv. rewrite <- Hp. clear Hp.
  induction Hf as [|n n' ? ? Hn _ IH]; constructor;
    eauto using sort_node_slots_sorted.
Qed.

(** The canonical order of a topology: sorted slots in every node, and
    no node less than one that stands before it. *)
Lemma Topo_sort_sorted l l' :
  Topo_sort l (Ok l') →
  transitive_ordering less_node_total l' → sorted_by less_node_total l'.
Proof.
  intros (l1 & _ & _ & [Hp Hs])%Topo_sort_inv Ht. apply Hs.
  eapply transitive_ordering_perm; [symmetry|]; eassumption.
Qed.

Lemma FOP_StronglySorted {A} (R : A → A → Prop) l :
  ForallOrdPairs R l ↔ StronglySorted R l.
Proof.
  split; induction 1; constructor; auto.
Qed.



Lemma NoDup_fmap_elem {A B} (f : A → B) (l : list A) x y :
  NoDup (f <$> l) → x ∈ l → y ∈ l → f x = f y → x = y.
Proof.
  induction l as [|a l IH]; intros Hnd Hx Hy Hf; [by apply elem_of_nil in Hx|].
  rewrite fmap_cons in Hnd. apply NoDup_cons in Hnd as [Ha Hnd].
  apply elem_of_cons in Hx as [->|Hx]; apply elem_of_cons in Hy as [->|Hy].
  - done.
  - destruct Ha. rewrite Hf. apply list_elem_of_fmap. eauto.
  - destruct Ha. rewrite <- Hf. apply list_elem_of_fmap. eauto.
  - by apply IH.
Qed.









(** ** The order of a decoded topology *)

Lemma less_node_total_rank a b sa sb :
  head (Slots a) = Some sa → head (Slots b) = Some sb →
  (sa.1 = sb.1 → sa = sb) →
  (sa = sb → ¬ (SlaveOfAddr a = "" ∧ SlaveOfAddr b = "")) →
  less_node_total a b = bool_decide (node_rank a < node_rank b).
Proof.
  intros Ha Hb Hstart Hmaster. unfold less_node_total, less_node, node_rank.
  rewrite Ha, Hb.
  destruct (Slots a) as [|sa' ra]; [done|]. destruct (Slots b) as [|sb' rb]; [done|].
  simpl in Ha, Hb. injection Ha as ->. injection Hb as ->. simpl.
  destruct (decide (sa = sb)) as [->|Hne].
  - rewrite decide_False by (by intros ?).
    specialize (Hmaster eq_refl).
    destruct (decide (SlaveOfAddr a = "")) as [Ea|Ea],
             (decide (SlaveOfAddr b = "")) as [Eb|Eb].
    + destruct Hmaster. done.
    + rewrite bool_decide_eq_true_2 by done. symmetry.
      apply bool_decide_eq_true. lia.
    + rewrite bool_decide_eq_false_2 by done. symmetry.
      apply bool_decide_eq_false. lia.
    + rewrite bool_decide_eq_false_2 by done. symmetry.
      apply bool_decide_eq_false. lia.
  - rewrite decide_True by done.
    assert (sa.1 ≠ sb.1) by (intros ?; by apply Hne, Hstart).
    apply bool_decide_ext.
    destruct (decide (SlaveOfAddr a = "")), (decide (SlaveOfAddr b = "")); lia.
Qed.

Lemma one_master_per_start_ordering tt :
  Forall (λ n, Slots n ≠ []) tt →
  one_master_per_start tt →
  transitive_ordering less_node_total tt.
Proof.
  intros Hne H. exists node_rank. unfold one_master_per_start in H.
  induction H as [|a l Ha _ IH]; [constructor|].
  apply Forall_cons in Hne as [Hna Hne]. constructor; [|by apply IH].
  rewrite Forall_forall in Ha, Hne |- *. intros b Hb.
  specialize (Ha b Hb). specialize (Hne b Hb).
  destruct (Slots a) as [|sa ra] eqn:Ea; [done|].
  destruct (Slots b) as [|sb rb] eqn:Eb; [done|].
  destruct (Ha sa sb) as [H1 H2]; [done | done |].
  split.
  - apply (less_node_total_rank a b sa sb); [by rewrite Ea | by rewrite Eb | done..].
  - apply (less_node_total_rank b a sb sa); [by rewrite Eb | by rewrite Ea | |].
    + intros E. symmetry. apply H1. done.
    + intros -> [? ?]. by apply H2.
Qed.

(** C7. The tie-break of [Topo.sort] misses nodes whose first ranges
    start at the same slot and end differently.  On a reply with the
    entries 0-4 (a master) and 0-9 (the same master and a replica) the
    first ranges of master and replica both start at slot 0 and exactly
    one of the two nodes is a master, yet the decoder can return the
    replica before the master: the comparison holds the two nodes for
    equal in both directions, so [sort.Slice] leaves them in the order in
    which the map was iterated. *)
Lemma replica_before_master :
  Topo_UnmarshalRESP [] same_start_wire
    [same_start_replica; same_start_master] [] (Returned None) ∧
  SlaveOfAddr same_start_master = "" ∧
  SlaveOfAddr same_start_replica ≠ "" ∧
  (fst <$> head (Slots same_start_master)) = Some 0 ∧
  (fst <$> head (Slots same_start_replica)) = Some 0 ∧
  less_node same_start_master same_start_replica = Some false ∧
  less_node same_start_replica same_start_master = Some false.
Proof.
  split; [|done].
  eapply Unmarshal_ok with (ns := [same_start_replica; same_start_master]).
  - reflexivity.
  - lia.
  - vm_compute. reflexivity.
  - unfold map_range. vm_compute.
    first [reflexivity | apply perm_swap].
  - eapply Topo_sort_ok with (tt1 := [same_start_replica; same_start_master]).
    + repeat constructor; apply sort_node_slots_fixed; repeat constructor.
    + intros _. repeat constructor; done.
    + apply sort_Slice_sorted. repeat constructor.
Qed.

(** ** Round trip *)

Lemma node_strings_length n : (2 ≤ length (node_strings n))%nat.
Proof.
  unfold node_strings. destruct (SplitHostPort (Addr n)) as [[h p] e].
  case_decide; simpl; lia.
Qed.

Lemma node_of_node_strings n sl :
  addr_splits (Addr n) →
  node_of_strings (node_strings n) sl = mkNode (Addr n) (ID n) [sl] "" "".
Proof.
  unfold addr_splits, node_strings, node_of_strings.
  destruct (SplitHostPort (Addr n)) as [[h p] e]. simpl. intros Ha.
  destruct (decide (ID n = "")) as [Hid|Hid].
  - rewrite decide_False by (by intros ?). simpl. by rewrite Ha, Hid.
  - rewrite decide_True by done. simpl. by rewrite Ha.
Qed.

Lemma tss_items_wire tss : tss_items tss = slot_set_items (wire_of_tss tss).
Proof.
  unfold tss_items, slot_set_items, wire_of_tss, entries_items, node_items.
  simpl. rewrite length_fmap. by rewrite <- list_fmap_compose.
Qed.

Lemma wrap16_range z : 0 ≤ wrap16 z ≤ uint16_max.
Proof.
  unfold wrap16, uint16_max.
  pose proof (Z.mod_pos_bound z 65536). lia.
Qed.

Lemma wrap16_decr_incr z : is_uint16 z → wrap16 (wrap16 (z - 1) + 1) = z.
Proof.
  unfold is_uint16, uint16_max, wrap16. intros Hz.
  destruct (decide (z = 0)) as [->|Hnz]; [done|].
  rewrite (Z.mod_small (z - 1)) by lia.
  replace (z - 1 + 1) with z by lia. apply Z.mod_small. lia.
Qed.

Lemma wire_of_tss_wf tss :
  is_uint16 (slots tss).1 → wf_wire_slot_set (wire_of_tss tss).
Proof.
  intros H. unfold wf_wire_slot_set, wire_of_tss. simpl.
  split; [done|]. split; [apply wrap16_range|].
  apply Forall_fmap, Forall_forall. intros n _. apply node_strings_length.
Qed.

Lemma decoded_wire_of_tss tss :
  is_uint16 (slots tss).2 →
  Forall (λ t, addr_splits (Addr t)) (nodes tss) →
  match nodes tss with
  | [] => True
  | m :: reps =>
      SlaveOfAddr m = "" ∧ SlaveOfID m = "" ∧
      Forall (λ x, SlaveOfAddr x = Addr m ∧ SlaveOfID x = ID m) reps
  end →
  decoded_slot_set (wire_of_tss tss)
  = mkTSS (slots tss) ((λ t, with_Slots t [slots tss]) <$> nodes tss).
Proof.
  intros He Hsplit Hm. unfold decoded_slot_set, wire_of_tss. simpl.
  rewrite wrap16_decr_incr by done.
  destruct tss as [[s e] ns]. simpl in *. f_equal.
  destruct ns as [|m reps]; [done|].
  rewrite fmap_cons, nodes_from_master.
  apply Forall_cons in Hsplit as [Hsm Hsr].
  destruct Hm as (Hma & Hmi & Hreps).
  rewrite node_of_node_strings by done. simpl. f_equal.
  - unfold with_Slots. by rewrite Hma, Hmi.
  - rewrite <- list_fmap_compose. apply Forall_fmap_ext_1.
    rewrite Forall_forall in Hsr, Hreps |- *. intros x Hx. simpl.
    rewrite node_of_node_strings by auto.
    destruct (Hreps x Hx) as [Hxa Hxi].
    unfold with_SlaveOf, with_Slots. simpl. by rewrite Hxa, Hxi.
Qed.

Lemma owners_cons r t tt :
  owners r (t :: tt)
  = (filter (λ p, p.2 = r) ((λ sl, (t, sl)) <$> Slots t)).*1 ++ owners r tt.
Proof.
  unfold owners, slot_pairs. rewrite bind_cons, filter_app, fmap_app. done.
Qed.

Lemma owners_of_node (r : slot_range) (t : Node) (sl : list slot_range) :
  NoDup sl →
  (filter (λ p, p.2 = r) ((λ s, (t, s)) <$> sl)).*1
  = if decide (r ∈ sl) then [t] else [].
Proof.
  induction sl as [|s sl IH]; intros Hnd.
  - rewrite decide_False; [done | apply not_elem_of_nil].
  - apply NoDup_cons in Hnd as [Hs Hnd]. rewrite fmap_cons.
    destruct (decide (s = r)) as [->|Hne].
    + rewrite filter_cons_True by done. rewrite fmap_cons, IH by done.
      rewrite decide_False by done.
      rewrite decide_True; [done | by left].
    + rewrite filter_cons_False by done. rewrite IH by done.
      destruct (decide (r ∈ sl)) as [Hin|Hin].
      * rewrite decide_True; [done | by right].
      * rewrite decide_False; [done|].
        intros [->|?]%elem_of_cons; done.
Qed.

Lemma owners_filter r tt :
  Forall (λ t, NoDup (Slots t)) tt →
  owners r tt = filter (λ t, r ∈ Slots t) tt.
Proof.
  induction 1 as [|t tt Ht _ IH]; [done|].
  rewrite owners_cons, owners_of_node, IH by done.
  destruct (decide (r ∈ Slots t)).
  - by rewrite filter_cons_True.
  - by rewrite filter_cons_False.
Qed.

Lemma owners_elem r tt t : t ∈ owners r tt → t ∈ tt ∧ r ∈ Slots t.
Proof.
  unfold owners, slot_pairs. intros ([t' s] & -> & Hin)%list_elem_of_fmap.
  apply list_elem_of_filter in Hin as [Hr Hin]. simpl in *. subst s.
  apply list_elem_of_bind in Hin as (u & Hin & Hu).
  apply list_elem_of_fmap in Hin as (s & [= -> ->] & Hs). done.
Qed.

Lemma with_addr_fmap (f : Node → Node) a l :
  (∀ u, Addr (f u) = Addr u) →
  with_addr a (f <$> l) = f <$> with_addr a l.
Proof.
  intros Hf. unfold with_addr. induction l as [|u l IH]; [done|].
  rewrite fmap_cons. destruct (decide (Addr u = a)) as [Hu|Hu].
  - rewrite !filter_cons_True by (by rewrite ?Hf). by rewrite fmap_cons, IH.
  - rewrite !filter_cons_False by (by rewrite ?Hf). done.
Qed.

Section round_trip.
Variable tt : Topo.
Hypothesis Haddr : NoDup (Addr <$> tt).
Hypothesis Hnodes : Forall well_formed_node tt.

Lemma nodes_NoDup_Slots : Forall (λ t, NoDup (Slots t)) tt.
Proof. eapply Forall_impl; [exact Hnodes|]. by intros t (_ & ? & _). Qed.

Lemma with_addr_provisional t r :
t ∈ tt →
with_addr (Addr t) (provisional tt r)
= if decide (r ∈ Slots t) then [with_Slots t [r]] else [].
Proof.
intros Ht. unfold provisional. rewrite with_addr_fmap by done.
rewrite owners_filter by apply nodes_NoDup_Slots.
unfold with_addr. rewrite list_filter_filter.
rewrite (list_filter_iff _ (λ u, r ∈ Slots u ∧ Addr u = Addr t))
  by (intros u; tauto).
rewrite <- (list_filter_filter (λ u, r ∈ Slots u) (λ u, Addr u = Addr t)).
rewrite (filter_NoDup_fmap Addr tt t) by done.
destruct (decide (r ∈ Slots t)).
- by rewrite filter_cons_True.
- by rewrite filter_cons_False.
Qed.

Lemma with_addr_all t (R : list slot_range) :
t ∈ tt →
with_addr (Addr t) (R ≫= provisional tt)
= (λ r, with_Slots t [r]) <$> filter (λ r, r ∈ Slots t) R.
Proof.
intros Ht. induction R as [|r R IH]; [done|].
rewrite bind_cons. unfold with_addr in *. rewrite filter_app, IH.
fold (with_addr (Addr t) (provisional tt r)).
rewrite with_addr_provisional by done.
destruct (decide (r ∈ Slots t)).
- by rewrite filter_cons_True.
- by rewrite filter_cons_False.
Qed.

Lemma concat_singletons (l : list slot_range) (t : Node) :
concat (Slots <$> ((λ r, with_Slots t [r]) <$> l)) = l.
Proof. induction l as [|r l IH]; [done|]. simpl. by f_equal. Qed.

Lemma merged_all t (R : list slot_range) :
t ∈ tt → (∀ r, r ∈ Slots t → r ∈ R) →
merged (Addr t) (R ≫= provisional tt)
= Some (with_Slots t (filter (λ r, r ∈ Slots t) R)).
Proof.
intros Ht HR. unfold merged. rewrite with_addr_all by done.
rewrite concat_singletons.
destruct (filter (λ r, r ∈ Slots t) R) as [|r0 l] eqn:E; [|done].
exfalso. rewrite Forall_forall in Hnodes.
destruct (Hnodes t Ht) as (Hne & _).
destruct (Slots t) as [|s sl] eqn:Es; [done|].
assert (Hin : s ∈ filter (λ r, r ∈ s :: sl) R).
{ apply list_elem_of_filter. split; [by left|]. apply HR. by left. }
rewrite E in Hin. by apply elem_of_nil in Hin.
Qed.

Lemma filter_slots_perm t (R : list slot_range) :
t ∈ tt → NoDup R → (∀ r, r ∈ Slots t → r ∈ R) →
filter (λ r, r ∈ Slots t) R ≡ₚ Slots t.
Proof.
intros Ht HR Hsub. apply NoDup_Permutation.
- by apply NoDup_filter.
- pose proof nodes_NoDup_Slots as H. rewrite Forall_forall in H. by apply H.
- intros r. rewrite list_elem_of_filter. split; [by intros [? _] | auto].
Qed.

(** The values of the map of merged nodes are the nodes of the topology,
  up to the order of the nodes and of their slots. *)
Lemma merged_topo_equiv (R : list slot_range) ns :
NoDup R → (∀ r, r ∈ R ↔ ∃ t, t ∈ tt ∧ r ∈ Slots t) →
map_range (merge_slotSets ((λ r, mkTSS r (provisional tt r)) <$> R)) ns →
topo_equiv tt ns.
Proof.
intros HR Hranges Hns.
assert (Hall : all_nodes ((λ r, mkTSS r (provisional tt r)) <$> R)
               = R ≫= provisional tt).
{ unfold all_nodes. rewrite <- list_fmap_compose.
  clear. induction R as [|r R IH]; [done|].
  rewrite fmap_cons, bind_cons. simpl. by rewrite IH. }
set (g := λ t, with_Slots t (filter (λ r, r ∈ Slots t) R)).
assert (Hmerged : ∀ t, t ∈ tt → merged (Addr t) (R ≫= provisional tt) = Some (g t)).
{ intros t Ht. apply merged_all; [done|]. intros r Hr. apply Hranges. eauto. }
exists (g <$> tt). split.
- apply Forall2_fmap_r, Forall_Forall2_diag, Forall_forall.
  intros t Ht. repeat split; try done. simpl. symmetry.
  apply filter_slots_perm; [done..|]. intros r Hr. apply Hranges. eauto.
- apply NoDup_Permutation.
  + apply (NoDup_fmap_1 Addr). by rewrite <- list_fmap_compose.
  + apply (NoDup_fmap_1 Addr). by eapply merged_range_NoDup.
  + intros n'. rewrite (merged_range_elem _ _ _ Hns), Hall.
    rewrite list_elem_of_fmap. split.
    * intros (t & -> & Ht). simpl. by apply Hmerged.
    * intros Hm. pose proof Hm as (first & Hh & _)%merged_Some.
      apply head_with_addr in Hh as [Hfa Hfin].
      apply list_elem_of_bind in Hfin as (r & Hfin & _).
      unfold provisional in Hfin.
      apply list_elem_of_fmap in Hfin as (t & -> & Ht).
      apply owners_elem in Ht as [Ht _]. simpl in Hfa.
      exists t. split; [|done].
      rewrite <- Hfa, (Hmerged t Ht) in Hm. by injection Hm.
Qed.
End round_trip.

(** C1, as amended.  For a topology with unique addresses whose nodes
    each own at least one range, list no range twice, have 16-bit bounds
    and an address that [net.SplitHostPort] splits into the host and port
    it is joined from, and in which the first owner of every range is a
    master and the other owners are its replicas: the encoder writes
    without error, the decoder reads all of what was written into an
    empty receiver without error, and what it returns is a canonical sort
    of the topology. *)
Theorem round_trip tt out tt' br' o :
  NoDup (Addr <$> tt) →
  Forall well_formed_node tt →
  master_first tt →
  Topo_MarshalRESP tt [] out →
  Topo_UnmarshalRESP [] out.1 tt' br' o →
  out.2 = None ∧ o = Returned None ∧ br' = [] ∧ Topo_sort tt (Ok tt').
Proof.
  intros Haddr Hnodes Hmaster Henc Hdec.
  destruct Henc as (l & allTSS & Hr & [Hp _] & ->).
  apply slot_buckets_range in Hr as [Hslots Hown].
  rewrite marshal_sorted_items in Hdec |- *. cbn [fst snd app] in Hdec |- *.
  split; [done|].
  assert (Hown' : Forall (λ tss, nodes tss = owners (slots tss) tt) allTSS).
  { by rewrite <- Hp. }
  assert (HR : slots <$> allTSS ≡ₚ remove_dups (tt ≫= Slots)).
  { by rewrite <- Hp. }
  assert (Hranges : ∀ r, r ∈ slots <$> allTSS ↔ ∃ t, t ∈ tt ∧ r ∈ Slots t).
  { intros r. rewrite HR, elem_of_remove_dups, list_elem_of_bind.
    split; intros (t & ? & ?); eauto. }
  assert (Hnd : NoDup (slots <$> allTSS)).
  { rewrite HR. apply NoDup_remove_dups. }
  assert (Huint : ∀ tss, tss ∈ allTSS →
            is_uint16 (slots tss).1 ∧ is_uint16 (slots tss).2).
  { intros tss Htss.
    destruct (proj1 (Hranges (slots tss))) as (t & Ht & Hin).
    { apply list_elem_of_fmap. eauto. }
    rewrite Forall_forall in Hnodes. destruct (Hnodes t Ht) as (_ & _ & Hu & _).
    rewrite Forall_forall in Hu. by apply Hu. }
  assert (Hwire : concat (tss_items <$> allTSS)
                  = slot_sets_items (wire_of_tss <$> allTSS) ++ []).
  { rewrite app_nil_r. unfold slot_sets_items. f_equal.
    rewrite <- list_fmap_compose. apply Forall_fmap_ext_1, Forall_forall.
    intros tss _. apply tss_items_wire. }
  rewrite Hwire in Hdec.
  replace (Z.of_nat (length allTSS))
    with (Z.of_nat (length (wire_of_tss <$> allTSS))) in Hdec
    by (by rewrite length_fmap).
  apply Topo_UnmarshalRESP_wf_inv in Hdec as (-> & -> & ns & Hns & Hsort).
  2: { apply Forall_fmap, Forall_forall. intros tss Htss.
       apply wire_of_tss_wf. by apply Huint. }
  2: { constructor. }
  split; [done|]. split; [done|]. simpl in Hsort.
  assert (Hdecoded : decoded_slot_set <$> (wire_of_tss <$> allTSS)
                     = (λ r, mkTSS r (provisional tt r)) <$> (slots <$> allTSS)).
  { rewrite <- !list_fmap_compose. apply Forall_fmap_ext_1.
    rewrite Forall_forall in Hown' |- *. intros tss Htss. simpl.
    specialize (Hown' tss Htss).
    rewrite decoded_wire_of_tss.
    - unfold provisional. by rewrite Hown'.
    - by apply Huint.
    - rewrite Hown'. apply Forall_forall. intros t [Ht _]%owners_elem.
      rewrite Forall_forall in Hnodes. by destruct (Hnodes t Ht) as (_&_&_&?).
    - rewrite Hown'. unfold master_first in Hmaster.
      rewrite Forall_forall in Hmaster. apply Hmaster.
      destruct (proj1 (Hranges (slots tss))) as (t & Ht & Hin);
        [apply list_elem_of_fmap; eauto|].
      apply list_elem_of_bind. eauto. }
  rewrite Hdecoded in Hns.
  eapply Topo_sort_proper; [|exact Hsort].
  apply topo_equiv_sym. by eapply merged_topo_equiv.
Qed.

Lemma round_trip_witness :
  Topo_MarshalRESP three_range_topo [] (Topo_MarshalRESP_run three_range_topo []) ∧
  Topo_UnmarshalRESP [] (Topo_MarshalRESP_run three_range_topo []).1
    [mkNode "127.0.0.1:7000" "id-a" [(0, 5461); (10923, 16384)] "" "";
     mkNode "127.0.0.1:7001" "" [(0, 5461)] "127.0.0.1:7000" "id-a";
     mkNode "127.0.0.1:7002" "id-c" [(5461, 10923)] "" ""]
    [] (Returned None) ∧
  Topo_sort three_range_topo
    (Ok [mkNode "127.0.0.1:7000" "id-a" [(0, 5461); (10923, 16384)] "" "";
         mkNode "127.0.0.1:7001" "" [(0, 5461)] "127.0.0.1:7000" "id-a";
         mkNode "127.0.0.1:7002" "id-c" [(5461, 10923)] "" ""]).
Proof.
  pose proof (Topo_MarshalRESP_run_admissible three_range_topo []) as Henc.
  assert (Hdec : Topo_UnmarshalRESP []
            (Topo_MarshalRESP_run three_range_topo []).1
            [mkNode "127.0.0.1:7000" "id-a" [(0, 5461); (10923, 16384)] "" "";
             mkNode "127.0.0.1:7001" "" [(0, 5461)] "127.0.0.1:7000" "id-a";
             mkNode "127.0.0.1:7002" "id-c" [(5461, 10923)] "" ""]
            [] (Returned None)).
  { apply Topo_UnmarshalRESP_run_admissible. vm_compute. reflexivity. }
  split; [exact Henc|]. split; [exact Hdec|].
  refine (proj2 (proj2 (proj2
            (round_trip three_range_topo _ _ _ _ _ _ _ Henc Hdec)))).
  - compute_done.
  - unfold three_range_topo, well_formed_node, is_uint16, uint16_max, addr_splits.
    repeat first [apply Forall_cons_2 | apply Forall_nil_2]; simpl;
      (split; [done|]; split; [compute_done|];
       split; [repeat constructor; simpl; lia | vm_compute; reflexivity]).
  - unfold master_first. apply Forall_forall. intros r Hr.
    vm_compute in Hr.
    repeat (apply elem_of_cons in Hr as [->|Hr]);
      try (by apply elem_of_nil in Hr); vm_compute; repeat constructor.
Defined.

Lemma Topo_sort_elem l l' n :
  Topo_sort l (Ok l') → n ∈ l → ∃ n', n' ∈ l' ∧ node_equiv n n'.
Proof.
  intros (l1 & Hf & Hp)%Topo_sort_topo_equiv Hn.
  apply list_elem_of_lookup in Hn as [k Hk].
  destruct (Forall2_lookup_l _ _ _ _ _ Hf Hk) as (n' & Hk' & Heq).
  exists n'. split; [|done]. rewrite <- Hp. by eapply list_elem_of_lookup_2.
Qed.

(** C1, as stated, fails.  A replica that stands before its master in
    the topology comes back as the master; a node without slots is not
    written at all; an address in brackets comes back without them. *)
Lemma round_trip_fails :
  round_trip_broken replica_first_topo ∧
  round_trip_broken no_slots_topo ∧
  round_trip_broken bracket_addr_topo.
Proof.
  split; [|split].
  - split; [compute_done|]. split; [repeat constructor|].
    exists (Topo_MarshalRESP_run replica_first_topo []),
      [mkNode "10.0.0.2:7000" "id-r" [(0, 100)] "" "";
       mkNode "10.0.0.1:7000" "id-m" [(0, 100)] "10.0.0.2:7000" "id-r"].
    split; [apply Topo_MarshalRESP_run_admissible|]. split.
    + apply Topo_UnmarshalRESP_run_admissible. vm_compute. reflexivity.
    + intros H.
      destruct (Topo_sort_elem _ _
                  (mkNode "10.0.0.2:7000" "id-r" [(0, 100)] "10.0.0.1:7000" "id-m") H)
        as (n' & Hin & (_ & _ & Hsa & _)); [by left|].
      apply elem_of_cons in Hin as [->|Hin]; [done|].
      apply elem_of_cons in Hin as [->|Hin]; [done|].
      by apply elem_of_nil in Hin.
  - split; [compute_done|]. split; [repeat constructor|].
    exists (Topo_MarshalRESP_run no_slots_topo []), [].
    split; [apply Topo_MarshalRESP_run_admissible|]. split.
    + apply Topo_UnmarshalRESP_run_admissible. vm_compute. reflexivity.
    + intros H%Topo_sort_length. done.
  - split; [compute_done|]. split; [repeat constructor|].
    exists (Topo_MarshalRESP_run bracket_addr_topo []),
      [mkNode "::1:7000" "" [(0, 100)] "" ""].
    split; [apply Topo_MarshalRESP_run_admissible|]. split.
    + apply Topo_UnmarshalRESP_run_admissible. vm_compute. reflexivity.
    + intros H.
      destruct (Topo_sort_elem _ _
                  (mkNode "[::1]:7000" "" [(0, 100)] "" "") H)
        as (n' & Hin & (Ha & _)); [by left|].
      apply elem_of_cons in Hin as [->|Hin]; [done|].
      by apply elem_of_nil in Hin.
Qed.

(** * Further properties *)

(** ** [Topo.Map] *)

Lemma Topo_Map_fold_lookup l :
  ∀ (m : gmap string Node) a,
    fold_left (λ m t, <[Addr t := t]> m) l m !! a
    = match last (with_addr a l) with
      | Some n => Some n
      | None => m !! a
      end.
Proof.
  induction l as [|t l IH]; intros m a; [done|].
  simpl. rewrite IH. unfold with_addr.
  destruct (decide (Addr t = a)) as [<-|Hne].
  - rewrite filter_cons_True by done. rewrite last_cons.
    destruct (last (filter (λ n, Addr n = Addr t) l)); [done|].
    by rewrite lookup_insert_eq.
  - rewrite filter_cons_False by done.
    destruct (last (filter (λ n, Addr n = a) l)); [done|].
    by rewrite lookup_insert_ne.
Qed.

Lemma Topo_Map_last tt a : Topo_Map tt !! a = last (with_addr a tt).
Proof.
  unfold Topo_Map. rewrite Topo_Map_fold_lookup, lookup_empty.
  by destruct (last (with_addr a tt)).
Qed.

Lemma Topo_Map_None tt a :
  Topo_Map tt !! a = None ↔ ∀ n, n ∈ tt → Addr n ≠ a.
Proof.
  rewrite Topo_Map_last. split.
  - intros Hl n Hn Ha.
    assert (Hin : n ∈ with_addr a tt) by (by apply list_elem_of_filter).
    destruct (with_addr a tt) as [|x l] eqn:E; [by apply elem_of_nil in Hin|].
    assert (Hs : is_Some (last (x :: l))) by (by apply last_is_Some).
    rewrite Hl in Hs. by destruct Hs.
  - intros Hno. destruct (last (with_addr a tt)) as [n|] eqn:E; [|done].
    apply last_Some_elem_of in E. unfold with_addr in E.
    apply list_elem_of_filter in E as [Ha Hn]. by destruct (Hno n Hn).
Qed.

(** X1. The map returned by [Topo.Map] holds, under an address, the last
    node of the topology that has this address, and nothing under an
    address that no node has. *)
Theorem Topo_Map_lookup tt a :
  Topo_Map tt !! a = last (with_addr a tt) ∧
  (Topo_Map tt !! a = None ↔ ∀ n, n ∈ tt → Addr n ≠ a).
Proof. split; [apply Topo_Map_last | apply Topo_Map_None]. Qed.

Lemma Topo_Map_snoc tt t :
  Topo_Map (tt ++ [t]) = <[Addr t := t]> (Topo_Map tt).
Proof. unfold Topo_Map. by rewrite fold_left_app. Qed.

Lemma Topo_Map_NoDup_lookup tt n :
  NoDup (Addr <$> tt) → n ∈ tt ↔ Topo_Map tt !! Addr n = Some n.
Proof.
  intros Hnd. rewrite Topo_Map_last. split.
  - intros Hn. unfold with_addr. by rewrite (filter_NoDup_fmap Addr tt n).
  - intros Hl%last_Some_elem_of. unfold with_addr in Hl.
    by apply list_elem_of_filter in Hl as [_ ?].
Qed.

Lemma Topo_Map_NoDup_size tt :
  NoDup (Addr <$> tt) → size (Topo_Map tt) = length tt.
Proof.
  intros Hnd. induction tt as [|t tt IH] using rev_ind; [done|].
  rewrite fmap_app in Hnd. apply NoDup_app in Hnd as (Hnd & Hfresh & _).
  rewrite Topo_Map_snoc, length_app.
  rewrite map_size_insert_None; [rewrite IH by done; simpl; lia|].
  apply Topo_Map_None. intros n Hn Ha.
  apply (Hfresh (Addr t)); [|by left].
  rewrite <- Ha. apply list_elem_of_fmap. eauto.
Qed.

(** X2. When the addresses of a topology are unique, [Topo.Map] holds
    every node under its address and nothing else: it has as many entries
    as the topology has nodes. *)
Theorem Topo_Map_unique_addresses tt :
  NoDup (Addr <$> tt) →
  (∀ n, n ∈ tt ↔ Topo_Map tt !! Addr n = Some n) ∧
  size (Topo_Map tt) = length tt.
Proof.
  intros Hnd. split.
  - intros n. by apply Topo_Map_NoDup_lookup.
  - by apply Topo_Map_NoDup_size.
Qed.

Lemma Topo_Map_unique_addresses_witness :
  NoDup (Addr <$> two_slot_sets_topo) ∧
  size (Topo_Map two_slot_sets_topo) = 3%nat.
Proof.
  assert (H : NoDup (Addr <$> two_slot_sets_topo)) by compute_done.
  split; [exact H|].
  exact (proj2 (Topo_Map_unique_addresses two_slot_sets_topo H)).
Defined.

(** X3. With unique addresses [Topo.Map] does not depend on the order of
    the nodes. *)
Theorem Topo_Map_order tt tt' :
  NoDup (Addr <$> tt) → tt ≡ₚ tt' → Topo_Map tt = Topo_Map tt'.
Proof.
  intros Hnd Hp. apply map_eq. intros a.
  rewrite (Topo_Map_last tt a), (Topo_Map_last tt' a).
  assert (Hw : with_addr a tt ≡ₚ with_addr a tt').
  { unfold with_addr. by rewrite Hp. }
  destruct (with_addr a tt) as [|n l] eqn:E.
  - by apply Permutation_nil in Hw as ->.
  - assert (Hn : n ∈ tt ∧ Addr n = a).
    { assert (Hin : n ∈ with_addr a tt) by (rewrite E; by left).
      unfold with_addr in Hin. by apply list_elem_of_filter in Hin as [? ?]. }
    destruct Hn as [Hn <-]. unfold with_addr in E.
    rewrite (filter_NoDup_fmap Addr tt n) in E by done.
    injection E as <-. by apply Permutation_singleton_l in Hw as ->.
Qed.

Lemma Topo_Map_order_witness :
  NoDup (Addr <$> two_slot_sets_topo) ∧
  two_slot_sets_topo ≡ₚ reverse two_slot_sets_topo ∧
  Topo_Map two_slot_sets_topo = Topo_Map (reverse two_slot_sets_topo).
Proof.
  assert (H : NoDup (Addr <$> two_slot_sets_topo)) by compute_done.
  assert (Hp : two_slot_sets_topo ≡ₚ reverse two_slot_sets_topo).
  { symmetry. apply reverse_Permutation. }
  split; [exact H|]. split; [exact Hp|].
  exact (Topo_Map_order _ _ H Hp).
Defined.

(** ** Invariants of the decoder *)

Lemma topo_equiv_Addr l l' : topo_equiv l l' → Addr <$> l ≡ₚ Addr <$> l'.
Proof.
  intros (l1 & Hf & Hp). rewrite <- Hp. clear Hp.
  induction Hf as [|x y ? ? [Hxy _] _ IH]; [done|].
  rewrite !fmap_cons, Hxy. by constructor.
Qed.

(** X4. A successful decode into an empty receiver returns nodes with
    pairwise distinct addresses, so that [Topo.Map] of the result holds
    every node of it under its address. *)
Theorem decoded_addresses_unique br tt' br' :
  Topo_UnmarshalRESP [] br tt' br' (Returned None) →
  NoDup (Addr <$> tt') ∧
  size (Topo_Map tt') = length tt' ∧
  ∀ n, n ∈ tt' → Topo_Map tt' !! Addr n = Some n.
Proof.
  intros H.
  inversion H as [| | |? n ? slotSets ns ? Hh Hn Hs Hr Hsort|]; subst.
  simpl in Hsort.
  assert (Hnd : NoDup (Addr <$> tt')).
  { rewrite <- (topo_equiv_Addr _ _ (Topo_sort_topo_equiv _ _ Hsort)).
    by eapply merged_range_NoDup. }
  split; [done|].
  split; [by apply Topo_Map_NoDup_size|].
  intros nd Hnd'. by apply Topo_Map_NoDup_lookup.
Qed.

Lemma decoded_addresses_unique_witness :
  Topo_UnmarshalRESP [] two_slot_sets_wire two_slot_sets_topo []
    (Returned None) ∧
  NoDup (Addr <$> two_slot_sets_topo).
Proof.
  assert (H : Topo_UnmarshalRESP [] two_slot_sets_wire two_slot_sets_topo []
                (Returned None)).
  { apply Topo_UnmarshalRESP_run_admissible. vm_compute. reflexivity. }
  split; [exact H|].
  exact (proj1 (decoded_addresses_unique _ _ _ H)).
Defined.

Lemma addr_ranges_cons n l :
  addr_ranges (n :: l) = ((λ sl, (Addr n, sl)) <$> Slots n) ++ addr_ranges l.
Proof. done. Qed.

Lemma addr_ranges_app l k : addr_ranges (l ++ k) = addr_ranges l ++ addr_ranges k.
Proof. unfold addr_ranges. apply bind_app. Qed.

Lemma addr_ranges_perm l k : l ≡ₚ k → addr_ranges l ≡ₚ addr_ranges k.
Proof. intros Hp. unfold addr_ranges. by rewrite Hp. Qed.

Lemma addr_ranges_equiv l l' : topo_equiv l l' → addr_ranges l ≡ₚ addr_ranges l'.
Proof.
  intros (l1 & Hf & Hp). rewrite <- (addr_ranges_perm _ _ Hp). clear Hp.
  induction Hf as [|x y ? ? (Ha & _ & _ & _ & Hs) _ IH]; [done|].
  rewrite !addr_ranges_cons, Ha, Hs. by apply Permutation_app.
Qed.

Lemma merge_node_keys (m : gmap string Node) n :
  (∀ k v, m !! k = Some v → Addr v = k) →
  ∀ k v, merge_node m n !! k = Some v → Addr v = k.
Proof.
  intros Hm k v. unfold merge_node.
  destruct (m !! Addr n) as [e|] eqn:E.
  - destruct (decide (Addr n = k)) as [<-|Hne].
    + rewrite lookup_insert_eq. intros [= <-]. simpl. by apply Hm.
    + rewrite lookup_insert_ne by done. apply Hm.
  - destruct (decide (Addr n = k)) as [<-|Hne].
    + rewrite lookup_insert_eq. by intros [= <-].
    + rewrite lookup_insert_ne by done. apply Hm.
Qed.

Lemma merge_node_addr_ranges (m : gmap string Node) n :
  (∀ k v, m !! k = Some v → Addr v = k) →
  addr_ranges (map_to_list (merge_node m n)).*2
  ≡ₚ addr_ranges (map_to_list m).*2 ++ addr_ranges [n].
Proof.
  intros Hm. unfold merge_node.
  destruct (m !! Addr n) as [e|] eqn:E.
  - pose proof (Hm _ _ E) as He.
    rewrite <- insert_delete_eq.
    rewrite (addr_ranges_perm _ _
               (fmap_Permutation snd _ _
                  (map_to_list_insert (delete (Addr n) m) (Addr n) _
                     (lookup_delete_eq m (Addr n))))).
    rewrite <- (addr_ranges_perm _ _
                  (fmap_Permutation snd _ _ (map_to_list_delete m (Addr n) e E))).
    rewrite !fmap_cons, !addr_ranges_cons. simpl.
    rewrite fmap_app, He, app_nil_r.
    rewrite <- !app_assoc. apply Permutation_app_head, Permutation_app_comm.
  - rewrite (addr_ranges_perm _ _
               (fmap_Permutation snd _ _ (map_to_list_insert m (Addr n) n E))).
    rewrite fmap_cons, !addr_ranges_cons. simpl. rewrite app_nil_r.
    apply Permutation_app_comm.
Qed.

Lemma merge_nodes_addr_ranges ns :
  ∀ m : gmap string Node,
    (∀ k v, m !! k = Some v → Addr v = k) →
    addr_ranges (map_to_list (fold_left merge_node ns m)).*2
    ≡ₚ addr_ranges (map_to_list m).*2 ++ addr_ranges ns.
Proof.
  induction ns as [|n ns IH]; intros m Hm; simpl.
  - by rewrite app_nil_r.
  - rewrite IH by (by apply merge_node_keys).
    rewrite merge_node_addr_ranges by done.
    rewrite <- app_assoc. apply Permutation_app_head.
    by rewrite addr_ranges_cons, app_nil_r.
Qed.

Lemma decoded_slot_sets_addr_ranges sets :
  addr_ranges (all_nodes (decoded_slot_set <$> sets)) = wire_addr_ranges sets.
Proof.
  unfold all_nodes, wire_addr_ranges.
  induction sets as [|s sets IH]; [done|].
  rewrite !fmap_cons, bind_cons. simpl concat. rewrite addr_ranges_app, IH.
  f_equal. unfold decoded_slot_set. simpl.
  generalize (s.1.1, wrap16 (s.1.2 + 1)). intros sl.
  generalize 0 Node_zero. generalize (s.2). clear.
  induction l as [|e l IH]; intros i masterNode; [done|].
  rewrite fmap_cons. cbn [nodes_from].
  case_decide; rewrite addr_ranges_cons, IH; done.
Qed.

(** X5. The decoder neither loses nor invents ownership: on well-formed
    input, the pairs of an address and a range held by the nodes it
    returns are those of the node entries of the input, one range for
    each node entry. *)
Theorem decode_conserves_ownership sets rest tt' br' o :
  Forall wf_wire_slot_set sets →
  Topo_UnmarshalRESP []
    (ArrayHeader (Z.of_nat (length sets)) :: slot_sets_items sets ++ rest)
    tt' br' o →
  o = Returned None ∧
  addr_ranges tt' ≡ₚ wire_addr_ranges sets ∧
  length (tt' ≫= Slots) = length (sets ≫= snd).
Proof.
  intros Hwf H.
  apply Topo_UnmarshalRESP_wf_inv in H as (-> & _ & ns & Hr & Hsort);
    [|done|constructor].
  split; [done|]. simpl in Hsort.
  assert (Hown : addr_ranges tt' ≡ₚ wire_addr_ranges sets).
  { rewrite <- (addr_ranges_equiv _ _ (Topo_sort_topo_equiv _ _ Hsort)).
    unfold map_range in Hr. rewrite (addr_ranges_perm _ _ Hr).
    unfold merge_slotSets. rewrite merge_slotSets_flat.
    rewrite merge_nodes_addr_ranges by (intros k v; by rewrite lookup_empty).
    rewrite map_to_list_empty. simpl.
    by rewrite decoded_slot_sets_addr_ranges. }
  split; [done|].
  transitivity (length (addr_ranges tt')).
  - unfold addr_ranges. clear. induction tt' as [|t l IH]; [done|].
    rewrite !bind_cons, !length_app, length_fmap. by rewrite IH.
  - rewrite Hown. unfold wire_addr_ranges. clear.
    induction sets as [|s l IH]; [done|].
    rewrite !bind_cons, !length_app, length_fmap. by rewrite IH.
Qed.

Lemma decode_conserves_ownership_witness :
  Forall wf_wire_slot_set merge_wire_sets ∧
  Topo_UnmarshalRESP []
    (ArrayHeader (Z.of_nat (length merge_wire_sets))
       :: slot_sets_items merge_wire_sets ++ [])
    merge_topo [] (Returned None) ∧
  addr_ranges merge_topo ≡ₚ wire_addr_ranges merge_wire_sets.
Proof.
  assert (Hwf : Forall wf_wire_slot_set merge_wire_sets).
  { repeat constructor; simpl; unfold uint16_max; lia. }
  assert (H : Topo_UnmarshalRESP []
                (ArrayHeader (Z.of_nat (length merge_wire_sets))
                   :: slot_sets_items merge_wire_sets ++ [])
                merge_topo [] (Returned None)).
  { apply Topo_UnmarshalRESP_run_admissible. vm_compute. reflexivity. }
  split; [exact Hwf|]. split; [exact H|].
  exact (proj1 (proj2 (decode_conserves_ownership _ _ _ _ _ Hwf H))).
Defined.

(** ** What [Topo.sort] keeps *)

(** X6. When [Topo.sort] returns, the topology holds the same nodes as
    before, with the same address, id, slave-of fields and slots, in some
    order; and in every node the slots stand in ascending order of their
    start. *)
Theorem Topo_sort_keeps_nodes tt tt' :
  Topo_sort tt (Ok tt') →
  length tt' = length tt ∧
  topo_equiv tt tt' ∧
  ∀ n' i j ri rj,
    n' ∈ tt' → (i < j)%nat →
    Slots n' !! i = Some ri → Slots n' !! j = Some rj → ri.1 ≤ rj.1.
Proof.
  intros H. split; [by apply Topo_sort_length|].
  split; [by apply Topo_sort_topo_equiv|].
  intros n' i j ri rj Hn Hij Hi Hj.
  pose proof (Topo_sort_slots_sorted _ _ H) as Hs.
  rewrite Forall_forall in Hs. specialize (Hs n' Hn).
  pose proof (FOP_lookup _ _ _ _ _ _ Hs Hij Hi Hj) as Hlt. simpl in Hlt.
  unfold less_slot in Hlt. apply bool_decide_eq_false in Hlt. lia.
Qed.

Lemma Topo_sort_keeps_nodes_witness :
  Topo_sort (reverse three_range_topo)
    (Ok [mkNode "127.0.0.1:7000" "id-a" [(0, 5461); (10923, 16384)] "" "";
         mkNode "127.0.0.1:7001" "" [(0, 5461)] "127.0.0.1:7000" "id-a";
         mkNode "127.0.0.1:7002" "id-c" [(5461, 10923)] "" ""]) ∧
  length [mkNode "127.0.0.1:7000" "id-a" [(0, 5461); (10923, 16384)] "" "";
          mkNode "127.0.0.1:7001" "" [(0, 5461)] "127.0.0.1:7000" "id-a";
          mkNode "127.0.0.1:7002" "id-c" [(5461, 10923)] "" ""]
  = length (reverse three_range_topo).
Proof.
  assert (H : Topo_sort (reverse three_range_topo)
    (Ok [mkNode "127.0.0.1:7000" "id-a" [(0, 5461); (10923, 16384)] "" "";
         mkNode "127.0.0.1:7001" "" [(0, 5461)] "127.0.0.1:7000" "id-a";
         mkNode "127.0.0.1:7002" "id-c" [(5461, 10923)] "" ""])).
  { pose proof (Topo_sort_run_admissible (reverse three_range_topo)) as Hr.
    vm_compute in Hr. exact Hr. }
  split; [exact H|].
  exact (proj1 (Topo_sort_keeps_nodes _ _ H)).
Defined.

(** ** Edge cases of the decoder *)

Lemma map_range_empty `{Countable K} {V} (ns : list V) :
  map_range (∅ : gmap K V) ns → ns = [].
Proof.
  unfold map_range. rewrite map_to_list_empty. simpl.
  intros Hp. by apply Permutation_nil.
Qed.

(** X7. An empty array does not clear the receiver: the decoder reads the
    header only and sorts the nodes that the receiver holds; nothing is
    added, and an empty receiver stays empty. *)
Theorem decode_empty_array tt br tt' br' o :
  Topo_UnmarshalRESP tt (ArrayHeader 0 :: br) tt' br' o →
  br' = br ∧
  match o with
  | Returned None => Topo_sort tt (Ok tt')
  | Returned (Some _) => False
  | Panicked => Topo_sort tt Panic
  end ∧
  (tt = [] → o = Returned None ∧ tt' = []).
Proof.
  intros H.
  inversion H as [? ? Hh|? n Hh Hn|? n ? ? Hh Hn Hs
                  |? n ? slotSets ns ? Hh Hn Hs Hr Hsort
                  |? n ? slotSets ns Hh Hn Hs Hr Hp]; subst;
    simpl in Hh; try done; injection Hh as <- <-; try lia;
    simpl in Hs; try done; injection Hs as <- <-;
    apply map_range_empty in Hr as ->; rewrite app_nil_r in *.
  - split; [done|]. split; [done|]. intros ->. split; [done|].
    apply Topo_sort_length in Hsort. by destruct tt'.
  - split; [done|]. split; [done|]. intros ->.
    inversion Hp as [|Hl _]. simpl in Hl. lia.
Qed.

Lemma decode_empty_array_witness :
  Topo_UnmarshalRESP (reverse two_slot_sets_topo) [ArrayHeader 0]
    two_slot_sets_topo [] (Returned None) ∧
  Topo_sort (reverse two_slot_sets_topo) (Ok two_slot_sets_topo).
Proof.
  assert (H : Topo_UnmarshalRESP (reverse two_slot_sets_topo) [ArrayHeader 0]
                two_slot_sets_topo [] (Returned None)).
  { apply Topo_UnmarshalRESP_run_admissible. vm_compute. reflexivity. }
  split; [exact H|].
  exact (proj1 (proj2 (decode_empty_array _ _ _ _ _ H))).
Defined.

(** X8. A node without slots in the receiver makes the decoder panic, on
    any well-formed input, as soon as the receiver and the input together
    hold two nodes: [Topo.sort] then reads [Slots[0]] of that node. *)
Theorem decode_with_slotless_node tt sets rest n0 tt' br' o :
  Forall wf_wire_slot_set sets →
  n0 ∈ tt → Slots n0 = [] →
  (2 ≤ length tt)%nat ∨ Exists (λ s : wire_slot_set, s.2 ≠ []) sets →
  Topo_UnmarshalRESP tt
    (ArrayHeader (Z.of_nat (length sets)) :: slot_sets_items sets ++ rest)
    tt' br' o →
  o = Panicked.
Proof.
  intros Hwf Hn0 Hs0 Htwo H.
  pose proof (unmarshal_slotSets_items sets rest Hwf) as Hitems.
  inversion H as [? ? Hh|? n Hh Hn|? n ? ? Hh Hn Hs
                  |? n ? slotSets ns ? Hh Hn Hs Hr Hsort
                  |? n ? slotSets ns Hh Hn Hs Hr Hp]; subst;
    simpl in Hh; try done; injection Hh as <- <-; try lia;
    rewrite Nat2Z.id in Hs; rewrite Hitems in Hs; try done;
    injection Hs as <- <-.
  exfalso. apply Topo_sort_inv in Hsort as (l1 & _ & Hg & _).
  assert (Hlen : (2 ≤ length (tt ++ ns))%nat).
  { rewrite length_app. destruct Htwo as [?|Hex]; [lia|].
    assert (1 ≤ length tt)%nat.
    { destruct tt; [by apply elem_of_nil in Hn0 | simpl; lia]. }
    assert (1 ≤ length ns)%nat; [|lia].
    apply Exists_exists in Hex as (s & Hs & He).
    destruct (s.2) as [|e es] eqn:Es; [done|].
    destruct (nodes_from_elem 0 Node_zero (s.1.1, wrap16 (s.1.2 + 1)) s.2 e)
      as (nd & Hnd & _); [rewrite Es; by left|].
    assert (Hall : nd ∈ all_nodes (decoded_slot_set <$> sets)).
    { apply (elem_of_all_nodes _ (decoded_slot_set s)); [|done].
      apply list_elem_of_fmap. eauto. }
    destruct (merged_is_Some (Addr nd) _ nd Hall eq_refl) as [n' Hn'].
    assert (Hin : n' ∈ ns).
    { apply (merged_range_elem _ _ _ Hr).
      by rewrite (merged_Addr _ _ _ Hn'). }
    destruct ns; [by apply elem_of_nil in Hin | simpl; lia]. }
  specialize (Hg Hlen). rewrite Forall_forall in Hg.
  apply (Hg n0); [|done]. apply elem_of_app. by left.
Qed.

Lemma decode_with_slotless_node_witness :
  Forall wf_wire_slot_set merge_wire_sets ∧
  mkNode "10.0.0.1:7000" "id-m" [] "" "" ∈ no_slots_topo ∧
  Topo_UnmarshalRESP no_slots_topo
    (ArrayHeader (Z.of_nat (length merge_wire_sets))
       :: slot_sets_items merge_wire_sets ++ [])
    (Topo_UnmarshalRESP_run no_slots_topo
       (ArrayHeader (Z.of_nat (length merge_wire_sets))
          :: slot_sets_items merge_wire_sets ++ [])).1.1
    [] Panicked.
Proof.
  assert (Hwf : Forall wf_wire_slot_set merge_wire_sets).
  { repeat constructor; simpl; unfold uint16_max; lia. }
  assert (Hin : mkNode "10.0.0.1:7000" "id-m" [] "" "" ∈ no_slots_topo)
    by (by left).
  split; [exact Hwf|]. split; [exact Hin|].
  assert (Hex : Exists (λ s : wire_slot_set, s.2 ≠ []) merge_wire_sets).
  { by left. }
  destruct (Topo_UnmarshalRESP_run no_slots_topo
              (ArrayHeader (Z.of_nat (length merge_wire_sets))
                 :: slot_sets_items merge_wire_sets ++ []))
    as [[tt1 br1] o1] eqn:E.
  pose proof (Topo_UnmarshalRESP_run_admissible _ _ _ _ _ E) as H.
  assert (br1 = []) as ->.
  { apply (f_equal (λ x, x.1.2)) in E. vm_compute in E. by symmetry. }
  rewrite (decode_with_slotless_node _ _ _ _ _ _ _ Hwf Hin eq_refl (or_intror Hex) H)
    in H.
  exact H.
Defined.

(** ** Strings and [net.SplitHostPort] *)

Lemma index_byte_app_None c s1 s2 :
  index_byte c s1 = None → index_byte c s2 = None →
  index_byte c (s1 +:+ s2) = None.
Proof.
  induction s1 as [|a s1 IH]; simpl; [done|].
  destruct (decide (a = c)); [done|].
  destruct (index_byte c s1); [done|]. intros _ H. by rewrite IH.
Qed.

Lemma index_byte_cons_None c a s :
  a ≠ c → index_byte c s = None → index_byte c (String a s) = None.
Proof. intros Hne H. simpl. rewrite decide_False by done. by rewrite H. Qed.

Lemma last_index_byte_None c s :
  index_byte c s = None → last_index_byte c s = None.
Proof.
  induction s as [|a s IH]; simpl; [done|].
  destruct (decide (a = c)); [done|].
  destruct (index_byte c s); [done|]. intros _. by rewrite IH.
Qed.

Lemma last_index_byte_app c s1 s2 :
  index_byte c s2 = None →
  last_index_byte c (s1 +:+ String c s2) = Some (String.length s1).
Proof.
  intros H. induction s1 as [|a s1 IH]; simpl.
  - rewrite last_index_byte_None by done. by rewrite decide_True.
  - by rewrite IH.
Qed.

Lemma str_take_app s1 s2 : str_take (String.length s1) (s1 +:+ s2) = s1.
Proof.
  unfold str_take. induction s1 as [|a s1 IH]; simpl.
  - by destruct s2.
  - by rewrite IH.
Qed.

Lemma substring_all s : substring 0 (String.length s) s = s.
Proof. induction s as [|a s IH]; simpl; [done|]. by rewrite IH. Qed.

Lemma string_length_app s1 s2 :
  String.length (s1 +:+ s2) = (String.length s1 + String.length s2)%nat.
Proof. induction s1 as [|a s1 IH]; simpl; [done|]. by rewrite IH. Qed.

Lemma str_drop_app c s1 s2 :
  str_drop (S (String.length s1)) (s1 +:+ String c s2) = s2.
Proof.
  unfold str_drop. rewrite string_length_app. simpl.
  replace (String.length s1 + S (String.length s2) - S (String.length s1))%nat
    with (String.length s2) by lia.
  induction s1 as [|a s1 IH]; simpl; [apply substring_all | done].
Qed.

Lemma str_drop_0 s : str_drop 0 s = s.
Proof. unfold str_drop. rewrite Nat.sub_0_r. apply substring_all. Qed.

Lemma has_byte_None c s : index_byte c s = None → has_byte c s = false.
Proof. unfold has_byte. by intros ->. Qed.

Lemma SplitHostPort_join host port :
  plain host → plain port →
  SplitHostPort (host +:+ ":" +:+ port) = (host, port, None).
Proof.
  intros (Hc & Hl & Hr) (Hc' & Hl' & Hr').
  unfold SplitHostPort.
  change (":" +:+ port) with (String ":" port).
  rewrite last_index_byte_app by done.
  rewrite decide_False.
  2:{ destruct host as [|a host]; simpl; [done|].
      simpl in Hl. destruct (decide (a = "["%char)); [done|]. congruence. }
  rewrite str_take_app, (has_byte_None _ _ Hc).
  rewrite str_drop_0, str_drop_app.
  rewrite !has_byte_None; [done| |].
  - apply index_byte_app_None; [done|]. by apply index_byte_cons_None.
  - apply index_byte_app_None; [done|]. by apply index_byte_cons_None.
Qed.

Lemma node_strings_of_strings e sl :
  canonical_entry e → node_strings (node_of_strings e sl) = e.
Proof.
  intros (Hh & Hp & Hlen). unfold node_strings, node_of_strings.
  cbn [Addr ID]. rewrite SplitHostPort_join by done.
  destruct Hlen as [Hlen|[Hlen Hid]].
  - destruct e as [|h [|p [|]]]; simplify_eq/=. done.
  - destruct e as [|h [|p [|i [|]]]]; simplify_eq/=.
    by rewrite decide_True.
Qed.

(** ** Slot-set entries *)

Lemma wrap16_incr_decr z : is_uint16 z → wrap16 (wrap16 (z + 1) - 1) = z.
Proof.
  unfold is_uint16, uint16_max, wrap16. intros Hz.
  destruct (decide (z = 65535)) as [->|Hne]; [done|].
  rewrite (Z.mod_small (z + 1)) by lia.
  replace (z + 1 - 1) with z by lia. apply Z.mod_small. lia.
Qed.

Lemma node_strings_with_SlaveOf n a i :
  node_strings (with_SlaveOf n a i) = node_strings n.
Proof. done. Qed.

Lemma nodes_from_node_strings entries :
  Forall canonical_entry entries →
  ∀ i m sl, node_strings <$> nodes_from i m sl entries = entries.
Proof.
  induction 1 as [|e entries He _ IH]; intros i m sl; [done|].
  cbn [nodes_from]. case_decide; rewrite fmap_cons, IH;
    [|rewrite node_strings_with_SlaveOf]; by rewrite node_strings_of_strings.
Qed.

Lemma nodes_from_Addr entries :
  ∀ i m sl, Addr <$> nodes_from i m sl entries = entry_addr <$> entries.
Proof.
  induction entries as [|e entries IH]; intros i m sl; [done|].
  cbn [nodes_from]. case_decide; rewrite !fmap_cons, IH; done.
Qed.

(** X9. Every pair of inclusive bounds that fit 16 bits is read and
    written back as it was: the decoder increments the end in 16-bit
    arithmetic, so that the inclusive end 65535 becomes the exclusive end
    0, and the encoder, which decrements in the same arithmetic, writes
    the bounds that were read. *)
Theorem bounds_wrap_around tss0 n a b br :
  is_uint16 a → is_uint16 b →
  let tss :=
    (topoSlotSet_UnmarshalRESP (tss0, ArrayHeader n :: Int a :: Int b :: br)).1.1 in
  slots tss = (a, if decide (b = uint16_max) then 0 else b + 1) ∧
  ∀ w, ∃ rest,
    topoSlotSet_MarshalRESP tss w
    = (w ++ ArrayHeader (2 + Z.of_nat (length (nodes tss)))
            :: Int a :: Int b :: rest, None).
Proof.
  intros Ha Hb. cbv zeta.
  rewrite topoSlotSet_UnmarshalRESP_bounds by done.
  match goal with |- slots ?t = _ ∧ _ =>
    assert (Hs : slots t = (a, wrap16 (b + 1))) end.
  { by rewrite unmarshal_nodes_slots. }
  split.
  - rewrite Hs. f_equal. unfold is_uint16, uint16_max in *. unfold wrap16.
    case_decide as Hm; [by subst|]. apply Z.mod_small. lia.
  - intros w. rewrite topoSlotSet_MarshalRESP_items. unfold tss_items.
    rewrite Hs. simpl fst. simpl snd. rewrite wrap16_incr_decr by done.
    eexists. reflexivity.
Qed.

Lemma bounds_wrap_around_witness :
  is_uint16 16384 ∧ is_uint16 65535 ∧
  slots (topoSlotSet_UnmarshalRESP
           (topoSlotSet_zero,
            [ArrayHeader 3; Int 16384; Int 65535;
             ArrayHeader 2; BulkString "10.0.0.1"; BulkString "7000"])).1.1
  = (16384, 0).
Proof.
  assert (Ha : is_uint16 16384) by (unfold is_uint16, uint16_max; lia).
  assert (Hb : is_uint16 65535) by (unfold is_uint16, uint16_max; lia).
  split; [exact Ha|]. split; [exact Hb|].
  exact (proj1 (bounds_wrap_around topoSlotSet_zero 3 16384 65535
                  [ArrayHeader 2; BulkString "10.0.0.1"; BulkString "7000"]
                  Ha Hb)).
Defined.



(** X11. [topoSlotSet.UnmarshalRESP] overwrites the range of its
    receiver and appends to its nodes: on a well-formed entry the nodes
    that the receiver held come first, unchanged, followed by one node
    for each node entry, with the address joined from host and port and
    with the range of the entry as its only range. *)
Theorem slot_set_decode_appends tss0 s br :
  wf_wire_slot_set s →
  let r := topoSlotSet_UnmarshalRESP (tss0, slot_set_items s ++ br) in
  r.2 = inr () ∧ r.1.2 = br ∧
  slots r.1.1 = (s.1.1, wrap16 (s.1.2 + 1)) ∧
  take (length (nodes tss0)) (nodes r.1.1) = nodes tss0 ∧
  Addr <$> drop (length (nodes tss0)) (nodes r.1.1) = entry_addr <$> s.2 ∧
  Forall (λ nd, Slots nd = [(s.1.1, wrap16 (s.1.2 + 1))])
         (drop (length (nodes tss0)) (nodes r.1.1)).
Proof.
  intros (Ha & Hb & He). cbv zeta. unfold slot_set_items. cbn [app].
  rewrite topoSlotSet_UnmarshalRESP_bounds by done.
  replace (Z.to_nat (2 + Z.of_nat (length s.2) - 2)) with (length s.2) by lia.
  rewrite unmarshal_nodes_items by done. cbn [fst snd slots nodes].
  rewrite take_app_length, drop_app_length, nodes_from_Addr.
  repeat split; try done.
  apply Forall_forall. intros nd Hnd.
  pose proof (decoded_slot_set_Slots s) as Hs.
  rewrite Forall_forall in Hs. by apply Hs.
Qed.

Lemma slot_set_decode_appends_witness :
  wf_wire_slot_set (0, 5460, [["127.0.0.1"; "7000"; "id-a"]]) ∧
  Addr <$> drop 1 (nodes (topoSlotSet_UnmarshalRESP
           (mkTSS (7, 9) [Node_zero],
            slot_set_items (0, 5460, [["127.0.0.1"; "7000"; "id-a"]]) ++ [])).1.1)
  = ["127.0.0.1:7000"].
Proof.
  assert (Hwf : wf_wire_slot_set (0, 5460, [["127.0.0.1"; "7000"; "id-a"]])).
  { repeat split; simpl; unfold uint16_max; try lia. repeat constructor. }
  split; [exact Hwf|].
  exact (proj1 (proj2 (proj2 (proj2 (proj2
           (slot_set_decode_appends (mkTSS (7, 9) [Node_zero]) _ [] Hwf)))))).
Defined.

(** X12. What a slot-set entry written by [topoSlotSet.MarshalRESP]
    decodes to, when the bounds fit 16 bits and the addresses split into
    host and port: the same range and, in the same order, nodes with the
    same address and id.  Each node comes back with the range of the
    entry as its only range, the first one as a master and every other
    one as a replica of the first, whatever their [Slots], [SlaveOfAddr]
    and [SlaveOfID] were. *)
Theorem slot_set_round_trip tss br :
  is_uint16 (slots tss).1 → is_uint16 (slots tss).2 →
  Forall (λ t, addr_splits (Addr t)) (nodes tss) →
  topoSlotSet_UnmarshalRESP
    (topoSlotSet_zero, (topoSlotSet_MarshalRESP tss []).1 ++ br)
  = ((mkTSS (slots tss) (rederived tss), br), inr ()).
Proof.
  intros H1 H2 Hsplit. rewrite topoSlotSet_MarshalRESP_items.
  cbn [fst app]. rewrite tss_items_wire.
  rewrite topoSlotSet_UnmarshalRESP_items by (by apply wire_of_tss_wf).
  do 2 f_equal. unfold decoded_slot_set, wire_of_tss. cbn [fst snd].
  rewrite wrap16_decr_incr by done.
  destruct tss as [[s e] ns]. unfold rederived. cbn [slots nodes] in *.
  f_equal. destruct ns as [|m reps]; [done|].
  rewrite fmap_cons, nodes_from_master.
  apply Forall_cons in Hsplit as [Hsm Hsr].
  rewrite node_of_node_strings by done. cbn [Addr ID]. f_equal.
  rewrite <- list_fmap_compose. apply Forall_fmap_ext_1.
  eapply Forall_impl; [exact Hsr|]. intros x Hx. simpl.
  by rewrite node_of_node_strings.
Qed.

Lemma slot_set_round_trip_witness :
  topoSlotSet_UnmarshalRESP
    (topoSlotSet_zero,
     (topoSlotSet_MarshalRESP
        (mkTSS (0, 5461)
           [mkNode "127.0.0.1:7001" "id-b" [(0, 5461); (9, 10)]
              "127.0.0.1:7000" "id-a";
            mkNode "127.0.0.1:7000" "id-a" [(0, 5461)] "" ""]) []).1 ++ [])
  = ((mkTSS (0, 5461)
        [mkNode "127.0.0.1:7001" "id-b" [(0, 5461)] "" "";
         mkNode "127.0.0.1:7000" "id-a" [(0, 5461)] "127.0.0.1:7001" "id-b"],
      []), inr ()).
Proof.
  apply (slot_set_round_trip
           (mkTSS (0, 5461)
              [mkNode "127.0.0.1:7001" "id-b" [(0, 5461); (9, 10)]
                 "127.0.0.1:7000" "id-a";
               mkNode "127.0.0.1:7000" "id-a" [(0, 5461)] "" ""]) []).
  - unfold is_uint16, uint16_max. simpl. lia.
  - unfold is_uint16, uint16_max. simpl. lia.
  - repeat constructor.
Defined.

(** X13. A well-formed slot-set entry whose node entries are
    [host, port] or [host, port, id] with a non-empty id, host and port
    free of colons and brackets, is written back item for item by
    [topoSlotSet.MarshalRESP] after [topoSlotSet.UnmarshalRESP] has read
    it. *)
Theorem slot_set_wire_round_trip s br w :
  wf_wire_slot_set s → Forall canonical_entry s.2 →
  topoSlotSet_MarshalRESP
    (topoSlotSet_UnmarshalRESP (topoSlotSet_zero, slot_set_items s ++ br)).1.1 w
  = (w ++ slot_set_items s, None).
Proof.
  intros Hwf Hc. rewrite topoSlotSet_UnmarshalRESP_items by done.
  cbn [fst]. rewrite topoSlotSet_MarshalRESP_items. f_equal. f_equal.
  destruct Hwf as (Ha & Hb & _).
  unfold tss_items, slot_set_items, decoded_slot_set. cbn [slots nodes fst snd].
  rewrite nodes_from_length, wrap16_incr_decr by done.
  do 3 f_equal. unfold entries_items, node_items. f_equal.
  rewrite (list_fmap_compose node_strings strings_items).
  by rewrite nodes_from_node_strings.
Qed.

Lemma slot_set_wire_round_trip_witness :
  wf_wire_slot_set
    (0, 5460, [["127.0.0.1"; "7000"; "id-a"]; ["127.0.0.1"; "7001"]]) ∧
  topoSlotSet_MarshalRESP
    (topoSlotSet_UnmarshalRESP
       (topoSlotSet_zero,
        slot_set_items
          (0, 5460, [["127.0.0.1"; "7000"; "id-a"]; ["127.0.0.1"; "7001"]])
        ++ [])).1.1 []
  = ([] ++ slot_set_items
       (0, 5460, [["127.0.0.1"; "7000"; "id-a"]; ["127.0.0.1"; "7001"]]),
     None).
Proof.
  assert (Hwf : wf_wire_slot_set
    (0, 5460, [["127.0.0.1"; "7000"; "id-a"]; ["127.0.0.1"; "7001"]])).
  { repeat split; simpl; unfold uint16_max; try lia. repeat constructor. }
  split; [exact Hwf|].
  apply (slot_set_wire_round_trip _ [] [] Hwf).
  repeat constructor; simpl; try done; right; done.
Defined.

Lemma SplitHostPort_error a :
  (SplitHostPort a).2 ≠ None → (SplitHostPort a).1 = ("", "").
Proof.
  unfold SplitHostPort.
  repeat (case_match || case_decide); simpl; done.
Qed.

(** X14. The error of [net.SplitHostPort] is dropped: for a node
    whose address does not split, the encoder writes an empty host and an
    empty port, followed by the id when it is not empty, and the decoder
    reads the address [":"] from them. *)
Theorem unsplittable_address_written_empty n sl :
  (SplitHostPort (Addr n)).2 ≠ None →
  node_strings n = "" :: "" :: (if decide (ID n = "") then [] else [ID n]) ∧
  Addr (node_of_strings (node_strings n) sl) = ":".
Proof.
  intros H%SplitHostPort_error. unfold node_strings.
  destruct (SplitHostPort (Addr n)) as [[host port] err]. simpl in H.
  injection H as -> ->.
  destruct (decide (ID n = "")) as [Hid|Hid].
  - rewrite decide_False by (by intros ?). done.
  - rewrite decide_True by done. done.
Qed.

Lemma unsplittable_address_written_empty_witness :
  (SplitHostPort (Addr (mkNode "localhost" "id-a" [(0, 1)] "" ""))).2 ≠ None ∧
  node_strings (mkNode "localhost" "id-a" [(0, 1)] "" "") = [""; ""; "id-a"].
Proof.
  assert (H : (SplitHostPort (Addr (mkNode "localhost" "id-a" [(0, 1)] "" ""))).2
              ≠ None) by (vm_compute; discriminate).
  split; [exact H|].
  exact (proj1 (unsplittable_address_written_empty _ (0, 1) H)).
Defined.

(** ** More on the encoder *)

Lemma slot_pairs_filter tt :
  slot_pairs (filter (λ t, Slots t ≠ []) tt) = slot_pairs tt.
Proof.
  unfold slot_pairs. induction tt as [|t tt IH]; [done|].
  rewrite bind_cons. destruct (decide (Slots t ≠ [])) as [Hne|He].
  - rewrite filter_cons_True by done. by rewrite bind_cons, IH.
  - rewrite filter_cons_False by done. rewrite IH.
    destruct (Slots t); [done|]. by destruct He.
Qed.

Lemma slot_buckets_filter tt :
  slot_buckets (filter (λ t, Slots t ≠ []) tt) = slot_buckets tt.
Proof.
  unfold slot_buckets. by rewrite !slot_buckets_pairs, slot_pairs_filter.
Qed.

(** X15. Nodes without slots do not take part in the encoding:
    [Topo.MarshalRESP] writes for a topology what it writes for the
    topology without them. *)
Theorem encoder_ignores_slotless_nodes tt w out :
  Topo_MarshalRESP (filter (λ t, Slots t ≠ []) tt) w out ↔
  Topo_MarshalRESP tt w out.
Proof. unfold Topo_MarshalRESP. by rewrite slot_buckets_filter. Qed.

Lemma sorted_tss_unique (l l' : list topoSlotSet) :
  sorted_by less_tss l → sorted_by less_tss l' →
  NoDup ((slots <$> l).*1) → l ≡ₚ l' → l' = l.
Proof.
  intros Hs Hs' Hnd Hp. symmetry.
  apply (StronglySorted_unique_strong (λ x y : topoSlotSet, less_tss y x = false));
    [|by apply FOP_StronglySorted..|done].
  intros x1 x2 Hx1 Hx2 H12 H21. rewrite <- Hp in Hx2.
  rewrite <- list_fmap_compose in Hnd.
  apply (NoDup_fmap_elem (fst ∘ slots) l); [done..|].
  unfold less_tss in *. apply bool_decide_eq_false in H12, H21. simpl. lia.
Qed.

(** X16. When no two distinct ranges of the topology start at the
    same slot, [Topo.MarshalRESP] has one outcome only, whatever the
    iteration order of the map and the behaviour of [sort.Slice] on
    ties. *)
Theorem encoding_deterministic tt w out1 out2 :
  NoDup ((remove_dups (tt ≫= Slots)).*1) →
  Topo_MarshalRESP tt w out1 → Topo_MarshalRESP tt w out2 →
  out1 = out2.
Proof.
  intros Hnd (l1 & a1 & Hr1 & [Hp1 Hs1] & ->) (l2 & a2 & Hr2 & [Hp2 Hs2] & ->).
  f_equal.
  specialize (Hs1 (less_tss_transitive_ordering _)).
  specialize (Hs2 (less_tss_transitive_ordering _)).
  apply (sorted_tss_unique a2 a1); [done..| |].
  - destruct (slot_buckets_range _ _ Hr2) as [Hsl _].
    by rewrite <- Hp2, Hsl.
  - unfold map_range in *. by rewrite <- Hp1, <- Hp2, Hr1, Hr2.
Qed.

Lemma encoding_deterministic_witness :
  NoDup ((remove_dups (three_range_topo ≫= Slots)).*1) ∧
  marshal_sorted
    (insertionSort less_tss
       (reverse (map_to_list (slot_buckets three_range_topo)).*2)) []
  = Topo_MarshalRESP_run three_range_topo [].
Proof.
  assert (H : NoDup ((remove_dups (three_range_topo ≫= Slots)).*1))
    by compute_done.
  split; [exact H|].
  apply (encoding_deterministic three_range_topo [] _ _ H).
  - eexists _, _. split; [|split; [apply insertionSort_admissible|reflexivity]].
    unfold map_range. apply reverse_Permutation.
  - apply Topo_MarshalRESP_run_admissible.
Defined.

(** ** Encoding, then decoding *)

Section group_by_key.
Context {A K : Type} `{EqDecision K} (f : A → K).

Lemma bind_filter_nil (R : list K) :
  R ≫= (λ r, filter (λ x, f x = r) (@nil A)) = [].
Proof. induction R as [|r R IH]; [done|]. by rewrite bind_cons, IH. Qed.

Lemma bind_filter_cons_notin (R : list K) x l :
  f x ∉ R →
  R ≫= (λ r, filter (λ y, f y = r) (x :: l))
  = R ≫= (λ r, filter (λ y, f y = r) l).
Proof.
  induction R as [|r R IH]; intros Hx; [done|].
  apply not_elem_of_cons in Hx as [Hne Hx].
  rewrite !bind_cons, IH by done. by rewrite filter_cons_False.
Qed.

Lemma bind_filter_cons_in (R : list K) x l :
  NoDup R → f x ∈ R →
  R ≫= (λ r, filter (λ y, f y = r) (x :: l))
  ≡ₚ x :: R ≫= (λ r, filter (λ y, f y = r) l).
Proof.
  induction R as [|r R IH]; intros Hnd Hx; [by apply elem_of_nil in Hx|].
  apply NoDup_cons in Hnd as [Hr Hnd]. rewrite !bind_cons.
  destruct (decide (f x = r)) as [<-|Hne].
  - rewrite filter_cons_True by done.
    by rewrite bind_filter_cons_notin.
  - rewrite filter_cons_False by done.
    apply elem_of_cons in Hx as [?|Hx]; [done|].
    rewrite IH by done. by rewrite Permutation_middle.
Qed.

Lemma bind_filter_perm (R : list K) l :
  NoDup R → (∀ x, x ∈ l → f x ∈ R) →
  R ≫= (λ r, filter (λ y, f y = r) l) ≡ₚ l.
Proof.
  intros Hnd. induction l as [|x l IH]; intros Hin.
  - by rewrite bind_filter_nil.
  - rewrite bind_filter_cons_in; [|done|apply Hin; by left].
    constructor. apply IH. intros y Hy. apply Hin. by right.
Qed.
End group_by_key.

Lemma slot_pairs_snd tt : (slot_pairs tt).*2 = tt ≫= Slots.
Proof.
  unfold slot_pairs. induction tt as [|t tt IH]; [done|].
  rewrite !bind_cons, fmap_app, IH. f_equal.
  rewrite <- list_fmap_compose. apply list_fmap_id.
Qed.

Lemma addr_ranges_length l : length (addr_ranges l) = length (l ≫= Slots).
Proof.
  unfold addr_ranges. induction l as [|t l IH]; [done|].
  rewrite !bind_cons, !length_app, length_fmap. by rewrite IH.
Qed.

Lemma decode_addr_ranges sets ns tt' :
  map_range (merge_slotSets (decoded_slot_set <$> sets)) ns →
  Topo_sort ns (Ok tt') →
  addr_ranges tt' ≡ₚ wire_addr_ranges sets.
Proof.
  intros Hr Hsort.
  rewrite <- (addr_ranges_equiv _ _ (Topo_sort_topo_equiv _ _ Hsort)).
  unfold map_range in Hr. rewrite (addr_ranges_perm _ _ Hr).
  unfold merge_slotSets. rewrite merge_slotSets_flat.
  rewrite merge_nodes_addr_ranges by (intros k v; by rewrite lookup_empty).
  rewrite map_to_list_empty. simpl.
  by rewrite decoded_slot_sets_addr_ranges.
Qed.

Lemma entry_addr_node_strings n : entry_addr (node_strings n) = rejoined (Addr n).
Proof.
  unfold entry_addr, node_strings, rejoined.
  destruct (SplitHostPort (Addr n)) as [[host port] err].
  by case_decide.
Qed.

Lemma encoded_addr_ranges tt l allTSS :
  Forall (λ t, Forall (λ r, is_uint16 r.2) (Slots t)) tt →
  map_range (slot_buckets tt) l → l ≡ₚ allTSS →
  wire_addr_ranges (wire_of_tss <$> allTSS)
  ≡ₚ (λ p, (rejoined (Addr p.1), p.2)) <$> slot_pairs tt.
Proof.
  intros Hu Hr Hp.
  destruct (slot_buckets_range _ _ Hr) as [Hsl Hown].
  unfold wire_addr_ranges. rewrite <- Hp, list_fmap_bind.
  transitivity
    ((slots <$> l) ≫= (λ r, (λ p : Node * slot_range, (rejoined (Addr p.1), p.2))
                            <$> filter (λ p, p.2 = r) (slot_pairs tt))).
  - rewrite list_fmap_bind. apply reflexive_eq, Forall_bind_ext.
    rewrite Forall_forall in Hown. rewrite Forall_forall in Hu.
    rewrite Forall_forall. intros tss Htss. simpl.
    rewrite <- list_fmap_compose.
    assert (His : is_uint16 (slots tss).2).
    { assert (Hin : slots tss ∈ remove_dups (tt ≫= Slots)).
      { rewrite <- Hsl. apply list_elem_of_fmap. eauto. }
      apply elem_of_remove_dups, list_elem_of_bind in Hin as (t & Hs & Ht).
      specialize (Hu t Ht). rewrite Forall_forall in Hu. by apply Hu. }
    rewrite wrap16_decr_incr by done.
    rewrite (Hown tss Htss). unfold owners. rewrite <- list_fmap_compose.
    apply Forall_fmap_ext_1, Forall_forall.
    intros [n r] [Hr' _]%list_elem_of_filter. simpl in *. subst r.
    rewrite entry_addr_node_strings. by destruct (slots tss).
  - rewrite Hsl.
    transitivity
      ((λ p : Node * slot_range, (rejoined (Addr p.1), p.2))
         <$> (remove_dups (tt ≫= Slots)
                ≫= (λ r, filter (λ p, p.2 = r) (slot_pairs tt)))).
    + clear Hsl. induction (remove_dups (tt ≫= Slots)) as [|r R IH]; [done|].
      by rewrite !bind_cons, fmap_app, IH.
    + apply fmap_Permutation, (bind_filter_perm snd).
      * apply NoDup_remove_dups.
      * intros p Hp'. apply elem_of_remove_dups. rewrite <- slot_pairs_snd.
        apply list_elem_of_fmap. eauto.
Qed.

(** X17. What [Topo.MarshalRESP] writes for a topology with 16-bit
    bounds, [Topo.UnmarshalRESP] reads into an empty receiver without
    error and without panic, consuming exactly the items written.  The
    result holds one pair of address and range for every range listed by
    a node of the topology, no other, with the address as joined from the
    host and port that [net.SplitHostPort] returns for the address of
    the node. *)
Theorem encode_then_decode tt out rest tt' br' o :
  Forall (λ t, Forall (λ r, is_uint16 r.1 ∧ is_uint16 r.2) (Slots t)) tt →
  Topo_MarshalRESP tt [] out →
  Topo_UnmarshalRESP [] (out.1 ++ rest) tt' br' o →
  out.2 = None ∧ o = Returned None ∧ br' = rest ∧
  addr_ranges tt' ≡ₚ (λ p, (rejoined (Addr p.1), p.2)) <$> slot_pairs tt ∧
  length (tt' ≫= Slots) = length (tt ≫= Slots).
Proof.
  intros Hu (l & allTSS & Hr & [Hp _] & ->) Hdec.
  rewrite marshal_sorted_items in Hdec |- *. cbn [fst snd app] in Hdec |- *.
  split; [done|].
  destruct (slot_buckets_range _ _ Hr) as [Hsl _].
  assert (Hitems : concat (tss_items <$> allTSS)
                   = slot_sets_items (wire_of_tss <$> allTSS)).
  { unfold slot_sets_items. rewrite <- list_fmap_compose. f_equal.
    apply list_fmap_ext. intros i x _. apply tss_items_wire. }
  assert (Hwf : Forall wf_wire_slot_set (wire_of_tss <$> allTSS)).
  { apply Forall_fmap, Forall_forall. intros tss Htss. apply wire_of_tss_wf.
    assert (Hin : slots tss ∈ remove_dups (tt ≫= Slots)).
    { rewrite <- Hsl, Hp. apply list_elem_of_fmap. eauto. }
    apply elem_of_remove_dups, list_elem_of_bind in Hin as (t & Hs & Ht).
    rewrite Forall_forall in Hu. specialize (Hu t Ht).
    rewrite Forall_forall in Hu. by apply Hu. }
  rewrite Hitems in Hdec.
  replace (length allTSS) with (length (wire_of_tss <$> allTSS)) in Hdec
    by apply length_fmap.
  apply Topo_UnmarshalRESP_wf_inv in Hdec as (-> & -> & ns & Hm & Hsort);
    [|done|constructor].
  split; [done|]. split; [done|]. simpl in Hsort.
  assert (Hown : addr_ranges tt'
                 ≡ₚ (λ p, (rejoined (Addr p.1), p.2)) <$> slot_pairs tt).
  { rewrite (decode_addr_ranges _ _ _ Hm Hsort).
    apply (encoded_addr_ranges tt l); [|done..].
    eapply Forall_impl; [exact Hu|]. intros t Ht.
    eapply Forall_impl; [exact Ht|]. by intros r [_ ?]. }
  split; [done|].
  rewrite <- addr_ranges_length, Hown, length_fmap.
  by rewrite <- slot_pairs_snd, length_fmap.
Qed.

Lemma encode_then_decode_witness :
  Topo_MarshalRESP bracket_addr_topo [] (Topo_MarshalRESP_run bracket_addr_topo []) ∧
  Topo_UnmarshalRESP [] ((Topo_MarshalRESP_run bracket_addr_topo []).1 ++ [])
    [mkNode "::1:7000" "" [(0, 100)] "" ""] [] (Returned None) ∧
  addr_ranges [mkNode "::1:7000" "" [(0, 100)] "" ""]
  ≡ₚ (λ p, (rejoined (Addr p.1), p.2)) <$> slot_pairs bracket_addr_topo.
Proof.
  assert (Henc : Topo_MarshalRESP bracket_addr_topo []
                   (Topo_MarshalRESP_run bracket_addr_topo []))
    by apply Topo_MarshalRESP_run_admissible.
  assert (Hdec : Topo_UnmarshalRESP []
                   ((Topo_MarshalRESP_run bracket_addr_topo []).1 ++ [])
                   [mkNode "::1:7000" "" [(0, 100)] "" ""] [] (Returned None)).
  { apply Topo_UnmarshalRESP_run_admissible. vm_compute. reflexivity. }
  split; [exact Henc|]. split; [exact Hdec|].
  refine (proj1 (proj2 (proj2 (proj2
            (encode_then_decode bracket_addr_topo _ [] _ _ _ _ Henc Hdec))))).
  repeat constructor; unfold is_uint16, uint16_max; simpl; lia.
Defined.

(** ** More on the decoder *)

Lemma topo_equiv_elem l l' n :
  topo_equiv l l' → n ∈ l → ∃ n', n' ∈ l' ∧ node_equiv n n'.
Proof.
  intros (l1 & Hf & Hp) Hn.
  apply list_elem_of_lookup in Hn as [k Hk].
  destruct (Forall2_lookup_l _ _ _ _ _ Hf Hk) as (n' & Hk' & Heq).
  exists n'. split; [|done]. rewrite <- Hp. by eapply list_elem_of_lookup_2.
Qed.

(** X18. The decoder is determined up to order: on the same receiver
    and the same input, two runs have the same outcome, leave the reader
    at the same place, and leave receivers that hold the same nodes up to
    the order of the nodes and of their slots. *)
Theorem decode_determined_up_to_order tt br tt1 br1 o1 tt2 br2 o2 :
  Topo_UnmarshalRESP tt br tt1 br1 o1 →
  Topo_UnmarshalRESP tt br tt2 br2 o2 →
  o1 = o2 ∧ br1 = br2 ∧ topo_equiv tt1 tt2.
Proof.
  intros H1 H2.
  inversion H1 as [? ? Hh1|? ? Hh1 Hn1|? ? ? ? Hh1 Hn1 Hs1
                   |? ? ? ? ns1 ? Hh1 Hn1 Hs1 Hr1 Hsort1
                   |? ? ? ? ns1 Hh1 Hn1 Hs1 Hr1 Hp1]; subst;
  inversion H2 as [? ? Hh2|? ? Hh2 Hn2|? ? ? ? Hh2 Hn2 Hs2
                   |? ? ? ? ns2 ? Hh2 Hn2 Hs2 Hr2 Hsort2
                   |? ? ? ? ns2 Hh2 Hn2 Hs2 Hr2 Hp2]; subst;
    rewrite Hh1 in Hh2; simplify_eq; try lia;
    try (rewrite Hs1 in Hs2; simplify_eq);
    try (split; [done|]; split; [done|]; apply topo_equiv_refl).
  - assert (Hns : ns1 ≡ₚ ns2) by (unfold map_range in *; by rewrite Hr1, Hr2).
    split; [done|]. split; [done|].
    eapply topo_equiv_trans; [apply topo_equiv_sym, Topo_sort_topo_equiv, Hsort1|].
    eapply topo_equiv_trans; [|apply Topo_sort_topo_equiv, Hsort2].
    apply topo_equiv_perm. by rewrite Hns.
  - exfalso.
    assert (Hns : ns1 ≡ₚ ns2) by (unfold map_range in *; by rewrite Hr1, Hr2).
    apply Topo_sort_inv in Hsort1 as (l1 & _ & Hg & _).
    inversion Hp2 as [|Hl He]. rewrite <- Hns in Hl, He.
    specialize (Hg Hl). apply Exists_exists in He as (x & Hx & Hxe).
    rewrite Forall_forall in Hg. by apply (Hg x).
  - exfalso.
    assert (Hns : ns1 ≡ₚ ns2) by (unfold map_range in *; by rewrite Hr1, Hr2).
    apply Topo_sort_inv in Hsort2 as (l1 & _ & Hg & _).
    inversion Hp1 as [|Hl He]. rewrite Hns in Hl, He.
    specialize (Hg Hl). apply Exists_exists in He as (x & Hx & Hxe).
    rewrite Forall_forall in Hg. by apply (Hg x).
  - assert (Hns : ns1 ≡ₚ ns2) by (unfold map_range in *; by rewrite Hr1, Hr2).
    split; [done|]. split; [done|]. apply topo_equiv_perm. by rewrite Hns.
Qed.

Lemma decode_determined_up_to_order_witness :
  Topo_UnmarshalRESP [] same_start_wire
    (Topo_UnmarshalRESP_run [] same_start_wire).1.1 [] (Returned None) ∧
  topo_equiv (Topo_UnmarshalRESP_run [] same_start_wire).1.1
             (Topo_UnmarshalRESP_run [] same_start_wire).1.1.
Proof.
  assert (H : Topo_UnmarshalRESP [] same_start_wire
                (Topo_UnmarshalRESP_run [] same_start_wire).1.1 []
                (Returned None)).
  { apply Topo_UnmarshalRESP_run_admissible. vm_compute. reflexivity. }
  split; [exact H|].
  exact (proj2 (proj2 (decode_determined_up_to_order _ _ _ _ _ _ _ _ H H))).
Defined.

Lemma nodes_from_back_reference m0 sl entries h :
  h ∈ nodes_from 0 m0 sl entries →
  (SlaveOfAddr h = "" ∧ SlaveOfID h = "") ∨
  ∃ m, m ∈ nodes_from 0 m0 sl entries ∧
       Addr m = SlaveOfAddr h ∧ ID m = SlaveOfID h ∧
       SlaveOfAddr m = "".
Proof.
  destruct entries as [|e rest]; [by intros ?%elem_of_nil|].
  rewrite nodes_from_master. intros [->|Hh]%elem_of_cons; [by left|].
  right. exists (node_of_strings e sl). split; [by left|].
  by apply list_elem_of_fmap in Hh as (e' & -> & _).
Qed.

Lemma all_nodes_elem slotSets nd :
  nd ∈ all_nodes slotSets → ∃ tss, tss ∈ slotSets ∧ nd ∈ nodes tss.
Proof.
  unfold all_nodes. intros (l & Hl & Hnd)%list_elem_of_In%in_concat.
  apply list_elem_of_In, list_elem_of_fmap in Hl as (tss & -> & ?).
  apply list_elem_of_In in Hnd. eauto.
Qed.

(** X19. In a topology decoded into an empty receiver every node is
    either a master, with empty [SlaveOfAddr] and [SlaveOfID], or has a
    non-empty [SlaveOfAddr] that is the address of a node of the same
    topology. *)
Theorem decoded_back_references br tt' br' n :
  Topo_UnmarshalRESP [] br tt' br' (Returned None) →
  n ∈ tt' →
  (SlaveOfAddr n = "" ∧ SlaveOfID n = "") ∨
  (SlaveOfAddr n ≠ "" ∧ ∃ m, m ∈ tt' ∧ Addr m = SlaveOfAddr n).
Proof.
  intros H Hn.
  inversion H as [| | |? k ? slotSets ns ? Hh Hk Hs Hr Hsort|]; subst.
  simpl in Hsort.
  pose proof Hs as (sets & _ & _ & ->)%unmarshal_slotSets_inv.
  pose proof (Topo_sort_topo_equiv _ _ Hsort) as Heq.
  destruct (topo_equiv_elem _ _ n (topo_equiv_sym _ _ Heq) Hn)
    as (n0 & Hn0 & Ha & Hi & Hsa & Hsi & _).
  rewrite Hsa, Hsi. clear Ha Hi Hsa Hsi Hn.
  apply (merged_range_elem _ _ _ Hr) in Hn0.
  apply merged_Some in Hn0 as (h & Hh' & ->). cbn [SlaveOfAddr SlaveOfID with_Slots].
  apply head_with_addr in Hh' as [_ Hhin].
  destruct (all_nodes_elem _ _ Hhin) as (tss & Htss & Hnd).
  apply list_elem_of_fmap in Htss as (s & -> & Hs').
  apply nodes_from_back_reference in Hnd as [?|(m & Hm & Hma & _ & _)]; [by left|].
  right. split.
  { rewrite <- Hma. destruct s as [[a b] es]. simpl in Hm.
    clear -Hm. pose proof (nodes_from_Addr es 0 Node_zero (a, wrap16 (b + 1))) as HA.
    assert (HinA : Addr m ∈ Addr <$> nodes_from 0 Node_zero (a, wrap16 (b + 1)) es).
    { apply list_elem_of_fmap. eauto. }
    rewrite HA in HinA. apply list_elem_of_fmap in HinA as (e & -> & _).
    unfold entry_addr. by destruct (nth 0 e ""). }
  assert (Hall : m ∈ all_nodes (decoded_slot_set <$> sets)).
  { apply (elem_of_all_nodes _ (decoded_slot_set s)); [|done].
    apply list_elem_of_fmap. eauto. }
  destruct (merged_is_Some (Addr m) _ m Hall eq_refl) as [m' Hm'].
  assert (Hin : m' ∈ ns).
  { apply (merged_range_elem _ _ _ Hr). by rewrite (merged_Addr _ _ _ Hm'). }
  destruct (topo_equiv_elem _ _ m' Heq Hin) as (m'' & Hm'' & Ha'' & _).
  exists m''. split; [done|].
  by rewrite <- Ha'', (merged_Addr _ _ _ Hm').
Qed.

Lemma decoded_back_references_witness :
  Topo_UnmarshalRESP [] two_slot_sets_wire two_slot_sets_topo []
    (Returned None) ∧
  mkNode "127.0.0.1:7001" "id-b" [(0, 5461)] "127.0.0.1:7000" "id-a"
    ∈ two_slot_sets_topo ∧
  ((SlaveOfAddr (mkNode "127.0.0.1:7001" "id-b" [(0, 5461)]
                   "127.0.0.1:7000" "id-a") = "" ∧
    SlaveOfID (mkNode "127.0.0.1:7001" "id-b" [(0, 5461)]
                 "127.0.0.1:7000" "id-a") = "") ∨
   (SlaveOfAddr (mkNode "127.0.0.1:7001" "id-b" [(0, 5461)]
                   "127.0.0.1:7000" "id-a") ≠ "" ∧
    ∃ m, m ∈ two_slot_sets_topo ∧
         Addr m = SlaveOfAddr (mkNode "127.0.0.1:7001" "id-b" [(0, 5461)]
                                 "127.0.0.1:7000" "id-a"))).
Proof.
  assert (H : Topo_UnmarshalRESP [] two_slot_sets_wire two_slot_sets_topo []
                (Returned None)).
  { apply Topo_UnmarshalRESP_run_admissible. vm_compute. reflexivity. }
  assert (Hin : mkNode "127.0.0.1:7001" "id-b" [(0, 5461)]
                  "127.0.0.1:7000" "id-a" ∈ two_slot_sets_topo).
  { right. left. }
  split; [exact H|]. split; [exact Hin|].
  exact (decoded_back_references _ _ _ _ H Hin).
Defined.

Lemma all_nodes_decoded_Addr sets :
  Addr <$> all_nodes (decoded_slot_set <$> sets)
  = entry_addr <$> (sets ≫= snd).
Proof.
  unfold all_nodes. induction sets as [|s sets IH]; [done|].
  rewrite !fmap_cons, bind_cons. simpl concat. rewrite !fmap_app, IH.
  f_equal. apply nodes_from_Addr.
Qed.

(** X20. On well-formed input the decoder returns exactly one node
    for each distinct address among the node entries. *)
Theorem decoded_node_per_address sets rest tt' br' o :
  Forall wf_wire_slot_set sets →
  Topo_UnmarshalRESP []
    (ArrayHeader (Z.of_nat (length sets)) :: slot_sets_items sets ++ rest)
    tt' br' o →
  Addr <$> tt' ≡ₚ remove_dups (entry_addr <$> (sets ≫= snd)) ∧
  length tt' = length (remove_dups (entry_addr <$> (sets ≫= snd))).
Proof.
  intros Hwf H.
  apply Topo_UnmarshalRESP_wf_inv in H as (-> & _ & ns & Hr & Hsort);
    [|done|constructor].
  simpl in Hsort.
  assert (Hp : Addr <$> tt' ≡ₚ remove_dups (entry_addr <$> (sets ≫= snd))).
  { rewrite <- (topo_equiv_Addr _ _ (Topo_sort_topo_equiv _ _ Hsort)).
    apply NoDup_Permutation.
    - by eapply merged_range_NoDup.
    - apply NoDup_remove_dups.
    - intros a. rewrite elem_of_remove_dups, <- all_nodes_decoded_Addr.
      rewrite !list_elem_of_fmap. split.
      + intros (n & -> & Hn). apply (merged_range_elem _ _ _ Hr) in Hn.
        apply merged_Some in Hn as (h & [Ha Hh]%head_with_addr & _). eauto.
      + intros (nd & -> & Hnd).
        destruct (merged_is_Some (Addr nd) _ nd Hnd eq_refl) as [n' Hn'].
        exists n'. split; [by rewrite (merged_Addr _ _ _ Hn')|].
        apply (merged_range_elem _ _ _ Hr).
        by rewrite (merged_Addr _ _ _ Hn'). }
  split; [done|]. by rewrite <- Hp, length_fmap.
Qed.

Lemma decoded_node_per_address_witness :
  Forall wf_wire_slot_set merge_wire_sets ∧
  Topo_UnmarshalRESP []
    (ArrayHeader (Z.of_nat (length merge_wire_sets))
       :: slot_sets_items merge_wire_sets ++ [])
    merge_topo [] (Returned None) ∧
  length merge_topo
  = length (remove_dups (entry_addr <$> (merge_wire_sets ≫= snd))).
Proof.
  assert (Hwf : Forall wf_wire_slot_set merge_wire_sets).
  { repeat constructor; simpl; unfold uint16_max; lia. }
  assert (H : Topo_UnmarshalRESP []
                (ArrayHeader (Z.of_nat (length merge_wire_sets))
                   :: slot_sets_items merge_wire_sets ++ [])
                merge_topo [] (Returned None)).
  { apply Topo_UnmarshalRESP_run_admissible. vm_compute. reflexivity. }
  split; [exact Hwf|]. split; [exact H|].
  exact (proj2 (decoded_node_per_address _ _ _ _ _ Hwf H)).
Defined.

(** ** Bracketed addresses *)

Lemma index_byte_app_Some c s1 s2 :
  index_byte c s1 = None →
  index_byte c (s1 +:+ String c s2) = Some (String.length s1).
Proof.
  induction s1 as [|a s1 IH]; simpl.
  - intros _. by rewrite decide_True.
  - destruct (decide (a = c)); [done|].
    destruct (index_byte c s1); [done|]. intros _. by rewrite IH.
Qed.

Lemma string_app_snoc s c t : (s +:+ String c "") +:+ t = s +:+ String c t.
Proof.
  induction s as [|a s IH]; [done|].
  change (String a ((s +:+ String c "") +:+ t) = String a (s +:+ String c t)).
  by rewrite IH.
Qed.

Lemma string_length_snoc s c :
  String.length (s +:+ String c "") = S (String.length s).
Proof. rewrite string_length_app. simpl. lia. Qed.

Lemma SplitHostPort_brackets host port :
  index_byte "[" host = None → index_byte "]" host = None →
  plain port →
  SplitHostPort ("[" +:+ host +:+ "]:" +:+ port) = (host, port, None).
Proof.
  intros Hl Hr (Hc' & Hl' & Hr').
  unfold SplitHostPort.
  change ("[" +:+ host +:+ "]:" +:+ port)
    with (String "[" (host +:+ String "]" (String ":" port))).
  set (hp := String "[" (host +:+ String "]" (String ":" port))).
  assert (E1 : hp = String "[" host +:+ String "]" (String ":" port)) by done.
  assert (E2 : hp = String "[" (host +:+ "]") +:+ String ":" port).
  { unfold hp.
    change (String "[" (host +:+ "]") +:+ String ":" port)
      with (String "[" ((host +:+ "]") +:+ String ":" port)).
    by rewrite string_app_snoc. }
  assert (Hlast : last_index_byte ":" hp = Some (S (S (String.length host)))).
  { rewrite E2, last_index_byte_app by done. simpl.
    by rewrite string_length_snoc. }
  assert (Hidx : index_byte "]" hp = Some (S (String.length host))).
  { rewrite E1, index_byte_app_Some; [done|].
    by apply index_byte_cons_None. }
  assert (Hlen : S (S (String.length host)) ≠ String.length hp).
  { rewrite E1, string_length_app. simpl. lia. }
  assert (Hd1 : str_drop 1 hp = host +:+ String "]" (String ":" port)).
  { apply (str_drop_app "[" ""). }
  assert (Hd2 : str_drop (S (S (String.length host))) hp = String ":" port).
  { rewrite E1. apply (str_drop_app "]" (String "[" host)). }
  assert (Hd3 : str_drop (S (S (S (String.length host)))) hp = port).
  { rewrite E2. rewrite <- (string_length_snoc host "]").
    apply (str_drop_app ":" (String "[" (host +:+ "]"))). }
  assert (Hsub : substring 1 (S (String.length host) - 1) hp = host).
  { unfold hp. simpl. rewrite Nat.sub_0_r. apply str_take_app. }
  assert (Hget : String.get 0 hp = Some "["%char) by done.
  rewrite Hlast, Hidx. rewrite (decide_True _ _ Hget).
  rewrite decide_False by done. rewrite decide_True by done.
  rewrite Hd1, Hd2, Hd3, Hsub.
  rewrite has_byte_None.
  2:{ apply index_byte_app_None; [done|].
      apply index_byte_cons_None; [done|]. by apply index_byte_cons_None. }
  by rewrite has_byte_None by (by apply index_byte_cons_None).
Qed.

(** X21. A bracketed address [[host]:port] is written without its
    brackets, as the strings [host] and [port], and is read back as
    [host:port]: it is never an address that splits into the host and the
    port it is joined from. *)
Theorem bracketed_address_loses_brackets n host port sl :
  Addr n = "[" +:+ host +:+ "]:" +:+ port →
  index_byte "[" host = None → index_byte "]" host = None → plain port →
  node_strings n = host :: port :: (if decide (ID n = "") then [] else [ID n]) ∧
  Addr (node_of_strings (node_strings n) sl) = host +:+ ":" +:+ port ∧
  ¬ addr_splits (Addr n).
Proof.
  intros Ha Hl Hr Hp.
  pose proof (SplitHostPort_brackets host port Hl Hr Hp) as Hs.
  rewrite <- Ha in Hs.
  assert (Hns : node_strings n
                = host :: port :: (if decide (ID n = "") then [] else [ID n])).
  { unfold node_strings. rewrite Hs.
    destruct (decide (ID n = "")) as [Hid|Hid].
    - by rewrite decide_False by (by intros ?).
    - by rewrite decide_True. }
  split; [done|]. split.
  - rewrite Hns. unfold node_of_strings. by case_decide.
  - unfold addr_splits. rewrite Hs, Ha. cbn [fst snd].
    destruct host as [|a host]; [done|].
    intros Heq. injection Heq as Heq _. subst a.
    vm_compute in Hl. done.
Qed.

Lemma bracketed_address_loses_brackets_witness :
  Addr (mkNode "[::1]:7000" "" [(0, 100)] "" "") = "[" +:+ "::1" +:+ "]:" +:+ "7000" ∧
  node_strings (mkNode "[::1]:7000" "" [(0, 100)] "" "") = ["::1"; "7000"] ∧
  ¬ addr_splits (Addr (mkNode "[::1]:7000" "" [(0, 100)] "" "")).
Proof.
  assert (Ha : Addr (mkNode "[::1]:7000" "" [(0, 100)] "" "")
               = "[" +:+ "::1" +:+ "]:" +:+ "7000") by reflexivity.
  assert (Hp : plain "7000") by (repeat split).
  split; [exact Ha|].
  destruct (bracketed_address_loses_brackets _ "::1" "7000" (0, 100) Ha
              eq_refl eq_refl Hp) as (H1 & _ & H3).
  split; [exact H1 | exact H3].
Defined.

(** ** Decoding twice *)

(** X22. The decoder does not reset its receiver: decoding the same
    input a second time into the result of a first, successful decode
    succeeds and returns every address twice. *)
Theorem decode_twice_duplicates br tt1 br1 tt2 br2 o :
  Topo_UnmarshalRESP [] br tt1 br1 (Returned None) →
  Topo_UnmarshalRESP tt1 br tt2 br2 o →
  o = Returned None ∧ br2 = br1 ∧
  Addr <$> tt2 ≡ₚ (Addr <$> tt1) ++ (Addr <$> tt1) ∧
  length tt2 = (2 * length tt1)%nat ∧
  (tt1 ≠ [] → ¬ NoDup (Addr <$> tt2)).
Proof.
  intros H1 H2.
  inversion H1 as [| | |? k ? slotSets ns1 ? Hh1 Hk Hs1 Hr1 Hsort1|]; subst.
  simpl in Hsort1.
  pose proof Hs1 as (sets & _ & _ & ->)%unmarshal_slotSets_inv.
  pose proof (Topo_sort_topo_equiv _ _ Hsort1) as Heq1.
  assert (Hne : Forall (λ n, Slots n ≠ []) tt1).
  { eapply topo_equiv_nonempty; [exact Heq1|]. by eapply merged_range_nonempty. }
  assert (Hres : o = Returned None ∧ br2 = br1 ∧
                 ∃ ns2, ns2 ≡ₚ ns1 ∧ Topo_sort (tt1 ++ ns2) (Ok tt2)).
  { inversion H2 as [? ? Hh2|? ? Hh2 Hn2|? ? ? ? Hh2 Hn2 Hs2
                     |? ? ? ? ns2 ? Hh2 Hn2 Hs2 Hr2 Hsort2
                     |? ? ? ? ns2 Hh2 Hn2 Hs2 Hr2 Hp2]; subst;
      rewrite Hh1 in Hh2; simplify_eq; try lia;
      rewrite Hs1 in Hs2; simplify_eq.
    - split; [done|]. split; [done|]. exists ns2. split; [|done].
      unfold map_range in *. by rewrite Hr1, Hr2.
    - exfalso. eapply Topo_sort_no_panic; [|exact Hp2].
      apply Forall_app. split; [done|]. by eapply merged_range_nonempty. }
  destruct Hres as (-> & -> & ns2 & Hns & Hsort2).
  split; [done|]. split; [done|].
  assert (Hp : Addr <$> tt2 ≡ₚ (Addr <$> tt1) ++ (Addr <$> tt1)).
  { rewrite <- (topo_equiv_Addr _ _ (Topo_sort_topo_equiv _ _ Hsort2)).
    rewrite fmap_app, Hns. by rewrite (topo_equiv_Addr _ _ Heq1). }
  split; [done|]. split.
  - rewrite <- (length_fmap Addr tt2), Hp, length_app, length_fmap. lia.
  - intros Hn0 Hnd. rewrite Hp in Hnd.
    apply NoDup_app in Hnd as (_ & Hdis & _).
    destruct tt1 as [|n l]; [done|].
    apply (Hdis (Addr n)); rewrite fmap_cons; by left.
Qed.

Lemma decode_twice_duplicates_witness :
  Topo_UnmarshalRESP [] two_slot_sets_wire two_slot_sets_topo []
    (Returned None) ∧
  Topo_UnmarshalRESP two_slot_sets_topo two_slot_sets_wire
    (Topo_UnmarshalRESP_run two_slot_sets_topo two_slot_sets_wire).1.1 []
    (Returned None) ∧
  length (Topo_UnmarshalRESP_run two_slot_sets_topo two_slot_sets_wire).1.1
  = (2 * length two_slot_sets_topo)%nat.
Proof.
  assert (H1 : Topo_UnmarshalRESP [] two_slot_sets_wire two_slot_sets_topo []
                 (Returned None)).
  { apply Topo_UnmarshalRESP_run_admissible. vm_compute. reflexivity. }
  assert (H2 : Topo_UnmarshalRESP two_slot_sets_topo two_slot_sets_wire
                 (Topo_UnmarshalRESP_run two_slot_sets_topo two_slot_sets_wire).1.1
                 [] (Returned None)).
  { apply Topo_UnmarshalRESP_run_admissible. vm_compute. reflexivity. }
  split; [exact H1|]. split; [exact H2|].
  exact (proj1 (proj2 (proj2 (proj2
           (decode_twice_duplicates _ _ _ _ _ _ H1 H2))))).
Defined.

(** ** Canonical order, where the comparison is an ordering *)

(** X23. Where the comparison of [Topo.sort] is a transitive ordering on
    the decoded nodes, that is, where first ranges that start at the same
    slot are the same range and no first range has two masters, the
    decoded topology is in canonical order: a node whose first range
    starts lower stands before a node whose first range starts higher,
    and of a master and a replica with the same first range the master
    stands first. *)
Theorem canonical_order tt br tt' br' :
  Topo_UnmarshalRESP tt br tt' br' (Returned None) →
  one_master_per_start tt' →
  ∀ i j a b sa sb,
    tt' !! i = Some a → tt' !! j = Some b →
    head (Slots a) = Some sa → head (Slots b) = Some sb →
    (sa.1 < sb.1 → (i < j)%nat) ∧
    (sa = sb → SlaveOfAddr a = "" → SlaveOfAddr b ≠ "" → (i < j)%nat).
Proof.
  intros H Hone i j a b sa sb Hi Hj Ha Hb.
  inversion H as [| | |? n ? slotSets ns ? Hh Hn Hs Hr Hsort|]; subst.
  assert (Hless : (j < i)%nat → less_node_total a b = false).
  { intros Hji.
    assert (Hlen : (2 ≤ length tt')%nat).
    { apply lookup_lt_Some in Hi. lia. }
    pose proof Hsort as (l1 & _ & Hg & _)%Topo_sort_inv.
    pose proof (Topo_sort_topo_equiv _ _ Hsort) as Heq.
    assert (Hne : Forall (λ n, Slots n ≠ []) tt').
    { eapply topo_equiv_nonempty; [exact Heq|].
      apply Hg. by rewrite <- (topo_equiv_length _ _ Heq). }
    pose proof (Topo_sort_sorted _ _ Hsort
                  (one_master_per_start_ordering _ Hne Hone)) as Hsorted.
    exact (FOP_lookup _ _ _ _ _ _ Hsorted Hji Hj Hi). }
  assert (Hab : less_node_total a b =
                if decide (sa ≠ sb) then bool_decide (sa.1 < sb.1)
                else bool_decide (SlaveOfAddr a = "")).
  { unfold less_node_total, less_node.
    destruct (Slots a) as [|sa' ra]; [done|].
    destruct (Slots b) as [|sb' rb]; [done|].
    simpl in Ha, Hb. by injection Ha as ->; injection Hb as ->. }
  split.
  - intros Hlt. destruct (lt_eq_lt_dec i j) as [[?| ->]|Hji]; [done| |].
    + rewrite Hi in Hj. injection Hj as ->. rewrite Ha in Hb.
      injection Hb as ->. lia.
    + specialize (Hless Hji). rewrite Hab in Hless.
      rewrite decide_True in Hless by (intros ->; lia).
      apply bool_decide_eq_false in Hless. lia.
  - intros -> Hm Hr'. destruct (lt_eq_lt_dec i j) as [[?| ->]|Hji]; [done| |].
    + rewrite Hi in Hj. by injection Hj as ->.
    + specialize (Hless Hji). rewrite Hab in Hless.
      rewrite decide_False in Hless by (by intros ?).
      by apply bool_decide_eq_false in Hless.
Qed.

Lemma canonical_order_witness :
  Topo_UnmarshalRESP [] two_slot_sets_wire two_slot_sets_topo [] (Returned None) ∧
  one_master_per_start two_slot_sets_topo ∧
  ((0, 5461) = (0, 5461) → "" = "" → "127.0.0.1:7000" ≠ "" → (0 < 1)%nat) ∧
  (0 < 5461 → (1 < 2)%nat).
Proof.
  assert (H : Topo_UnmarshalRESP [] two_slot_sets_wire two_slot_sets_topo []
                (Returned None)).
  { apply Topo_UnmarshalRESP_run_admissible. vm_compute. reflexivity. }
  assert (Hone : one_master_per_start two_slot_sets_topo).
  { unfold one_master_per_start, two_slot_sets_topo.
    repeat first [apply FOP_cons | apply FOP_nil
                 | apply Forall_cons_2 | apply Forall_nil_2];
      intros sa sb [= <-] [= <-];
      (split; [intros ?; simpl in *; first [done | lia]
              | intros ? [? ?]; done]). }
  split; [exact H|]. split; [exact Hone|]. split.
  - exact (proj2 (canonical_order [] two_slot_sets_wire two_slot_sets_topo []
                    H Hone 0%nat 1%nat
                    (mkNode "127.0.0.1:7000" "id-a" [(0, 5461)] "" "")
                    (mkNode "127.0.0.1:7001" "id-b" [(0, 5461)]
                       "127.0.0.1:7000" "id-a")
                    (0, 5461) (0, 5461) eq_refl eq_refl eq_refl eq_refl)).
  - exact (proj1 (canonical_order [] two_slot_sets_wire two_slot_sets_topo []
                    H Hone 1%nat 2%nat
                    (mkNode "127.0.0.1:7001" "id-b" [(0, 5461)]
                       "127.0.0.1:7000" "id-a")
                    (mkNode "127.0.0.1:7002" "id-c" [(5461, 10923)] "" "")
                    (0, 5461) (5461, 10923) eq_refl eq_refl eq_refl eq_refl)).
Defined.
